(** * gclone: the packfile decoder, the delta resolver and the loose-object store

    A shallow embedding of [main.go] (the final revision, together with the
    size decoder and the bundle decoder of the earlier revision kept in the
    same file) and the properties of it that the specification states,
    followed by properties of the rest of the program: the fetch, the
    repository and [main].

    Conventions of the embedding.
    - A Go [[]byte] is a [list byte]; a Go [string] is a [string]; [int64]
      values are [Z], with the wrap-around written out where a shift or an
      addition can leave the 64-bit range.
    - A cursor [off] into a slice is carried together with the unread
      suffix [data[off:]], so that [data[off]] is the head of the suffix.
    - The file system is a finite map from paths to file contents.
    - [compress/zlib] is an interface ([Zlib]); [crypto/sha1] is written
      out ([sha1]).
    - [net/http] is an interface ([Http]): what a GET and a POST come to. *)

From Stdlib Require Import ZArith Lia List Bool.
From Stdlib Require Import Strings.Byte Strings.String Strings.Ascii.
From Stdlib Require Import DecimalString DecimalN DecimalNat.
From stdpp Require Import base option list gmap strings.

Local Open Scope Z_scope.

(** ** Bytes *)

Definition b2z (b : byte) : Z := Z.of_N (Byte.to_N b).

Definition z2b (z : Z) : byte :=
  match Byte.of_N (Z.to_N (z mod 256)) with
  | Some b => b
  | None => "000"%byte
  end.

Definition str2bytes (s : string) : list byte := list_byte_of_string s.
Definition bytes2str (l : list byte) : string := string_of_list_byte l.

(** [n] bytes of [z], most significant first ([binary.BigEndian]). *)
Definition be_bytes (n : nat) (z : Z) : list byte :=
  map (fun i => z2b (Z.shiftr z (8 * Z.of_nat i))) (rev (seq 0 n)).

Definition be_uint (bs : list byte) : Z :=
  fold_left (fun acc b => acc * 256 + b2z b) bs 0.

(** ** crypto/sha1 *)

Module SHA1.

Definition w32 (z : Z) : Z := z mod 2 ^ 32.

Definition rotl (n x : Z) : Z :=
  w32 (Z.lor (Z.shiftl x n) (Z.shiftr x (32 - n))).

Definition pad (msg : list byte) : list byte :=
  let l := Z.of_nat (length msg) in
  msg ++ ["128"%byte] ++ repeat "000"%byte (Z.to_nat ((55 - l) mod 64))
      ++ be_bytes 8 (8 * l).

Fixpoint chunks (fuel : nat) (n : nat) (l : list byte) : list (list byte) :=
  match fuel, l with
  | _, [] => []
  | O, _ => []
  | S fuel', _ => take n l :: chunks fuel' n (drop n l)
  end.

(** The message schedule: sixteen words of the block, extended to eighty. *)
Definition schedule (block : list byte) : list Z :=
  let w16 := map be_uint (chunks 16 4 block) in
  fold_left
    (fun w t =>
       let x i := nth (t - i) w 0 in
       w ++ [rotl 1 (Z.lxor (Z.lxor (x 3%nat) (x 8%nat))
                            (Z.lxor (x 14%nat) (x 16%nat)))])
    (seq 16 64) w16.

Definition f (t : nat) (b c d : Z) : Z :=
  if (t <? 20)%nat then Z.lor (Z.land b c) (Z.land (Z.lxor b 0xFFFFFFFF) d)
  else if (t <? 40)%nat then Z.lxor (Z.lxor b c) d
  else if (t <? 60)%nat then
    Z.lor (Z.lor (Z.land b c) (Z.land b d)) (Z.land c d)
  else Z.lxor (Z.lxor b c) d.

Definition k (t : nat) : Z :=
  if (t <? 20)%nat then 0x5A827999
  else if (t <? 40)%nat then 0x6ED9EBA1
  else if (t <? 60)%nat then 0x8F1BBCDC
  else 0xCA62C1D6.

Definition state : Type := Z * Z * Z * Z * Z.

Definition round (w : list Z) (s : state) (t : nat) : state :=
  let '(a, b, c, d, e) := s in
  let tmp := w32 (rotl 5 a + f t b c d + e + k t + nth t w 0) in
  (tmp, a, rotl 30 b, c, d).

Definition compress (h : state) (block : list byte) : state :=
  let w := schedule block in
  let '(a, b, c, d, e) := fold_left (round w) (seq 0 80) h in
  let '(h0, h1, h2, h3, h4) := h in
  (w32 (h0 + a), w32 (h1 + b), w32 (h2 + c), w32 (h3 + d), w32 (h4 + e)).

Definition init : state :=
  (0x67452301, 0xEFCDAB89, 0x98BADCFE, 0x10325476, 0xC3D2E1F0).

Definition sum (msg : list byte) : list byte :=
  let p := pad msg in
  let '(h0, h1, h2, h3, h4) :=
    fold_left compress (chunks (length p) 64 p) init in
  be_bytes 4 h0 ++ be_bytes 4 h1 ++ be_bytes 4 h2 ++ be_bytes 4 h3
    ++ be_bytes 4 h4.

End SHA1.

Definition sha1 (data : list byte) : list byte := SHA1.sum data.

(** [hex.EncodeToString] *)
Definition hexDigit (n : Z) : ascii :=
  match String.get (Z.to_nat n) "0123456789abcdef" with
  | Some c => c
  | None => "0"%char
  end.

Fixpoint hexEncode (bs : list byte) : string :=
  match bs with
  | [] => EmptyString
  | b :: bs' =>
      String (hexDigit (Z.shiftr (b2z b) 4))
        (String (hexDigit (Z.land (b2z b) 15)) (hexEncode bs'))
  end.

#[global] Instance byte_eq_dec : EqDecision byte := Byte.byte_eq_dec.

(** ** Go integers *)

(** A value reduced to the signed 64-bit range, as every [int64] operation
    of Go does. *)
Definition int64 (z : Z) : Z := (z + 2 ^ 63) mod 2 ^ 64 - 2 ^ 63.

(** [int64(x) << s] and [a + b] on [int64]. *)
Definition shl64 (x s : Z) : Z := int64 (Z.shiftl x s).
Definition add64 (a b : Z) : Z := int64 (a + b).

Definition len {A} (l : list A) : Z := Z.of_nat (length l).

(** [fmt.Sprintf("%d", n)] for a length. *)
Definition decimal (n : nat) : string :=
  NilZero.string_of_uint (N.to_uint (N.of_nat n)).

(** [strconv.Atoi]: an optional sign, then one or more decimal digits; a
    value outside the [int] range (64 bits) is an error. *)
Definition Atoi (s : string) : option Z :=
  let '(neg, digits) :=
    match s with
    | String "-"%char t => (true, t)
    | String "+"%char t => (false, t)
    | _ => (false, s)
    end in
  match digits with
  | EmptyString => None
  | _ =>
      match NilEmpty.uint_of_string digits with
      | None => None
      | Some u =>
          let v := Z.of_N (N.of_uint u) in
          let v := if neg : bool then - v else v in
          if (- 2 ^ 63 <=? v) && (v <? 2 ^ 63) then Some v else None
      end
  end.

(** The characters of a decimal numeral. *)
Definition isDigit (c : ascii) : Prop :=
  c ∈ ["0"; "1"; "2"; "3"; "4"; "5"; "6"; "7"; "8"; "9"]%char.

(** [bytes.IndexByte] *)
Fixpoint indexByte (l : list byte) (c : byte) : option nat :=
  match l with
  | [] => None
  | b :: l' => if decide (b = c) then Some O else S <$> indexByte l' c
  end.

(** ** Errors and outcomes *)

(** One constructor for each [fmt.Errorf] of the program, with the values
    it prints. *)
Inductive error : Type :=
  | EChecksum                        (* Checksum verification failed *)
  | EPackTooShort (n : Z)            (* packfile too short: %d bytes *)
  | EBadMagic                        (* missing 'PACK' in header *)
  | EUnexpectedEnd (off : Z)         (* unexpected end of packfile at offset %d *)
  | EBadObjectType (t : Z)           (* Bad object type in the packfile: %d *)
  | ESizeTooLarge (off : Z)          (* object size encoding too large at offset %d *)
  | ERefDeltaHashEnd                 (* unexpected end of packfile while reading ref delta hash *)
  | EZlibNewReader                   (* zlib.NewReader has failed *)
  | EReadAll                         (* io.ReadAll has failed *)
  | EObjSizeMismatch (want got : Z)  (* object size mismatch: expected %d bytes, got %d bytes *)
  | EVarIntEnd (off : Z)             (* unexpected end of data at %d *)
  | EVarIntTooLarge (off : Z)        (* object size encoding too large at %d *)
  | EDeltaSrcSize (e : error)        (* failed to parse delta source size: %w *)
  | EDeltaTrgSize (e : error)        (* failed to parse delta target size: %w *)
  | EReadFile (path : string)        (* failed to read obj: %w *)
  | EZlibHeader                      (* the error of zlib.NewReader *)
  | EZlibData                        (* the error of reading the zlib stream *)
  | EDecompress (e : error)          (* failed to decompress object content: %w *)
  | ENoNull (path : string)          (* failed to find null byte in object file: %s *)
  | ENoSpace (path : string)         (* failed to find space byte in object file: %s *)
  | EInvalidSize                     (* invalid size in object header: %w *)
  | ESizeMismatch (declared got : Z) (* size mismatch: declared %d, got %d *)
  | ESrcSizeMismatch (srcSize got : Z)
      (* delta source size(%d) doesn't match source object content size(%d) *)
  | ECopyRange                       (* instruction offset + size exceeds source content size *)
  | EInsertSize                      (* instruction size != instruction data size *)
  | ETrgSizeMismatch (trgSize got : Z).
      (* delta target size(%d) doesn't match target object content size(%d) *)

(** What a call does: it returns a value, it returns an error, or it reads
    past the length of a slice ([Fault]). At a [Fault] Go panics with an
    index or slice-bounds error; for a reslice [s[i:j]] with [j] above the
    length but within the capacity it instead yields bytes of the backing
    array that are not part of the slice. Neither is an error value. *)
Inductive outcome (A : Type) : Type :=
  | Ok (a : A)
  | Err (e : error)
  | Fault.
Arguments Ok {A} a.
Arguments Err {A} e.
Arguments Fault {A}.

Definition obind {A B} (o : outcome A) (k : A -> outcome B) : outcome B :=
  match o with
  | Ok a => k a
  | Err e => Err e
  | Fault => Fault
  end.

Definition wrap {A} (w : error -> error) (o : outcome A) : outcome A :=
  match o with
  | Err e => Err (w e)
  | _ => o
  end.

Notation "'do' x <- o ; k" := (obind o (fun x => k))
  (at level 10, x pattern, o at level 100, k at level 200,
   format "'[v' 'do'  x  <-  o ; '/' k ']'").

(** ** The file system and the store monad *)

(** Files by path. [os.MkdirAll] and [os.WriteFile] succeed in this model:
    failures of the operating system are outside it. *)
Abbreviation store := (gmap string (list byte)).

(** A computation on the store: the store it leaves (also when it fails:
    nothing is rolled back) and its outcome. *)
Definition M (A : Type) : Type := store -> store * outcome A.

Definition ret {A} (a : A) : M A := fun st => (st, Ok a).
Definition lift {A} (o : outcome A) : M A := fun st => (st, o).
Definition bind {A B} (m : M A) (k : A -> M B) : M B :=
  fun st =>
    match m st with
    | (st', Ok a) => k a st'
    | (st', Err e) => (st', Err e)
    | (st', Fault) => (st', Fault)
    end.

Notation "'let*' x := m 'in' k" := (bind m (fun x => k))
  (at level 10, x pattern, m at level 100, k at level 200,
   format "'[v' 'let*'  x  :=  m  'in' '/' k ']'").

(** ** compress/zlib *)

(** What reading a zlib stream from the start of a byte sequence gives:
    [zlib.NewReader] rejects the header, the stream is broken further on,
    or the stream ends after [consumed] bytes with [out] produced. Bytes
    after the stream are not read ([bytes.Reader] is an [io.ByteReader],
    so the reader takes no byte beyond the stream's checksum). *)
Inductive zresult : Type :=
  | ZHeaderError
  | ZDataError
  | ZDone (out : list byte) (consumed : nat).

Class Zlib : Type := {
  deflate : list byte -> list byte;
  inflate : list byte -> zresult
}.

(** The contract of the library: what the writer produces, the reader
    gives back, and it stops at the end of the stream. *)
Class ZlibLaws (Z : Zlib) : Prop := {
  inflate_deflate : forall data rest,
    inflate (deflate data ++ rest) = ZDone data (length (deflate data))
}.

(** ** Data of the program *)

(* all object types *)
Definition OBJ_COMMIT : Z := 1.
Definition OBJ_TREE : Z := 2.
Definition OBJ_BLOB : Z := 3.
Definition OBJ_TAG : Z := 4.
Definition OBJ_OFS_DELTA : Z := 6.
Definition OBJ_REF_DELTA : Z := 7.

(* all object types i need *)
Definition objTypeNames : gmap Z string :=
  list_to_map
    [ (OBJ_COMMIT, "commit"%string);
      (OBJ_TREE, "tree"%string);
      (OBJ_BLOB, "blob"%string);
      (OBJ_REF_DELTA, "ref_delta"%string) ].

Record Delta : Type := { hash : string; data : list byte }.

Definition INST_TYPE_ADD : Z := 0.
Definition INST_TYPE_COPY : Z := 1.

Record Instruction : Type := {
  instType : Z;
  instSize : Z;
  instOffset : Z;
  instData : list byte
}.

(** ** Varint-B: [parseVarInt] *)

(** The loop of [parseVarInt] on the unread bytes [data[off:]]; [shift] is
    an [int8] and stays below 70. *)
Fixpoint parseVarIntLoop (rest : list byte) (shift off value : Z)
  : outcome (Z * Z) :=
  match rest with
  | [] => Err (EVarIntEnd off)
  | byt :: rest' =>
      let off := off + 1 in
      if 60 <? shift then Err (EVarIntTooLarge (off - 1))
      else
        let value := Z.lor value (shl64 (Z.land (b2z byt) 0x7F) shift) in
        let shift := shift + 7 in
        if Z.land (b2z byt) 0x80 =? 0 then Ok (value, off)
        else parseVarIntLoop rest' shift off value
  end.

Definition parseVarInt (data : list byte) : outcome (Z * Z) :=
  parseVarIntLoop data 0 0 0.

(** ** Varint-A: the size of an object record *)

(** The tail loop of the size decoder in [parsePackfile], final revision:
    [objSize |= int64(byt&0x7F) << shift]. It returns the size, the cursor
    and the unread bytes. *)
Fixpoint sizeTail (rest : list byte) (shift off objSize : Z)
  : outcome (Z * Z * list byte) :=
  match rest with
  | [] => Err (EUnexpectedEnd off)
  | byt :: rest' =>
      let off := off + 1 in
      if 60 <? shift then Err (ESizeTooLarge (off - 1))
      else
        let objSize := Z.lor objSize (shl64 (Z.land (b2z byt) 0x7F) shift) in
        let shift := shift + 7 in
        if Z.land (b2z byt) 0x80 =? 0 then Ok (objSize, off, rest')
        else sizeTail rest' shift off objSize
  end.

Definition decodeSize (byt : byte) (rest : list byte) (off : Z)
  : outcome (Z * Z * list byte) :=
  let objSize := Z.land (b2z byt) 0xF in
  let shift := 4 in
  if negb (Z.land (b2z byt) 0x80 =? 0) then sizeTail rest shift off objSize
  else Ok (objSize, off, rest).

(** The same loop in the earlier revision of [parsePackfile]:
    [objSize += int64(byt&0x7F) << shift]. *)
Fixpoint sizeTail_add (rest : list byte) (shift off objSize : Z)
  : outcome (Z * Z * list byte) :=
  match rest with
  | [] => Err (EUnexpectedEnd off)
  | byt :: rest' =>
      let off := off + 1 in
      if 60 <? shift then Err (ESizeTooLarge (off - 1))
      else
        let objSize := add64 objSize (shl64 (Z.land (b2z byt) 0x7F) shift) in
        let shift := shift + 7 in
        if Z.land (b2z byt) 0x80 =? 0 then Ok (objSize, off, rest')
        else sizeTail_add rest' shift off objSize
  end.

Definition decodeSize_add (byt : byte) (rest : list byte) (off : Z)
  : outcome (Z * Z * list byte) :=
  let objSize := Z.land (b2z byt) 0xF in
  let shift := 4 in
  if negb (Z.land (b2z byt) 0x80 =? 0) then sizeTail_add rest shift off objSize
  else Ok (objSize, off, rest).

(** ** The checksum and the header of a pack *)

Definition getObjectsCount (pack : list byte) : outcome Z :=
  if len pack <? 12 then Err (EPackTooShort (len pack))
  else if negb (bool_decide (take 4 pack = str2bytes "PACK")) then Err EBadMagic
  else Ok (be_uint (take 4 (drop 8 pack))).

Definition verifyChecksum (pack : list byte) : bool :=
  let packLen := length pack in
  if (packLen <? 20)%nat then false
  else
    let expectedChecksum := drop (packLen - 20) pack in
    let calculatedChecksum := sha1 (take (packLen - 20) pack) in
    bool_decide (expectedChecksum = calculatedChecksum).

(** ** The delta instruction stream: [parseInstructions] *)

(** The two operand loops of a copy instruction: for each [i] of [idx] whose
    bit is set in [bits], the next byte of the stream is or-ed in at bit
    [8*i]. [data[off]] beyond the end is an index out of range. *)
Fixpoint readOperand (idx : list Z) (bits : Z) (rest : list byte) (off acc : Z)
  : outcome (Z * Z * list byte) :=
  match idx with
  | [] => Ok (acc, off, rest)
  | i :: idx' =>
      if negb (Z.land bits (Z.shiftl 1 i) =? 0) then
        match rest with
        | [] => Fault
        | b :: rest' =>
            readOperand idx' bits rest' (off + 1)
              (Z.lor acc (Z.shiftl (b2z b) (8 * i)))
        end
      else readOperand idx' bits rest off acc
  end.

(** One turn of the loop of [parseInstructions], at opcode [byt] with the
    cursor already past it. *)
Definition parseInstruction (byt : byte) (rest : list byte) (off : Z)
  : outcome (Instruction * Z * list byte) :=
  if negb (Z.land (b2z byt) 0x80 =? 0) then
    let sizeBits := Z.land (Z.shiftr (b2z byt) 4) 0x7 in
    let offsetBits := Z.land (b2z byt) 0xF in
    do (offset, off, rest) <- readOperand [0; 1; 2; 3] offsetBits rest off 0;
    do (size, off, rest) <- readOperand [0; 1; 2] sizeBits rest off 0;
    let size := if size =? 0 then 0x10000 else size in
    Ok ({| instType := INST_TYPE_COPY; instSize := size;
           instOffset := offset; instData := [] |}, off, rest)
  else
    let size := Z.land (b2z byt) 0x7F in
    if len rest <? size then Fault
    else
      Ok ({| instType := INST_TYPE_ADD; instSize := size; instOffset := 0;
             instData := take (Z.to_nat size) rest |},
          off + size, drop (Z.to_nat size) rest).

(** The loop [for off < len(data)]; every turn takes at least the opcode,
    so [length rest] turns are enough ([parseInstructionsLoop_fuel]). *)
Fixpoint parseInstructionsLoop (fuel : nat) (rest : list byte) (off : Z)
    (insts : list Instruction) : outcome (list Instruction * Z) :=
  match rest with
  | [] => Ok (insts, off)
  | byt :: rest' =>
      match fuel with
      | O => Fault
      | S fuel' =>
          do (inst, off, rest) <- parseInstruction byt rest' (off + 1);
          parseInstructionsLoop fuel' rest off (insts ++ [inst])
      end
  end.

Definition parseInstructions (data : list byte)
  : outcome (list Instruction * Z) :=
  parseInstructionsLoop (length data) data 0 [].

(** ** The program over a zlib implementation *)

Section Program.

Context {zl : Zlib}.

Definition compressBytes (data : list byte) : list byte := deflate data.

Definition decompressBytes (data : list byte) : outcome (list byte) :=
  match inflate data with
  | ZHeaderError => Err EZlibHeader
  | ZDataError => Err EZlibData
  | ZDone out _ => Ok out
  end.

(** [filepath.Join] of two elements that are plain names, as the hex
    digits of a hash are: no separator and no dot element to clean. *)
Definition pathJoin (a b : string) : string := (a ++ "/" ++ b)%string.

(** [hash[:2]] and [hash[2:]] *)
Definition shard (hash : string) : string := substring 0 2 hash.
Definition tail (hash : string) : string :=
  substring 2 (String.length hash - 2) hash.

Definition objectPath (hash : string) : string :=
  pathJoin (pathJoin ".git/objects" (shard hash)) (tail hash).

(** The object format is: <type> <size>\0<content> *)
Definition writeObject (content : list byte) (objType : string) : M unit :=
  fun st =>
    let size := length content in
    let header := (objType ++ " " ++ decimal size)%string in
    let objContent := str2bytes header ++ ["000"%byte] ++ content in
    let hash := hexEncode (sha1 objContent) in
    let objDirPath := pathJoin ".git/objects" (shard hash) in
    let objPath := pathJoin objDirPath (tail hash) in
    let objContent := compressBytes objContent in
    (<[objPath := objContent]> st, Ok tt).

Definition readObject (hash : string) : M (list byte * string) :=
  fun st =>
    if (String.length hash <? 2)%nat then (st, Fault)
    else
      let objPath := objectPath hash in
      (st,
       match st !! objPath with
       | None => Err (EReadFile objPath)
       | Some objContent =>
           do objContent <- wrap EDecompress (decompressBytes objContent);
           match indexByte objContent "000"%byte with
           | None => Err (ENoNull objPath)
           | Some nullIdx =>
               let header := take nullIdx objContent in
               let content := drop (S nullIdx) objContent in
               match indexByte header " "%byte with
               | None => Err (ENoSpace objPath)
               | Some spaceIdx =>
                   let objType := bytes2str (take spaceIdx header) in
                   match Atoi (bytes2str (drop (S spaceIdx) header)) with
                   | None => Err EInvalidSize
                   | Some size =>
                       if negb (size =? len content) then
                         Err (ESizeMismatch size (len content))
                       else Ok (content, objType)
                   end
               end
           end
       end).

(** *** The bundle decoder: [parsePackfile] *)

(** One turn of the loop over the object records, on the unread bytes
    [pack[off:]]. *)
Definition parseRecord (rest : list byte) (off : Z) (deltas : list Delta)
  : M (list byte * Z * list Delta) :=
  match rest with
  | [] => lift (Err (EUnexpectedEnd off))
  | byt :: rest =>
      let off := off + 1 in
      let objType := Z.land (Z.shiftr (b2z byt) 4) 0x7 in
      match objTypeNames !! objType with
      | None => lift (Err (EBadObjectType objType))
      | Some name =>
          let* (objSize, off, rest) := lift (decodeSize byt rest off) in
          let* (refDeltaHash, off, rest) :=
            lift (if objType =? OBJ_REF_DELTA then
                    if len rest <? 20 then Err ERefDeltaHashEnd
                    else Ok (take 20 rest, off + 20, drop 20 rest)
                  else Ok ([], off, rest)) in
          if bool_decide (rest = []) then lift (Err (EUnexpectedEnd off))
          else
            match inflate rest with
            | ZHeaderError => lift (Err EZlibNewReader)
            | ZDataError => lift (Err EReadAll)
            | ZDone raw consumed =>
                if negb (len raw =? objSize) then
                  lift (Err (EObjSizeMismatch objSize (len raw)))
                else
                  let off := off + Z.of_nat consumed in
                  let rest := drop consumed rest in
                  if objType =? OBJ_REF_DELTA then
                    ret (rest, off,
                         deltas ++ [{| hash := hexEncode refDeltaHash;
                                       data := raw |}])
                  else
                    let* _ := writeObject raw name in
                    ret (rest, off, deltas)
            end
      end
  end.

Fixpoint parseRecords (n : nat) (rest : list byte) (off : Z)
    (deltas : list Delta) : M (list Delta) :=
  match n with
  | O => ret deltas
  | S n' =>
      let* (rest, off, deltas) := parseRecord rest off deltas in
      parseRecords n' rest off deltas
  end.

Definition parsePackfile (pack : list byte) : M (list Delta) :=
  if negb (verifyChecksum pack) then lift (Err EChecksum)
  else
    let* objsCount := lift (getObjectsCount pack) in
    (* skip pack header and checksum: pack[12 : len(pack)-20] *)
    if len pack - 20 <? 12 then lift Fault
    else
      let pack := drop 12 (take (length pack - 20) pack) in
      parseRecords (Z.to_nat objsCount) pack 0 [].

(** *** The delta resolver: [processRefDeltaObjs] *)

(** The body of the loop over the instructions. *)
Definition applyInstruction (srcContent trgContent : list byte)
    (inst : Instruction) : outcome (list byte) :=
  if instType inst =? INST_TYPE_COPY then
    let stop := add64 (instOffset inst) (instSize inst) in
    if len srcContent <? stop then Err ECopyRange
    else if (instOffset inst <? 0) || (stop <? instOffset inst) then Fault
    else
      Ok (trgContent
            ++ drop (Z.to_nat (instOffset inst))
                 (take (Z.to_nat stop) srcContent))
  else if negb (instSize inst =? len (instData inst)) then Err EInsertSize
  else Ok (trgContent ++ instData inst).

Fixpoint applyInstructions (srcContent trgContent : list byte)
    (insts : list Instruction) : outcome (list byte) :=
  match insts with
  | [] => Ok trgContent
  | inst :: insts' =>
      do trgContent <- applyInstruction srcContent trgContent inst;
      applyInstructions srcContent trgContent insts'
  end.

(** The body of the loop over the deltas. *)
Definition resolveDelta (d : Delta) : M unit :=
  let off := 0 in
  let* (srcSize, read) :=
    lift (wrap EDeltaSrcSize
            (parseVarInt (drop (Z.to_nat off) (data d)))) in
  let off := off + read in
  let* (trgSize, read) :=
    lift (wrap EDeltaTrgSize
            (parseVarInt (drop (Z.to_nat off) (data d)))) in
  let off := off + read in
  let* (srcContent, objType) := readObject (hash d) in
  if negb (len srcContent =? srcSize) then
    lift (Err (ESrcSizeMismatch srcSize (len srcContent)))
  else
    let* (insts, read) :=
      lift (parseInstructions (drop (Z.to_nat off) (data d))) in
    let* trgContent := lift (applyInstructions srcContent [] insts) in
    if negb (len trgContent =? trgSize) then
      lift (Err (ETrgSizeMismatch trgSize (len trgContent)))
    else writeObject trgContent objType.

Fixpoint processRefDeltaObjs (deltas : list Delta) : M unit :=
  match deltas with
  | [] => ret tt
  | d :: deltas' =>
      let* _ := resolveDelta d in
      processRefDeltaObjs deltas'
  end.

End Program.

(** The program of [main] after the fetch: decode, then resolve. *)
Definition unpack {zl : Zlib} (pack : list byte) : M unit :=
  let* deltas := parsePackfile pack in
  processRefDeltaObjs deltas.

(** What resolving the delta [d] against the store [st] gives, when it
    gives something: the two sizes of the header parse, the base is read
    from the store with the first size, and the instructions make of it a
    target of the second size; the target has the kind of the base. *)
Definition resolvesTo {zl : Zlib} (st : store) (d : Delta)
    (objType : string) (trgContent : list byte) : Prop :=
  exists srcSize n trgSize m r srcContent insts,
    parseVarInt (data d) = Ok (srcSize, n)
    /\ parseVarInt (drop (Z.to_nat n) (data d)) = Ok (trgSize, m)
    /\ readObject (hash d) st = (st, Ok (srcContent, objType))
    /\ len srcContent = srcSize
    /\ parseInstructions (drop (Z.to_nat (n + m)) (data d)) = Ok (insts, r)
    /\ applyInstructions srcContent [] insts = Ok trgContent
    /\ len trgContent = trgSize.

(** ** The earlier revision of the bundle decoder

    [parsePackfile] as the file has it first (lines 124 to 220): it checks
    the records and writes nothing. The size is decoded with [+=]; after
    the size of a ref-delta the cursor moves on by 20 with no check, so
    that [pack[off:]] is out of range when fewer than 20 bytes are left;
    and the stream is opened without a look at what is left of the pack.
    What it prints is not modelled. *)

Module Earlier.

Section Program.

Context {zl : Zlib}.

Definition parseRecord (rest : list byte) (off : Z)
  : outcome (list byte * Z) :=
  match rest with
  | [] => Err (EUnexpectedEnd off)
  | byt :: rest =>
      let off := off + 1 in
      let objType := Z.land (Z.shiftr (b2z byt) 4) 0x7 in
      match objTypeNames !! objType with
      | None => Err (EBadObjectType objType)
      | Some _ =>
          do (objSize, off, rest) <- decodeSize_add byt rest off;
          do (off, rest) <-
            (if objType =? OBJ_REF_DELTA then
               if len rest <? 20 then Fault
               else Ok (off + 20, drop 20 rest)
             else Ok (off, rest));
          match inflate rest with
          | ZHeaderError => Err EZlibNewReader
          | ZDataError => Err EReadAll
          | ZDone raw consumed =>
              if negb (len raw =? objSize) then
                Err (EObjSizeMismatch objSize (len raw))
              else Ok (drop consumed rest, off + Z.of_nat consumed)
          end
      end
  end.

Fixpoint parseRecords (n : nat) (rest : list byte) (off : Z) : outcome unit :=
  match n with
  | O => Ok tt
  | S n' =>
      do (rest, off) <- parseRecord rest off;
      parseRecords n' rest off
  end.

Definition parsePackfile (pack : list byte) : outcome unit :=
  if negb (verifyChecksum pack) then Err EChecksum
  else
    do objsCount <- getObjectsCount pack;
    (* skip pack header and checksum *)
    if len pack - 20 <? 12 then Fault
    else
      let pack := drop 12 (take (length pack - 20) pack) in
      parseRecords (Z.to_nat objsCount) pack 0.

End Program.

End Earlier.

(** ** The library functions of the fetch *)

(** [strings.Split(s, sep)] for a separator of one byte, as are the three
    separators of the program (line feed, space and slash). *)
Fixpoint Split (s : list byte) (sep : byte) : list (list byte) :=
  match s with
  | [] => [[]]
  | c :: s' =>
      if decide (c = sep) then [] :: Split s' sep
      else
        match Split s' sep with
        | w :: ws => (c :: w) :: ws
        | [] => [[c]]
        end
  end.

(** [strings.HasPrefix], [strings.Contains] and [strings.HasSuffix] *)
Fixpoint HasPrefix (s prefix : list byte) {struct prefix} : bool :=
  match prefix, s with
  | [], _ => true
  | p :: prefix', c :: s' => bool_decide (c = p) && HasPrefix s' prefix'
  | _ :: _, [] => false
  end.

Fixpoint Contains (s substr : list byte) : bool :=
  HasPrefix s substr
  || match s with
     | [] => false
     | _ :: s' => Contains s' substr
     end.

Definition HasSuffix (s suffix : list byte) : bool :=
  (length suffix <=? length s)%nat
  && bool_decide (drop (length s - length suffix) s = suffix).

(** [utf8.DecodeRuneInString]: the rune at the start of a string and its
    width in bytes; a byte that starts no well-formed sequence is the rune
    [RuneError], of width 1. *)
Definition RuneError : Z := 0xFFFD.

Definition DecodeRune (s : list byte) : Z * nat :=
  let continuation b := (0x80 <=? b) && (b <=? 0xBF) in
  match map b2z (take 4 s) with
  | [] => (RuneError, 0%nat)
  | s0 :: tl =>
      if s0 <? 0x80 then (s0, 1%nat)
      else if (s0 <? 0xC2) || (0xF4 <? s0) then (RuneError, 1%nat)
      else
        let sz := if s0 <? 0xE0 then 2 else if s0 <? 0xF0 then 3 else 4 in
        let lo :=
          if s0 =? 0xE0 then 0xA0 else if s0 =? 0xF0 then 0x90 else 0x80 in
        let hi :=
          if s0 =? 0xED then 0x9F else if s0 =? 0xF4 then 0x8F else 0xBF in
        match tl with
        | [] => (RuneError, 1%nat)
        | s1 :: tl =>
            if (s1 <? lo) || (hi <? s1) then (RuneError, 1%nat)
            else if sz <=? 2 then
              (Z.lor (Z.shiftl (Z.land s0 0x1F) 6) (Z.land s1 0x3F), 2%nat)
            else
              match tl with
              | [] => (RuneError, 1%nat)
              | s2 :: tl =>
                  if negb (continuation s2) then (RuneError, 1%nat)
                  else if sz <=? 3 then
                    (Z.lor (Z.lor (Z.shiftl (Z.land s0 0x0F) 12)
                                  (Z.shiftl (Z.land s1 0x3F) 6))
                           (Z.land s2 0x3F), 3%nat)
                  else
                    match tl with
                    | [] => (RuneError, 1%nat)
                    | s3 :: _ =>
                        if negb (continuation s3) then (RuneError, 1%nat)
                        else
                          (Z.lor (Z.lor (Z.lor (Z.shiftl (Z.land s0 0x07) 18)
                                               (Z.shiftl (Z.land s1 0x3F) 12))
                                        (Z.shiftl (Z.land s2 0x3F) 6))
                                 (Z.land s3 0x3F), 4%nat)
                    end
              end
        end
  end.

(** [unicode.IsSpace] *)
Definition IsSpace (r : Z) : bool :=
  if r <=? 0xFF then
    bool_decide (r ∈ [0x09; 0x0A; 0x0B; 0x0C; 0x0D; 0x20; 0x85; 0xA0])
  else
    bool_decide (r = 0x1680) || ((0x2000 <=? r) && (r <=? 0x200A))
    || bool_decide (r ∈ [0x2028; 0x2029; 0x202F; 0x205F; 0x3000]).

(** [strings.Fields]: the maximal runs of runes that are not white space.
    [pending] bytes of the rune decoded last are still to pass, into the
    field [cur] when [keep] holds. *)
Fixpoint FieldsFrom (s : list byte) (pending : nat) (keep : bool)
    (cur : list byte) : list (list byte) :=
  match s with
  | [] => if bool_decide (cur = []) then [] else [cur]
  | c :: s' =>
      match pending with
      | S pending' =>
          FieldsFrom s' pending' keep (if keep then cur ++ [c] else cur)
      | O =>
          let '(r, w) := DecodeRune s in
          if IsSpace r then
            (if bool_decide (cur = []) then [] else [cur])
              ++ FieldsFrom s' (w - 1) false []
          else FieldsFrom s' (w - 1) true (cur ++ [c])
      end
  end.

Definition Fields (s : list byte) : list (list byte) := FieldsFrom s 0 false [].

(** The line feed, as a string. *)
Definition nl : string := String "010"%char EmptyString.

(** What a request of [net/http] comes to: the request cannot be made,
    nothing comes back, or a response comes back with its status code and
    its body, which [io.ReadAll] reads or fails to read. *)
Inductive reply : Type :=
  | BadRequest
  | NoReply
  | Reply (StatusCode : Z) (Body : option (list byte)).

(** The two requests of the program: [http.Get] of a URL, and the POST of a
    body to a URL under a content type. *)
Class Http : Type := {
  httpGet : string -> reply;
  httpPost : string -> string -> list byte -> reply
}.

(** One constructor for each [fmt.Errorf] of the fetch. *)
Inductive fetchError : Type :=
  | FGet (url : string)            (* failed to perform GET request to %s: %w *)
  | FStatus (code : Z) (url : string)
      (* unexpected status code %d while fetching %s *)
  | FReadBody (url : string)       (* failed to read response body from %s: %w *)
  | FNoBranch                      (* Default branch hash not found *)
  | FNewRequest                    (* ERROR from http.NewRequest: %v *)
  | FDo                            (* ERROR from client.Do: %v *)
  | FReadAll                       (* ERROR from io.ReadAll: %v *)
  | FShort (n : Z)                 (* response body too short: %d bytes *)
  | FNoNAK (got : list byte).      (* missing NAK, got %q *)

Inductive fetched (A : Type) : Type :=
  | Got (a : A)
  | Failed (e : fetchError).
Arguments Got {A} a.
Arguments Failed {A} e.

(** ** The fetch: [getMainHash] and [getPackfile] *)

(** The body of the loop over the words of a line. *)
Definition branchOfWord (defaultBranch w : list byte) : list byte :=
  if Contains w (str2bytes "HEAD:refs/heads") then
    let parts := Split w "/"%byte in
    match parts with
    | _ :: _ :: part2 :: _ => part2
    | _ => defaultBranch
    end
  else defaultBranch.

(** The loop over the lines of the advertisement. *)
Fixpoint scanLines (defaultBranch : list byte) (lines : list (list byte))
  : fetched (string * string) :=
  match lines with
  | [] => Failed FNoBranch
  | line :: lines' =>
      if bool_decide (defaultBranch = []) then
        let words := Split line " "%byte in
        scanLines (foldl branchOfWord defaultBranch words) lines'
      else if HasSuffix line (str2bytes "refs/heads/" ++ defaultBranch) then
        match Fields line with
        | field0 :: _ =>
            if 4 <? len field0 then
              Got (bytes2str (drop 4 field0), bytes2str defaultBranch)
            else scanLines defaultBranch lines'
        | [] => scanLines defaultBranch lines'
        end
      else scanLines defaultBranch lines'
  end.

Definition getMainHash {http : Http} (repoURL : string)
  : fetched (string * string) :=
  let refsURL := (repoURL ++ "/info/refs?service=git-upload-pack")%string in
  match httpGet refsURL with
  | BadRequest | NoReply => Failed (FGet refsURL)
  | Reply StatusCode Body =>
      if 400 <=? StatusCode then Failed (FStatus StatusCode refsURL)
      else
        match Body with
        | None => Failed (FReadBody refsURL)
        | Some body => scanLines [] (Split body "010"%byte)
        end
  end.

Definition reqBody (mainHash : string) : list byte :=
  str2bytes (("0032want " ++ mainHash ++ nl) ++ "0000" ++ "0009done" ++ nl).

Definition getPackfile {http : Http} (repoURL mainHash : string)
  : fetched (list byte) :=
  let fetchURL := (repoURL ++ "/git-upload-pack")%string in
  match httpPost fetchURL "application/x-git-upload-pack-request"
          (reqBody mainHash) with
  | BadRequest => Failed FNewRequest
  | NoReply => Failed FDo
  | Reply _ None => Failed FReadAll
  | Reply _ (Some body) =>
      if len body <? 8 then Failed (FShort (len body))
      else if negb (bool_decide (take 3 (drop 4 body) = str2bytes "NAK")) then
        Failed (FNoNAK (take 3 (drop 4 body)))
      else Got (drop 8 body)
  end.

(** ** The repository: [initRepo] and [main] *)


Definition initRepo (mainHash defaultBranch : string) : M unit :=
  fun st =>
    let headPath := pathJoin ".git" "HEAD" in
    let headContent :=
      str2bytes ("ref: refs/heads/" ++ defaultBranch ++ nl)%string in
    let st := <[headPath := headContent]> st in
    let branchPath :=
      pathJoin (pathJoin (pathJoin ".git" "refs") "heads") defaultBranch in
    let branchContent := str2bytes (mainHash ++ nl)%string in
    (<[branchPath := branchContent]> st, Ok tt).

(** How [main] ends: it returns, or it prints an error of the fetch or of
    the decoder and exits with status 1, or it panics. *)
Inductive exit : Type :=
  | Exit0
  | ExitFetch (e : fetchError)
  | ExitError (e : error)
  | Panic.

(** [main] from the directory it has changed to, whose files are the
    store. *)
Definition main {zl : Zlib} {http : Http} (repoURL : string)
  : store -> store * exit :=
  fun st =>
    match getMainHash repoURL with
    | Failed e => (st, ExitFetch e)
    | Got (mainHash, defaultBranch) =>
        match getPackfile repoURL mainHash with
        | Failed e => (st, ExitFetch e)
        | Got pack =>
            match (let* _ := initRepo mainHash defaultBranch in
                   let* deltas := parsePackfile pack in
                   processRefDeltaObjs deltas) st with
            | (st, Ok _) => (st, Exit0)
            | (st, Err e) => (st, ExitError e)
            | (st, Fault) => (st, Panic)
            end
        end
    end.

(** ** A zlib implementation: stored blocks

    The zlib container (RFC 1950) around deflate blocks of the stored kind
    (RFC 1951, 3.2.4). The writer emits only stored blocks; every zlib
    reader, Go's included, reads such a stream back. The reader here
    follows Go's on streams of stored blocks and reports a block coded
    with Huffman codes as a data error: it is the implementation at which
    the program is run on concrete packs, all of which use stored blocks. *)

Module Stored.

Definition adler32 (data : list byte) : Z :=
  let '(a, b) :=
    fold_left
      (fun '(a, b) x =>
         let a' := (a + b2z x) mod 65521 in (a', (b + a') mod 65521))
      data (1, 0) in
  b * 65536 + a.

Definition le16 (n : Z) : list byte := [z2b n; z2b (Z.shiftr n 8)].

Definition block (final : bool) (chunk : list byte) : list byte :=
  [if final then "001"%byte else "000"%byte]
    ++ le16 (len chunk) ++ le16 (65535 - len chunk) ++ chunk.

(** The longest chunk a stored block holds. *)
Definition maxStored : nat := Z.to_nat 65535.

Fixpoint blocks (fuel : nat) (data : list byte) : list byte :=
  match fuel with
  | O => block true data
  | S fuel' =>
      if len data <=? 65535 then block true data
      else block false (take maxStored data)
             ++ blocks fuel' (drop maxStored data)
  end.

Definition write (data : list byte) : list byte :=
  ["120"%byte; "001"%byte] ++ blocks (length data) data
    ++ be_bytes 4 (adler32 data).

(** The blocks of a stream: the output, the bytes read and what follows. *)
Fixpoint readBlocks (fuel : nat) (rest out : list byte) (consumed : nat)
  : option (list byte * nat * list byte) :=
  match fuel with
  | O => None
  | S fuel' =>
      match rest with
      | hd :: l0 :: l1 :: n0 :: n1 :: rest' =>
          let n := b2z l0 + 256 * b2z l1 in
          let nn := b2z n0 + 256 * b2z n1 in
          if negb (Z.land (Z.shiftr (b2z hd) 1) 3 =? 0) then None
          else if negb (nn =? 65535 - n) then None
          else if len rest' <? n then None
          else
            let out := out ++ take (Z.to_nat n) rest' in
            let consumed := (consumed + 5 + Z.to_nat n)%nat in
            if Z.land (b2z hd) 1 =? 1 then
              Some (out, consumed, drop (Z.to_nat n) rest')
            else readBlocks fuel' (drop (Z.to_nat n) rest') out consumed
      | _ => None
      end
  end.

Definition read (data : list byte) : zresult :=
  match data with
  | cmf :: flg :: rest =>
      if negb (Z.land (b2z cmf) 0x0F =? 8)
         || (0x70 <? Z.land (b2z cmf) 0xF0)
         || negb ((b2z cmf * 256 + b2z flg) mod 31 =? 0)
         || negb (Z.land (b2z flg) 0x20 =? 0)
      then ZHeaderError
      else
        match readBlocks (length rest) rest [] 2 with
        | Some (out, consumed, c0 :: c1 :: c2 :: c3 :: _) =>
            if be_uint [c0; c1; c2; c3] =? adler32 out then
              ZDone out (consumed + 4)
            else ZDataError
        | _ => ZDataError
        end
  | _ => ZHeaderError
  end.

Definition zlib : Zlib := {| deflate := write; inflate := read |}.

End Stored.

(** ** The formats, as the specification describes them

    The canonical serialization of an object, the operands of a copy
    instruction and the wire format of a bundle, written out: what the
    decoders of the program are compared with. *)

(** The canonical serialization of an object: the bytes an OID is the
    SHA-1 of. *)
Definition frame (kind : string) (payload : list byte) : list byte :=
  str2bytes (kind ++ " " ++ decimal (length payload))%string
    ++ ["000"%byte] ++ payload.

Definition oid (kind : string) (payload : list byte) : list byte :=
  sha1 (frame kind payload).

(** A kind as it can stand in a header: a name without NUL and without
    space, as are commit, tree, blob and tag. *)
Definition kindName (kind : string) : Prop :=
  ("000"%byte ∉ str2bytes kind) /\ (" "%byte ∉ str2bytes kind).

(** *** The operands of a copy instruction, as the format describes them *)

(** The positions of [positions] at which [present] holds. *)
Definition selected (present : Z -> bool) (positions : list Z) : list Z :=
  filter (fun i => present i = true) positions.

(** The bytes [bs], one for each position, each placed at 8 times its
    position: a little-endian number with the absent bytes zero. *)
Fixpoint assemble (positions : list Z) (bs : list byte) : Z :=
  match positions, bs with
  | i :: positions', b :: bs' => b2z b * 2 ^ (8 * i) + assemble positions' bs'
  | _, _ => 0
  end.

(** Every position is at least [lo], and they increase. *)
Fixpoint increasingFrom (lo : Z) (positions : list Z) : Prop :=
  match positions with
  | [] => True
  | i :: positions' => lo <= i /\ increasingFrom (i + 1) positions'
  end.

(** The instruction [parseInstructions] makes of an insert of the literal
    bytes [lit]. *)
Definition insertOf (lit : list byte) : Instruction :=
  {| instType := INST_TYPE_ADD; instSize := len lit; instOffset := 0;
     instData := lit |}.

(** A byte sequence followed by its SHA-1: what a pack is, whatever the
    sequence holds. *)
Definition seal (content : list byte) : list byte := content ++ sha1 content.

(** *** The wire format of a bundle, written out *)

(** The records of a bundle: a full object of some type, or a ref-delta on
    a base named by its 20-byte OID. *)
Inductive record : Type :=
  | Full (type : Z) (payload : list byte)
  | RefDelta (base : list byte) (delta : list byte).

(** Varint-A: the bytes after the first one, seven bits each, the low ones
    first, the top bit set on all but the last. *)
Fixpoint sizeTailBytes (fuel : nat) (n : Z) : list byte :=
  match fuel with
  | O => [z2b n]
  | S fuel' =>
      if n <? 128 then [z2b n]
      else z2b (128 + n mod 128) :: sizeTailBytes fuel' (n / 128)
  end.

(** The header of a record: continuation bit, three bits of type, the low
    four bits of the size, then the rest of the size. *)
Definition recordHeader (type size : Z) : list byte :=
  if size <? 16 then [z2b (type * 16 + size)]
  else z2b (128 + type * 16 + size mod 16) :: sizeTailBytes 9 (size / 16).

Definition encodeRecord {zl : Zlib} (r : record) : list byte :=
  match r with
  | Full type payload => recordHeader type (len payload) ++ deflate payload
  | RefDelta base delta =>
      recordHeader OBJ_REF_DELTA (len delta) ++ base ++ deflate delta
  end.

Definition encodeBundle {zl : Zlib} (version : Z) (records : list record)
  : list byte :=
  seal (str2bytes "PACK" ++ be_bytes 4 version ++ be_bytes 4 (len records)
          ++ concat (map encodeRecord records)).

(** A record the format allows: a full object of type commit, tree or
    blob, or a ref-delta on a 20-byte OID; sizes are those of slices. *)
Definition wfRecord (r : record) : Prop :=
  match r with
  | Full type payload =>
      type ∈ [OBJ_COMMIT; OBJ_TREE; OBJ_BLOB] /\ len payload < 2 ^ 63
  | RefDelta base delta => length base = 20%nat /\ len delta < 2 ^ 63
  end.

(** What decoding the records does, in their order: the full objects are
    written, the ref-deltas listed. *)
Definition writeFull {zl : Zlib} (st : store) (r : record) : store :=
  match r with
  | Full type payload =>
      (writeObject payload (default ""%string (objTypeNames !! type)) st).1
  | RefDelta _ _ => st
  end.

Definition deltasOf (records : list record) : list Delta :=
  omap (fun r => match r with
                 | Full _ _ => None
                 | RefDelta base delta =>
                     Some {| hash := hexEncode base; data := delta |}
                 end) records.

(** *** More of the formats *)

(** Varint-B, written: seven bits a byte, the low ones first, the top bit
    set on all bytes but the last. *)
Definition encodeVarInt (n : Z) : list byte := sizeTailBytes 9 n.

(** A record whose header declares [size], whatever the length of what the
    record carries. *)
Definition encodeRecordAs {zl : Zlib} (size : Z) (r : record) : list byte :=
  match r with
  | Full type payload => recordHeader type size ++ deflate payload
  | RefDelta base delta =>
      recordHeader OBJ_REF_DELTA size ++ base ++ deflate delta
  end.

Definition carried (r : record) : list byte :=
  match r with
  | Full _ payload => payload
  | RefDelta _ delta => delta
  end.

(** No two full objects among the records have one OID and two
    serializations: SHA-1 does not collide on them. *)
Definition collisionFree (records : list record) : Prop :=
  forall t1 p1 t2 p2,
    Full t1 p1 ∈ records -> Full t2 p2 ∈ records ->
    let k1 := default ""%string (objTypeNames !! t1) in
    let k2 := default ""%string (objTypeNames !! t2) in
    oid k1 p1 = oid k2 p2 -> frame k1 p1 = frame k2 p2.

(** The instructions of a delta, as the format has them. *)
Inductive op : Type :=
  | OpCopy (offset size : Z)
  | OpInsert (lit : list byte).

(** Byte [i] of a number, counted from the least significant; a copy
    carries the bytes of its offset and of its size that are not zero. *)
Definition byteAt (z i : Z) : byte := z2b (Z.shiftr z (8 * i)).

Definition nonzero (z i : Z) : bool := negb (b2z (byteAt z i) =? 0).

Definition presenceBits (z : Z) (positions : list Z) : Z :=
  fold_right (fun i acc => (if nonzero z i then 2 ^ i else 0) + acc)
    0 positions.

Definition copyOpcode (offset size : Z) : Z :=
  0x80 + presenceBits offset [0; 1; 2; 3] + 16 * presenceBits size [0; 1; 2].

Definition encodeOp (o : op) : list byte :=
  match o with
  | OpCopy offset size =>
      z2b (copyOpcode offset size)
        :: map (byteAt offset) (selected (nonzero offset) [0; 1; 2; 3])
        ++ map (byteAt size) (selected (nonzero size) [0; 1; 2])
  | OpInsert lit => z2b (len lit) :: lit
  end.

Definition encodeDelta (srcSize trgSize : Z) (ops : list op) : list byte :=
  encodeVarInt srcSize ++ encodeVarInt trgSize ++ concat (map encodeOp ops).

(** An instruction the encoding has room for. *)
Definition wfOp (o : op) : Prop :=
  match o with
  | OpCopy offset size => 0 <= offset < 2 ^ 32 /\ 1 <= size < 2 ^ 24
  | OpInsert lit => len lit <= 127
  end.

Definition instructionOf (o : op) : Instruction :=
  match o with
  | OpCopy offset size =>
      {| instType := INST_TYPE_COPY; instSize := size; instOffset := offset;
         instData := [] |}
  | OpInsert lit => insertOf lit
  end.

(** What the instructions make of a base: the bytes each contributes, one
    after the other, or nothing when a copy reaches beyond the base. *)
Definition opBytes (src : list byte) (o : op) : option (list byte) :=
  match o with
  | OpCopy offset size =>
      if offset + size <=? len src then
        Some (take (Z.to_nat size) (drop (Z.to_nat offset) src))
      else None
  | OpInsert lit => Some lit
  end.

Fixpoint patch (src : list byte) (ops : list op) : option (list byte) :=
  match ops with
  | [] => Some []
  | o :: ops' =>
      match opBytes src o with
      | Some bs => (fun out => bs ++ out) <$> patch src ops'
      | None => None
      end
  end.


(** *** The store, as the program leaves it *)

(** An object file: at the path of an OID, the compressed serialization
    the OID is the SHA-1 of. *)
Definition objectFile {zl : Zlib} (path : string) (file : list byte) : Prop :=
  exists kind payload,
    path = objectPath (hexEncode (oid kind payload))
    /\ file = deflate (frame kind payload).

(** [st'] is [st] with object files put in. *)
Definition addsObjects {zl : Zlib} (st st' : store) : Prop :=
  forall path,
    st' !! path = st !! path
    \/ exists file, st' !! path = Some file /\ objectFile path file.

(** The value of a hex digit, to read [hexEncode] back. *)
Definition hexVal (c : ascii) : Z :=
  match index 0 (String c EmptyString) "0123456789abcdef" with
  | Some i => Z.of_nat i
  | None => 0
  end.

(** *** The advertisement of the references *)

(** Pieces put together with a separator between them. *)
Fixpoint joinWith (sep : byte) (parts : list (list byte)) : list byte :=
  match parts with
  | [] => []
  | [p] => p
  | p :: parts' => p ++ sep :: joinWith sep parts'
  end.

(** A byte of ASCII above the space, as are the hex digits of a pkt-line
    length and of an OID: none of them is white space. *)
Definition plainByte (b : byte) : Prop := 0x20 < b2z b < 0x80.

(** ** Bundles and stores to run the program on *)

Module Bundles.

#[local] Existing Instance Stored.zlib.

Definition hi : list byte := str2bytes "hi".
Definition hello : list byte := str2bytes "hello".
Definition helloNl : list byte := hello ++ ["010"%byte].
Definition helloNlBang : list byte := helloNl ++ ["!"%byte].

(** base size 5, target size 6, copy(0, 5), insert of one byte (a line
    feed): from [hello] to [helloNl]. *)
Definition deltaNl : list byte :=
  ["005"; "006"; "144"; "005"; "001"; "010"]%byte.

(** base size 6, target size 7, copy(0, 6), insert of one byte (!):
    from [helloNl] to [helloNlBang]. *)
Definition deltaBang : list byte :=
  ["006"; "007"; "144"; "006"; "001"; "!"]%byte.

(** A self-contained bundle of three objects: the delta whose base is the
    target of the other delta comes first, the full object last. *)
Definition dependent : list byte :=
  encodeBundle 2 [ RefDelta (oid "blob" helloNl) deltaBang;
                   RefDelta (oid "blob" hello) deltaNl;
                   Full OBJ_BLOB hello ].

(** The same three records, each delta after the record of its base. *)
Definition ordered : list byte :=
  encodeBundle 2 [ Full OBJ_BLOB hello;
                   RefDelta (oid "blob" hello) deltaNl;
                   RefDelta (oid "blob" helloNl) deltaBang ].

(** One blob, in a bundle whose version field is 3. *)
Definition version3 : list byte := encodeBundle 3 [ Full OBJ_BLOB hi ].

(** One record of type 4 (tag), in a bundle of version 2. *)
Definition tagged : list byte := encodeBundle 2 [ Full OBJ_TAG hi ].

(** The store that holds exactly the given objects. *)
Definition storeOf (objects : list (string * list byte)) : store :=
  foldr (fun '(kind, payload) st =>
           (writeObject (zl := Stored.zlib) payload kind st).1)
        ∅ objects.

Definition deltaOn (base delta : list byte) : Delta :=
  {| hash := hexEncode base; data := delta |}.

(** base size 5, target size 6, copy(0, 5), opcode 0, insert of a line
    feed. *)
Definition deltaZero : list byte :=
  ["005"; "006"; "144"; "005"; "000"; "001"; "010"]%byte.

(** The bundle [version3] with the first byte of its record changed. *)
Definition broken : list byte := <[12%nat := "000"%byte]> version3.

(** An object file whose header names the kind foo. *)
Definition abc : list byte := str2bytes "abc".
Definition fooStore : store :=
  {[ objectPath (hexEncode (oid "foo" abc)) :=
       Stored.write (str2bytes "foo 3" ++ ["000"%byte] ++ abc) ]}.

End Bundles.

(** ** A server to run the fetch against *)

Module Servers.

Import Bundles.

(** The repository of the server: its URL, the commit of its default
    branch, and the lines of its advertisement, as a smart HTTP server
    sends them. *)
Definition url : string := "https://example.org/repo.git".

Definition tip : list byte :=
  str2bytes "b6fc4c620b67d95f953a5c1c1230aaab5db5a1b0".

Definition service : list byte := str2bytes "001e# service=git-upload-pack".

Definition capWords : list (list byte) :=
  [ str2bytes "00000153" ++ tip;
    str2bytes "HEAD" ++ ["000"%byte] ++ str2bytes "multi_ack";
    str2bytes "side-band-64k";
    str2bytes "symref=HEAD:refs/heads/main";
    str2bytes "agent=git/2.43.0" ].

Definition devLine : list byte :=
  str2bytes "003e" ++ tip ++ str2bytes " refs/heads/dev".

Definition mainLine : list byte :=
  str2bytes "003f" ++ tip ++ str2bytes " refs/heads/main".

Definition advertisement : list byte :=
  joinWith "010"%byte
    [service; joinWith " "%byte capWords; devLine; mainLine; str2bytes "0000"].

(** The server answers the two requests of a clone of [url], and only
    them: the advertisement, and for the request of [tip] the bundle
    [ordered] after the line 0008NAK. *)
Definition origin : Http := {|
  httpGet := fun u =>
    if decide (u = (url ++ "/info/refs?service=git-upload-pack")%string)
    then Reply 200 (Some advertisement)
    else Reply 404 (Some []);
  httpPost := fun u contentType body =>
    if decide (u = (url ++ "/git-upload-pack")%string)
    then
      if decide (body = reqBody (bytes2str tip))
      then Reply 200 (Some (str2bytes "0008NAK" ++ ["010"%byte] ++ ordered))
      else Reply 200 (Some (str2bytes "0000"))
    else Reply 404 (Some [])
|}.

(** The instructions of the delta [deltaNl]. *)
Definition opsNl : list op := [OpCopy 0 5; OpInsert ["010"%byte]].

End Servers.

(** * Properties *)

(** ** Bytes and 64-bit integers *)

Lemma b2z_range (b : byte) : 0 <= b2z b < 256.
Proof.
  unfold b2z. pose proof (Byte.to_N_bounded b) as Hb. lia.
Qed.

Lemma b2z_z2b (z : Z) : b2z (z2b z) = z mod 256.
Proof.
  unfold z2b, b2z.
  assert (Hr : 0 <= z mod 256 < 256) by (apply Z.mod_pos_bound; lia).
  destruct (Byte.of_N (Z.to_N (z mod 256))) as [b|] eqn:E.
  - apply Byte.to_of_N in E. rewrite E. lia.
  - apply Byte.of_N_None_iff in E. lia.
Qed.

Lemma be_uint_be_bytes4 (a : Z) (tail : list byte) :
  0 <= a < 2 ^ 32 ->
  exists c0 c1 c2 c3, be_bytes 4 a ++ tail = c0 :: c1 :: c2 :: c3 :: tail
                      /\ be_uint [c0; c1; c2; c3] = a.
Proof.
  intros Ha.
  exists (z2b (Z.shiftr a 24)), (z2b (Z.shiftr a 16)), (z2b (Z.shiftr a 8)),
    (z2b (Z.shiftr a 0)).
  split; [reflexivity |].
  unfold be_uint. cbn [fold_left]. rewrite !b2z_z2b.
  rewrite !Z.shiftr_div_pow2 by lia.
  change (2 ^ 24) with 16777216. change (2 ^ 16) with 65536.
  change (2 ^ 8) with 256. change (2 ^ 0) with 1.
  change (2 ^ 32) with 4294967296 in Ha.
  Z.div_mod_to_equations. lia.
Qed.

Lemma int64_small (z : Z) : - 2 ^ 63 <= z < 2 ^ 63 -> int64 z = z.
Proof.
  intros Hz. unfold int64. rewrite Z.mod_small; lia.
Qed.

Lemma int64_range (z : Z) : - 2 ^ 63 <= int64 z < 2 ^ 63.
Proof.
  unfold int64.
  assert (0 <= (z + 2 ^ 63) mod 2 ^ 64 < 2 ^ 64) by (apply Z.mod_pos_bound; lia).
  lia.
Qed.

Lemma land_7F_range (b : byte) : 0 <= Z.land (b2z b) 0x7F < 128.
Proof.
  pose proof (b2z_range b).
  change 0x7F with (Z.ones 7). rewrite Z.land_ones by lia.
  apply Z.mod_pos_bound. lia.
Qed.

Lemma land_0F_range (b : byte) : 0 <= Z.land (b2z b) 0xF < 16.
Proof.
  change 0xF with (Z.ones 4). rewrite Z.land_ones by lia.
  apply Z.mod_pos_bound. lia.
Qed.

(** Bits below [s] and a multiple of [2^s] do not meet: or-ing them is
    adding them. *)
Lemma lor_add_disjoint (a q s : Z) :
  0 <= s -> 0 <= a < 2 ^ s -> Z.lor a (q * 2 ^ s) = a + q * 2 ^ s.
Proof.
  intros Hs Ha.
  assert (Hland : Z.land a (q * 2 ^ s) = 0).
  { apply Z.bits_inj'. intros n Hn. rewrite Z.land_spec, Z.bits_0.
    destruct (Z.lt_ge_cases n s) as [Hlt | Hge].
    - rewrite Z.mul_pow2_bits_low by lia. apply andb_false_r.
    - rewrite <- (Z.mod_small a (2 ^ s)) by lia.
      rewrite Z.mod_pow2_bits_high by lia. reflexivity. }
  rewrite Z.add_nocarry_lxor by exact Hland.
  symmetry. apply Z.lxor_lor. exact Hland.
Qed.

(** A 7-bit value shifted within the 64-bit word. *)
Lemma shl64_multiple (x s : Z) :
  0 <= s <= 63 -> exists q, shl64 x s = q * 2 ^ s.
Proof.
  intros Hs. unfold shl64, int64. rewrite Z.shiftl_mul_pow2 by lia.
  assert (E : 2 ^ 64 = 2 ^ (64 - s) * 2 ^ s)
    by (rewrite <- Z.pow_add_r by lia; f_equal; lia).
  assert (E' : 2 ^ 63 = 2 ^ (63 - s) * 2 ^ s)
    by (rewrite <- Z.pow_add_r by lia; f_equal; lia).
  exists (x + 2 ^ (63 - s) - 2 ^ (64 - s) * ((x * 2 ^ s + 2 ^ 63) / 2 ^ 64)
            - 2 ^ (63 - s)).
  rewrite Z.mod_eq by lia. rewrite E at 1. rewrite E' at 1 3. ring.
Qed.

Lemma shl64_small (x s : Z) :
  0 <= s -> 0 <= x < 128 -> s + 7 <= 63 -> shl64 x s = x * 2 ^ s.
Proof.
  intros Hs Hx Hle. unfold shl64. rewrite Z.shiftl_mul_pow2 by lia.
  apply int64_small.
  assert (2 ^ s * 128 <= 2 ^ 63).
  { change 128 with (2 ^ 7). rewrite <- Z.pow_add_r by lia.
    apply Z.pow_le_mono_r; lia. }
  assert (0 < 2 ^ s) by (apply Z.pow_pos_nonneg; lia).
  nia.
Qed.

Lemma add64_lor (a x s : Z) :
  0 <= s <= 60 -> 0 <= a < 2 ^ s ->
  add64 a (shl64 x s) = Z.lor a (shl64 x s).
Proof.
  intros Hs Ha.
  pose proof (int64_range (Z.shiftl x s)) as Hw. fold (shl64 x s) in Hw.
  destruct (shl64_multiple x s) as [q Hq]; [lia |]. rewrite Hq in *.
  rewrite lor_add_disjoint by lia.
  unfold add64. apply int64_small.
  assert (E : 2 ^ 63 = 2 ^ (63 - s) * 2 ^ s)
    by (rewrite <- Z.pow_add_r by lia; f_equal; lia).
  assert (0 < 2 ^ s) by (apply Z.pow_pos_nonneg; lia).
  assert (q < 2 ^ (63 - s)) by nia.
  nia.
Qed.

(** ** Varint-A: the two revisions of the size decoder *)

Lemma sizeTail_add_eq (rest : list byte) :
  forall shift off objSize,
    0 <= shift -> (shift <= 60 -> 0 <= objSize < 2 ^ shift) ->
    sizeTail_add rest shift off objSize = sizeTail rest shift off objSize.
Proof.
  induction rest as [| byt rest IH]; intros shift off objSize Hs Hsize.
  - reflexivity.
  - simpl. destruct (60 <? shift) eqn:E; [reflexivity |].
    apply Z.ltb_ge in E. specialize (Hsize E).
    rewrite add64_lor by lia.
    destruct (Z.land (b2z byt) 128 =? 0); [reflexivity |].
    apply IH; [lia |]. intros Hle.
    pose proof (land_7F_range byt) as Hx.
    rewrite shl64_small by lia.
    rewrite lor_add_disjoint by lia.
    assert (2 ^ (shift + 7) = 2 ^ shift * 128)
      by (rewrite Z.pow_add_r by lia; reflexivity).
    nia.
Qed.

(** C9. The size decoder of the earlier revision of [parsePackfile], which
    adds each tail byte's seven bits into the running size, and the one of
    the final revision, which ors them in, give the same size, cursor and
    unread bytes, or the same error, on every first byte and every byte
    sequence after it: the four bits of the first byte and the seven bits
    of each tail byte lie at disjoint positions (4, 11, 18, ...), also
    where the last shift leaves the 64-bit range. *)
Theorem decodeSize_add_or (byt : byte) (rest : list byte) (off : Z) :
  decodeSize_add byt rest off = decodeSize byt rest off.
Proof.
  unfold decodeSize_add, decodeSize.
  destruct (negb (Z.land (b2z byt) 128 =? 0)); [| reflexivity].
  apply sizeTail_add_eq; [lia |]. intros _.
  pose proof (land_0F_range byt). change (2 ^ 4) with 16. lia.
Qed.

(** ** Varint-B: [parseVarInt] *)

(** The loop at its [k]-th byte: the value read so far is below [2^(7k)],
    and at most [9 - k] more bytes are taken. *)
Lemma parseVarIntLoop_bounds (rest : list byte) :
  forall k off value,
    0 <= k -> (k <= 8 -> 0 <= value < 2 ^ (7 * k)) ->
    match parseVarIntLoop rest (7 * k) off value with
    | Ok (v, n) =>
        0 <= v < 2 ^ 63 /\ k <= 8 /\ off + 1 <= n <= off + (9 - k)
        /\ n - off <= len rest
    | Err e => exists o, e = EVarIntEnd o \/ e = EVarIntTooLarge o
    | Fault => False
    end.
Proof.
  induction rest as [| byt rest IH]; intros k off value Hk Hval.
  - simpl. eauto.
  - cbn [parseVarIntLoop]. destruct (60 <? 7 * k) eqn:E; [eauto |].
    apply Z.ltb_ge in E. assert (Hk8 : k <= 8) by lia. specialize (Hval Hk8).
    pose proof (land_7F_range byt) as Hx.
    rewrite shl64_small by lia. rewrite lor_add_disjoint by lia.
    assert (Hpow : 2 ^ (7 * (k + 1)) = 2 ^ (7 * k) * 128).
    { replace (7 * (k + 1)) with (7 * k + 7) by lia.
      rewrite Z.pow_add_r by lia. reflexivity. }
    assert (Hmono : 2 ^ (7 * (k + 1)) <= 2 ^ 63)
      by (apply Z.pow_le_mono_r; lia).
    assert (Hnew : 0 <= value + Z.land (b2z byt) 127 * 2 ^ (7 * k)
                   < 2 ^ (7 * (k + 1))) by nia.
    unfold len. cbn [length]. rewrite Nat2Z.inj_succ.
    destruct (Z.land (b2z byt) 128 =? 0).
    + repeat split; lia.
    + replace (7 * k + 7) with (7 * (k + 1)) by lia.
      specialize (IH (k + 1) (off + 1)
                    (value + Z.land (b2z byt) 127 * 2 ^ (7 * k))).
      destruct (parseVarIntLoop rest (7 * (k + 1)) (off + 1) _)
        as [[v n] | e |]; [| exact (IH ltac:(lia) ltac:(intros; lia)) |].
      * unfold len in IH.
        destruct IH as (Hv & Hk' & Hn & Hlen); [lia | intros; lia |].
        repeat split; lia.
      * apply IH; [lia | intros; lia].
Qed.

(** C10. Whatever the bytes, [parseVarInt] returns: either a value and a
    count, and then the value is not negative (it is below [2^63]: the
    shifts it accepts are 0, 7, ..., 56) and the count of bytes taken is
    between 1 and 9 and within the input; or one of its two errors. It
    never reads past the input. *)
Theorem parseVarInt_total (data : list byte) :
  match parseVarInt data with
  | Ok (v, n) => 0 <= v < 2 ^ 63 /\ 1 <= n <= 9 /\ n <= len data
  | Err e => exists o, e = EVarIntEnd o \/ e = EVarIntTooLarge o
  | Fault => False
  end.
Proof.
  unfold parseVarInt.
  pose proof (parseVarIntLoop_bounds data 0 0 0) as H.
  change (7 * 0) with 0 in H.
  destruct (parseVarIntLoop data 0 0 0) as [[v n] | e |].
  - destruct H as (Hv & _ & Hn & Hlen); [lia | intros; simpl; lia |].
    repeat split; lia.
  - apply H; [lia | intros; simpl; lia].
  - apply H; [lia | intros; simpl; lia].
Qed.

(** ** The checksum and the header of a pack *)

Lemma length_be_bytes (n : nat) (z : Z) : length (be_bytes n z) = n.
Proof.
  unfold be_bytes. rewrite length_map, length_rev, length_seq. reflexivity.
Qed.

Lemma length_sha1 (data : list byte) : length (sha1 data) = 20%nat.
Proof.
  unfold sha1, SHA1.sum.
  destruct (fold_left SHA1.compress _ SHA1.init) as [[[[h0 h1] h2] h3] h4].
  rewrite !length_app, !length_be_bytes. reflexivity.
Qed.

Lemma verifyChecksum_iff (pack : list byte) :
  verifyChecksum pack = true <->
  (20 <= length pack)%nat /\
  sha1 (take (length pack - 20) pack) = drop (length pack - 20) pack.
Proof.
  unfold verifyChecksum.
  destruct (length pack <? 20)%nat eqn:E.
  - apply Nat.ltb_lt in E. split; [discriminate | lia].
  - apply Nat.ltb_ge in E. rewrite bool_decide_eq_true.
    split; [intros H; split; [lia | congruence] | intros [_ H]; congruence].
Qed.

Lemma verifyChecksum_seal (content : list byte) :
  verifyChecksum (seal content) = true.
Proof.
  apply verifyChecksum_iff. unfold seal.
  rewrite length_app, length_sha1.
  replace (length content + 20 - 20)%nat with (length content) by lia.
  rewrite take_app_length, drop_app_length. split; [lia | reflexivity].
Qed.

Section PackDecoder.

Context {zl : Zlib}.

Lemma parsePackfile_bad_checksum (pack : list byte) (st : store) :
  verifyChecksum pack = false -> parsePackfile pack st = (st, Err EChecksum).
Proof.
  intros H. unfold parsePackfile. rewrite H. reflexivity.
Qed.

(** What [parsePackfile] does with a sealed sequence of a 4-byte magic, a
    4-byte version field and a body: the version field is not looked at. *)
Lemma parsePackfile_seal (magic ver body : list byte) (st : store) :
  length magic = 4%nat -> length ver = 4%nat ->
  parsePackfile (seal (magic ++ ver ++ body)) st =
  if bool_decide (magic = str2bytes "PACK") then
    if len body <? 4 then (st, Fault)
    else
      parseRecords (Z.to_nat (be_uint (take 4 body))) (drop 4 body) 0 [] st
  else (st, Err EBadMagic).
Proof.
  intros Hm Hv. unfold parsePackfile.
  rewrite verifyChecksum_seal. cbn [negb].
  destruct magic as [| m0 [| m1 [| m2 [| m3 [|]]]]]; try discriminate.
  destruct ver as [| v0 [| v1 [| v2 [| v3 [|]]]]]; try discriminate.
  clear Hm Hv. set (m := [m0; m1; m2; m3]).
  unfold seal, bind, lift, getObjectsCount, len.
  set (sum := sha1 _).
  assert (Hlen : length ((m ++ [v0; v1; v2; v3] ++ body) ++ sum)
                 = S (S (S (S (S (S (S (S (length body + 20))))))))).
  { rewrite !length_app. unfold sum. rewrite length_sha1. simpl. lia. }
  rewrite Hlen.
  destruct (Z.of_nat _ <? 12) eqn:E; [apply Z.ltb_lt in E; lia | clear E].
  change (take 4 ((m ++ [v0; v1; v2; v3] ++ body) ++ sum)) with m.
  destruct (bool_decide (m = str2bytes "PACK")); cbn [negb]; [| reflexivity].
  destruct (Z.of_nat (length body) <? 4) eqn:Eb.
  - apply Z.ltb_lt in Eb.
    destruct (_ - 20 <? 12) eqn:E;
      [reflexivity | apply Z.ltb_ge in E; lia].
  - apply Z.ltb_ge in Eb.
    destruct (_ - 20 <? 12) eqn:E; [apply Z.ltb_lt in E; lia | clear E].
    replace (S (S (S (S (S (S (S (S (length body + 20)))))))) - 20)%nat
      with (S (S (S (S (S (S (S (S (length body))))))))) by lia.
    cbn [app m take drop].
    rewrite drop_0, take_app_length, take_app_le by lia. reflexivity.
Qed.


(** C6. [verifyChecksum] holds exactly of the packs of 20 bytes or more
    whose last 20 bytes are the SHA-1 of the bytes before them; and where
    it does not hold, [parsePackfile] returns the checksum error with the
    store as it was: no record is looked at, no object written. *)
Theorem verifyChecksum_gate (pack : list byte) (st : store) :
  (verifyChecksum pack = true <->
   (20 <= length pack)%nat /\
   sha1 (take (length pack - 20) pack) = drop (length pack - 20) pack)
  /\ (verifyChecksum pack = false ->
      parsePackfile pack st = (st, Err EChecksum)).
Proof.
  split; [apply verifyChecksum_iff | apply parsePackfile_bad_checksum].
Qed.

(** C3, as the code has it. [parsePackfile] checks the trailing checksum
    first, then the magic bytes; each failure is returned with the store as
    it was. A pack of less than 20 bytes fails the checksum, so the check
    of 12 bytes that follows has nothing left to reject. The version field
    is not looked at: two sealed packs that differ in their bytes 4 to 7
    only decode alike, from any store. *)
Theorem parsePackfile_preconditions (st : store) :
  (forall pack,
      verifyChecksum pack = false ->
      parsePackfile pack st = (st, Err EChecksum))
  /\ (forall pack,
      (length pack < 20)%nat -> parsePackfile pack st = (st, Err EChecksum))
  /\ (forall pack,
      verifyChecksum pack = true -> take 4 pack <> str2bytes "PACK" ->
      parsePackfile pack st = (st, Err EBadMagic))
  /\ (forall magic ver ver' body,
      length magic = 4%nat -> length ver = 4%nat -> length ver' = 4%nat ->
      parsePackfile (seal (magic ++ ver ++ body)) st
      = parsePackfile (seal (magic ++ ver' ++ body)) st).
Proof.
  split; [| split; [| split]].
  - intros pack H. apply parsePackfile_bad_checksum, H.
  - intros pack Hshort. apply parsePackfile_bad_checksum.
    unfold verifyChecksum.
    destruct (Nat.ltb_spec (length pack) 20); [reflexivity | lia].
  - intros pack Hsum Hmagic. unfold parsePackfile. rewrite Hsum. cbn [negb].
    apply verifyChecksum_iff in Hsum as [Hlen _].
    unfold bind, lift, getObjectsCount, len.
    destruct (Z.of_nat (length pack) <? 12) eqn:E;
      [apply Z.ltb_lt in E; lia |].
    rewrite bool_decide_eq_false_2 by exact Hmagic. reflexivity.
  - intros magic ver ver' body Hm Hv Hv'.
    rewrite !parsePackfile_seal by assumption. reflexivity.
Qed.

(** A record of a full object whose size and stream decode is written
    under the name of its type. *)
Lemma parseRecord_full (byt : byte) (rest : list byte) (off : Z)
    (deltas : list Delta) (st : store) (name : string) (objSize off' : Z)
    (rest' raw : list byte) (consumed : nat) :
  objTypeNames !! Z.land (Z.shiftr (b2z byt) 4) 0x7 = Some name ->
  Z.land (Z.shiftr (b2z byt) 4) 0x7 <> OBJ_REF_DELTA ->
  decodeSize byt rest (off + 1) = Ok (objSize, off', rest') ->
  rest' <> [] ->
  inflate rest' = ZDone raw consumed ->
  len raw = objSize ->
  parseRecord (byt :: rest) off deltas st
  = ((writeObject raw name st).1,
     Ok (drop consumed rest', off' + Z.of_nat consumed, deltas)).
Proof.
  intros Hname Hne Hsize Hrest Hinf Hlen. unfold parseRecord. rewrite Hname.
  apply Z.eqb_neq in Hne.
  unfold bind, lift, ret. rewrite Hsize, Hne.
  rewrite bool_decide_eq_false_2 by exact Hrest.
  rewrite Hinf, Hlen, Z.eqb_refl. cbn [negb].
  unfold writeObject. reflexivity.
Qed.

(** A record of a ref-delta whose size and stream decode is added to the
    list of deltas; the store is not touched. *)
Lemma parseRecord_delta (byt : byte) (rest : list byte) (off : Z)
    (deltas : list Delta) (st : store) (objSize off' : Z)
    (rest' raw : list byte) (consumed : nat) :
  Z.land (Z.shiftr (b2z byt) 4) 0x7 = OBJ_REF_DELTA ->
  decodeSize byt rest (off + 1) = Ok (objSize, off', rest') ->
  20 <= len rest' ->
  drop 20 rest' <> [] ->
  inflate (drop 20 rest') = ZDone raw consumed ->
  len raw = objSize ->
  parseRecord (byt :: rest) off deltas st
  = (st,
     Ok (drop consumed (drop 20 rest'), off' + 20 + Z.of_nat consumed,
         deltas ++ [{| hash := hexEncode (take 20 rest'); data := raw |}])).
Proof.
  intros Htype Hsize Hhash Hrest Hinf Hlen. unfold parseRecord. rewrite Htype.
  change (objTypeNames !! OBJ_REF_DELTA) with (Some "ref_delta"%string).
  unfold bind, lift, ret. rewrite Hsize.
  change (OBJ_REF_DELTA =? OBJ_REF_DELTA) with true. cbv iota.
  destruct (Z.ltb_spec (len rest') 20); [lia |].
  rewrite bool_decide_eq_false_2 by exact Hrest.
  rewrite Hinf, Hlen, Z.eqb_refl. reflexivity.
Qed.

(** C2, as the code has it. The type of a record is the three bits 4 to 6
    of its first byte, so it is 7 at most. Types 0, 4 (tag), 5 and 6
    (ofs-delta) are rejected alike, with the bad-object-type error and
    the store as it was. Types 1, 2 and 3 are the full objects: a record
    whose size and stream decode is written under the name commit, tree
    or blob; a record of type 7 whose size and stream decode is added to
    the list of deltas under the 20 bytes after its size, and the store is
    not touched. *)
Theorem parseRecord_object_type (byt : byte) (rest : list byte) (off : Z)
    (deltas : list Delta) (st : store) :
  let objType := Z.land (Z.shiftr (b2z byt) 4) 0x7 in
  0 <= objType <= 7
  /\ (objType ∈ [0; OBJ_TAG; 5; OBJ_OFS_DELTA] ->
      parseRecord (byt :: rest) off deltas st
      = (st, Err (EBadObjectType objType)))
  /\ (forall name objSize off' rest' raw consumed,
      (objType, name) ∈ [(OBJ_COMMIT, "commit"%string);
                         (OBJ_TREE, "tree"%string);
                         (OBJ_BLOB, "blob"%string)] ->
      decodeSize byt rest (off + 1) = Ok (objSize, off', rest') ->
      rest' <> [] ->
      inflate rest' = ZDone raw consumed ->
      len raw = objSize ->
      parseRecord (byt :: rest) off deltas st
      = ((writeObject raw name st).1,
         Ok (drop consumed rest', off' + Z.of_nat consumed, deltas)))
  /\ (forall objSize off' rest' raw consumed,
      objType = OBJ_REF_DELTA ->
      decodeSize byt rest (off + 1) = Ok (objSize, off', rest') ->
      20 <= len rest' ->
      drop 20 rest' <> [] ->
      inflate (drop 20 rest') = ZDone raw consumed ->
      len raw = objSize ->
      parseRecord (byt :: rest) off deltas st
      = (st,
         Ok (drop consumed (drop 20 rest'), off' + 20 + Z.of_nat consumed,
             deltas ++ [{| hash := hexEncode (take 20 rest');
                           data := raw |}]))).
Proof.
  intros objType. split; [| split; [| split]].
  - assert (E : objType = Z.shiftr (b2z byt) 4 mod 2 ^ 3)
      by (apply (Z.land_ones _ 3); lia).
    pose proof (Z.mod_pos_bound (Z.shiftr (b2z byt) 4) (2 ^ 3)). lia.
  - intros Hin. unfold parseRecord. fold objType.
    assert (Hnone : objTypeNames !! objType = None).
    { clearbody objType. set_unfold in Hin.
      destruct Hin as [-> | [-> | [-> | [-> | []]]]]; reflexivity. }
    rewrite Hnone. reflexivity.
  - intros name objSize off' rest' raw consumed Hin.
    assert (Hsome : objTypeNames !! objType = Some name
                    /\ objType <> OBJ_REF_DELTA).
    { clearbody objType. set_unfold in Hin.
      destruct Hin as [[= -> ->] | [[= -> ->] | [[= -> ->] | []]]];
        split; (reflexivity || discriminate). }
    destruct Hsome as [Hname Hne]. apply parseRecord_full; assumption.
  - intros objSize off' rest' raw consumed Htype.
    apply parseRecord_delta. exact Htype.
Qed.

End PackDecoder.

(** ** The loose-object store *)

Lemma indexByte_app (l k : list byte) (c : byte) :
  c ∉ l -> indexByte (l ++ c :: k) c = Some (length l).
Proof.
  induction l as [| b l IH]; intros Hnotin; simpl.
  - rewrite decide_True by reflexivity. reflexivity.
  - apply not_elem_of_cons in Hnotin as [Hne Hnotin].
    rewrite decide_False by congruence. rewrite IH by exact Hnotin.
    reflexivity.
Qed.

Lemma indexByte_Some (l : list byte) (c : byte) (i : nat) :
  indexByte l c = Some i ->
  l = take i l ++ c :: drop (S i) l /\ c ∉ take i l.
Proof.
  revert i. induction l as [| b l IH]; intros i; simpl; [discriminate |].
  destruct (decide (b = c)) as [-> | Hne].
  - intros [= <-]. simpl. rewrite drop_0. split; [reflexivity |].
    apply not_elem_of_nil.
  - destruct (indexByte l c) as [j |]; [| discriminate].
    intros [= <-]. destruct (IH j eq_refl) as [Heq Hnotin]. simpl.
    split; [f_equal; exact Heq |].
    apply not_elem_of_cons. split; [congruence | exact Hnotin].
Qed.

Lemma str2bytes_app (a b : string) :
  str2bytes (a ++ b) = str2bytes a ++ str2bytes b.
Proof.
  unfold str2bytes, list_byte_of_string.
  induction a as [| c a IH]; simpl; [reflexivity |]. rewrite IH. reflexivity.
Qed.

Lemma bytes2str_str2bytes (s : string) : bytes2str (str2bytes s) = s.
Proof. apply string_of_list_byte_of_string. Qed.

Lemma str2bytes_bytes2str (l : list byte) : str2bytes (bytes2str l) = l.
Proof. apply list_byte_of_string_of_list_byte. Qed.

(** *** Decimal sizes *)

(** The characters of a decimal numeral are digits: none is a sign, none
    the NUL character. *)
Lemma string_of_uint_digits (d : Decimal.uint) :
  Forall isDigit (list_ascii_of_string (NilEmpty.string_of_uint d)).
Proof.
  induction d; simpl; constructor; try assumption;
    unfold isDigit; set_solver.
Qed.

Lemma to_uint_not_nil (n : N) : N.to_uint n <> Decimal.Nil.
Proof.
  destruct n as [| p]; [discriminate |]. simpl.
  intros H. apply (f_equal Pos.of_uint) in H.
  rewrite DecimalPos.Unsigned.of_to in H. discriminate.
Qed.

Lemma decimal_eq (n : nat) :
  decimal n = NilEmpty.string_of_uint (N.to_uint (N.of_nat n)).
Proof.
  unfold decimal, NilZero.string_of_uint.
  pose proof (to_uint_not_nil (N.of_nat n)).
  destruct (N.to_uint (N.of_nat n)); congruence.
Qed.

Lemma decimal_no_NUL (n : nat) : "000"%byte ∉ str2bytes (decimal n).
Proof.
  rewrite decimal_eq. unfold str2bytes, list_byte_of_string.
  pose proof (string_of_uint_digits (N.to_uint (N.of_nat n))) as Hd.
  induction Hd as [| c l Hc Hl IH]; simpl; [apply not_elem_of_nil |].
  apply not_elem_of_cons. split; [| exact IH].
  unfold isDigit in Hc. set_unfold in Hc.
  intuition (subst; discriminate).
Qed.

Lemma Atoi_decimal (n : nat) :
  Z.of_nat n < 2 ^ 63 -> Atoi (decimal n) = Some (Z.of_nat n).
Proof.
  intros Hn. rewrite decimal_eq. unfold Atoi.
  pose proof (to_uint_not_nil (N.of_nat n)) as Hnil.
  pose proof (NilEmpty.usu (N.to_uint (N.of_nat n))) as Husu.
  pose proof (DecimalN.Unsigned.of_to (N.of_nat n)) as Hof.
  destruct (N.to_uint (N.of_nat n)) as [| d | d | d | d | d | d | d | d | d | d];
    [congruence | ..];
    cbn [NilEmpty.string_of_uint] in *; rewrite Husu, Hof;
    rewrite nat_N_Z;
    (destruct ((- 2 ^ 63 <=? Z.of_nat n) && (Z.of_nat n <? 2 ^ 63)) eqn:E;
     [reflexivity |
      apply andb_false_iff in E as [E | E];
      [apply Z.leb_gt in E | apply Z.ltb_ge in E]; lia]).
Qed.

Lemma length_hexEncode (bs : list byte) :
  String.length (hexEncode bs) = (2 * length bs)%nat.
Proof.
  induction bs as [| b bs IH]; simpl; [reflexivity |]. rewrite IH. lia.
Qed.

Lemma frame_eq (kind : string) (payload : list byte) :
  frame kind payload
  = str2bytes kind
      ++ [" "%byte] ++ str2bytes (decimal (length payload)) ++ ["000"%byte] ++ payload.
Proof.
  unfold frame. rewrite !str2bytes_app, <- !app_assoc. reflexivity.
Qed.

Section ObjectStore.

Context {zl : Zlib}.

(** An object file made of a kind, a space, a size text, a NUL and the
    content is read back as that content under that kind, when the size
    text is the decimal length of the content. *)
Lemma readObject_parts (hash : string) (st : store)
    (file kind sizeText content : list byte) :
  (2 <= String.length hash)%nat ->
  st !! objectPath hash = Some file ->
  decompressBytes file
  = Ok (kind ++ [" "%byte] ++ sizeText ++ ["000"%byte] ++ content) ->
  "000"%byte ∉ kind -> " "%byte ∉ kind -> "000"%byte ∉ sizeText ->
  Atoi (bytes2str sizeText) = Some (len content) ->
  readObject hash st = (st, Ok (content, bytes2str kind)).
Proof.
  intros Hlen Hfile Hdec Hk0 Hksp Hs0 Hatoi. unfold readObject.
  destruct (String.length hash <? 2)%nat eqn:E;
    [apply Nat.ltb_lt in E; lia | clear E].
  rewrite Hfile, Hdec. cbn [wrap obind]. f_equal.
  set (header := kind ++ [" "%byte] ++ sizeText).
  replace (kind ++ [" "%byte] ++ sizeText ++ ["000"%byte] ++ content)
    with (header ++ "000"%byte :: content)
    by (unfold header; rewrite <- !app_assoc; reflexivity).
  assert (Hh0 : "000"%byte ∉ header).
  { unfold header. rewrite !not_elem_of_app. split; [exact Hk0 |].
    split; [| exact Hs0]. rewrite not_elem_of_cons.
    split; [discriminate | apply not_elem_of_nil]. }
  rewrite indexByte_app by exact Hh0.
  rewrite take_app_length.
  replace (S (length header)) with (length header + 1)%nat by lia.
  rewrite drop_app_add. cbn [drop].
  unfold header at 1. cbn [app]. rewrite indexByte_app by exact Hksp.
  unfold header. rewrite take_app_length.
  replace (S (length kind)) with (length kind + 1)%nat by lia.
  rewrite drop_app_add. cbn [app drop]. rewrite !drop_0, Hatoi, Z.eqb_refl.
  reflexivity.
Qed.

(** What a successful [readObject] has found in the store. *)
Lemma readObject_inv (hash : string) (st st' : store) (content : list byte)
    (kind : string) :
  readObject hash st = (st', Ok (content, kind)) ->
  st' = st
  /\ exists file sizeText,
      st !! objectPath hash = Some file
      /\ decompressBytes file
         = Ok (str2bytes kind ++ [" "%byte] ++ sizeText
                 ++ ["000"%byte] ++ content)
      /\ kindName kind
      /\ ("000"%byte ∉ sizeText)
      /\ Atoi (bytes2str sizeText) = Some (len content).
Proof.
  unfold readObject.
  destruct (String.length hash <? 2)%nat; [discriminate |].
  intros [= <- H]. split; [reflexivity |]. revert H.
  destruct (st !! objectPath hash) as [file |]; [| discriminate].
  destruct (decompressBytes file) as [objContent | e |] eqn:Hdec;
    cbn [wrap obind]; try discriminate.
  destruct (indexByte objContent "000"%byte) as [nullIdx |] eqn:Hnull;
    [| discriminate].
  destruct (indexByte (take nullIdx objContent) " "%byte)
    as [spaceIdx |] eqn:Hspace; [| discriminate].
  destruct (Atoi _) as [size |] eqn:Hatoi; [| discriminate].
  destruct (size =? len (drop (S nullIdx) objContent)) eqn:Hsize;
    cbn [negb]; [| discriminate].
  intros [= Hcontent Hkind]. apply Z.eqb_eq in Hsize.
  apply indexByte_Some in Hnull as [Hsplit Hno0].
  apply indexByte_Some in Hspace as [Hsplit' Hnosp].
  set (header := take nullIdx objContent) in *.
  exists file, (drop (S spaceIdx) header).
  unfold kindName. rewrite <- Hkind, str2bytes_bytes2str.
  assert (Hhdr : ("000"%byte ∉ take spaceIdx header)
                 /\ ("000"%byte ∉ drop (S spaceIdx) header)).
  { rewrite Hsplit' in Hno0.
    rewrite not_elem_of_app, not_elem_of_cons in Hno0. tauto. }
  repeat split; try tauto.
  - rewrite <- Hcontent, Hdec. f_equal. clearbody header.
    transitivity (header ++ "000"%byte :: drop (S nullIdx) objContent);
      [exact Hsplit |].
    rewrite Hsplit' at 1. rewrite <- app_assoc. reflexivity.
  - rewrite Hatoi, Hsize, Hcontent. reflexivity.
Qed.

(** The kinds the program writes objects under are kind names: the names
    of [objTypeNames], and the kinds [readObject] returns. *)
Lemma kindName_objTypeNames (objType : Z) (name : string) :
  objTypeNames !! objType = Some name -> kindName name.
Proof.
  intros H. apply elem_of_list_to_map_2 in H. set_unfold in H.
  destruct H as [[= _ ->] | [[= _ ->] | [[= _ ->] | [[= _ ->] | []]]]];
    split; apply (bool_decide_unpack _); reflexivity.
Qed.

Lemma kindName_kinds :
  Forall kindName ["commit"; "tree"; "blob"; "tag"]%string.
Proof.
  repeat constructor; apply (bool_decide_unpack _); reflexivity.
Qed.

Lemma kindName_readObject (hash : string) (st st' : store)
    (content : list byte) (kind : string) :
  readObject hash st = (st', Ok (content, kind)) -> kindName kind.
Proof.
  intros H. apply readObject_inv in H as (_ & file & sizeText & H). tauto.
Qed.

(** C8, as the code has it. [readObject] reads an object back exactly
    when the file at the object's path decompresses to: a kind without
    NUL or space, a space, a size text without NUL that [Atoi] reads as
    the length of the content, a NUL, the content. The kind is whatever
    stands before the first space; it is not compared to the kinds the
    program knows. The store is left as it was. *)
Theorem readObject_accepts (hash : string) (st : store)
    (content : list byte) (kind : string) :
  (2 <= String.length hash)%nat ->
  (readObject hash st).1 = st
  /\ (readObject hash st = (st, Ok (content, kind)) <->
      exists file sizeText,
        st !! objectPath hash = Some file
        /\ decompressBytes file
           = Ok (str2bytes kind ++ [" "%byte] ++ sizeText
                   ++ ["000"%byte] ++ content)
        /\ ("000"%byte ∉ str2bytes kind) /\ (" "%byte ∉ str2bytes kind)
        /\ ("000"%byte ∉ sizeText)
        /\ Atoi (bytes2str sizeText) = Some (len content)).
Proof.
  intros Hlen. split.
  { unfold readObject. destruct (String.length hash <? 2)%nat; reflexivity. }
  split.
  - intros H. apply readObject_inv in H
      as (_ & file & sizeText & Hfile & Hdec & [Hk0 Hksp] & Hs0 & Hatoi).
    exists file, sizeText. tauto.
  - intros (file & sizeText & Hfile & Hdec & Hk0 & Hksp & Hs0 & Hatoi).
    rewrite <- (bytes2str_str2bytes kind) at 1.
    eapply readObject_parts; eassumption.
Qed.

Context {laws : ZlibLaws zl}.

Lemma decompressBytes_deflate (content : list byte) :
  decompressBytes (deflate content) = Ok content.
Proof.
  unfold decompressBytes.
  rewrite <- (app_nil_r (deflate content)), inflate_deflate. reflexivity.
Qed.

(** C7. Writing an object puts the compressed canonical serialization
    [<kind> <decimal-size>\0<payload>] at [.git/objects/] followed by the
    first two and the remaining 38 hex digits of the SHA-1 of that
    serialization; reading the object of that OID from the store gives
    the payload and the kind back; writing it once more leaves the store,
    path and bytes, as the first write made it. *)
Theorem writeObject_readObject (kind : string) (payload : list byte)
    (st : store) :
  kindName kind -> len payload < 2 ^ 63 ->
  let hash := hexEncode (sha1 (frame kind payload)) in
  let path :=
    (".git/objects/" ++ substring 0 2 hash ++ "/" ++ substring 2 38 hash)%string in
  let st' := <[path := deflate (frame kind payload)]> st in
  String.length hash = 40%nat
  /\ writeObject payload kind st = (st', Ok tt)
  /\ readObject hash st' = (st', Ok (payload, kind))
  /\ writeObject payload kind st' = (st', Ok tt).
Proof.
  intros [Hk0 Hksp] Hsize hash path st'.
  assert (Hlen : String.length hash = 40%nat).
  { unfold hash. rewrite length_hexEncode, length_sha1. reflexivity. }
  assert (Hpath : objectPath hash = path).
  { unfold objectPath, pathJoin, shard, tail, path. rewrite Hlen.
    reflexivity. }
  assert (Hwrite : forall s,
             writeObject payload kind s
             = (<[path := deflate (frame kind payload)]> s, Ok tt)).
  { intros s. rewrite <- Hpath. reflexivity. }
  split; [exact Hlen |]. split; [apply Hwrite |]. split.
  - rewrite <- (bytes2str_str2bytes kind) at 1.
    eapply readObject_parts with (sizeText := str2bytes (decimal (length payload))).
    + lia.
    + rewrite Hpath. apply lookup_insert_eq.
    + rewrite decompressBytes_deflate, frame_eq. reflexivity.
    + exact Hk0.
    + exact Hksp.
    + apply decimal_no_NUL.
    + rewrite bytes2str_str2bytes. apply Atoi_decimal. exact Hsize.
  - rewrite Hwrite. unfold st'. rewrite insert_insert_eq. reflexivity.
Qed.

End ObjectStore.

(** ** The delta instruction stream *)

Lemma land_bit_test (bits i : Z) :
  0 <= i -> (Z.land bits (Z.shiftl 1 i) =? 0) = negb (Z.testbit bits i).
Proof.
  intros Hi. rewrite Z.shiftl_1_l.
  destruct (Z.testbit bits i) eqn:Hb; cbn [negb].
  - apply Z.eqb_neq. intros H0.
    assert (Ht : Z.testbit (Z.land bits (2 ^ i)) i = true)
      by (rewrite Z.land_spec, Hb, Z.pow2_bits_true by lia; reflexivity).
    rewrite H0, Z.bits_0 in Ht. discriminate.
  - apply Z.eqb_eq. apply Z.bits_inj'. intros n Hn.
    rewrite Z.land_spec, Z.bits_0, Z.pow2_bits_eqb by lia.
    destruct (Z.eqb_spec i n) as [<- | Hne];
      [rewrite Hb; reflexivity | apply andb_false_r].
Qed.


Lemma selected_cons (present : Z -> bool) (i : Z) (positions : list Z) :
  selected present (i :: positions)
  = if present i then i :: selected present positions
    else selected present positions.
Proof.
  unfold selected. rewrite filter_cons.
  destruct (present i); [rewrite decide_True | rewrite decide_False]; done.
Qed.

(** An operand loop of [parseInstructions] reads the bytes of the selected
    positions and returns the number they assemble. *)
Lemma readOperand_assemble (idx : list Z) :
  forall lo present bits bs rest off acc,
    0 <= lo -> increasingFrom lo idx -> 0 <= acc < 2 ^ (8 * lo) ->
    (forall i, i ∈ idx -> Z.testbit bits i = present i) ->
    length bs = length (selected present idx) ->
    readOperand idx bits (bs ++ rest) off acc
    = Ok (acc + assemble (selected present idx) bs, off + len bs, rest).
Proof.
  induction idx as [| i idx IH];
    intros lo present bits bs rest off acc Hlo Hinc Hacc Hbits Hlen.
  - destruct bs; [| discriminate]. simpl. do 3 f_equal; unfold len; simpl; lia.
  - destruct Hinc as [Hi Hinc]. cbn [readOperand].
    rewrite land_bit_test, negb_involutive by lia.
    rewrite (Hbits i) by left. rewrite selected_cons in Hlen |- *.
    assert (Hmono : 2 ^ (8 * lo) <= 2 ^ (8 * i))
      by (apply Z.pow_le_mono_r; lia).
    assert (Hnext : 2 ^ (8 * (i + 1)) = 256 * 2 ^ (8 * i)).
    { replace (8 * (i + 1)) with (8 + 8 * i) by lia.
      rewrite Z.pow_add_r by lia. reflexivity. }
    assert (Hbits' : forall j, j ∈ idx -> Z.testbit bits j = present j)
      by (intros j Hj; apply Hbits; right; exact Hj).
    destruct (present i).
    + destruct bs as [| b bs]; [discriminate |]. cbn [app assemble].
      injection Hlen as Hlen. pose proof (b2z_range b) as Hb.
      rewrite Z.shiftl_mul_pow2, lor_add_disjoint by lia.
      rewrite (IH (i + 1) present) by (try assumption; nia).
      do 3 f_equal; unfold len; cbn [length]; lia.
    + apply (IH (i + 1) present); try assumption; nia.
Qed.




Lemma take_drop_slice {A} (l : list A) (a n : Z) :
  0 <= a -> 0 <= n ->
  drop (Z.to_nat a) (take (Z.to_nat (a + n)) l)
  = take (Z.to_nat n) (drop (Z.to_nat a) l).
Proof.
  intros Ha Hn. rewrite Z2Nat.inj_add by lia. symmetry.
  apply take_drop_commute.
Qed.


(** *** The loop of [parseInstructions] *)

Lemma readOperand_length (idx : list Z) :
  forall bits rest off acc v off' rest',
    readOperand idx bits rest off acc = Ok (v, off', rest') ->
    (length rest' <= length rest)%nat.
Proof.
  induction idx as [| i idx IH]; intros bits rest off acc v off' rest'; simpl.
  - intros [= _ _ <-]. lia.
  - destruct (negb _).
    + destruct rest as [| b rest]; [discriminate |].
      intros H. apply IH in H. simpl. lia.
    + apply IH.
Qed.

Lemma readOperand_shift (idx : list Z) :
  forall bits rest off acc,
    readOperand idx bits rest off acc
    = do (v, o, r) <- readOperand idx bits rest 0 acc; Ok (v, off + o, r).
Proof.
  induction idx as [| i idx IH]; intros bits rest off acc; simpl.
  - rewrite Z.add_0_r. reflexivity.
  - destruct (negb _); [| apply IH].
    destruct rest as [| b rest]; [reflexivity |].
    rewrite (IH _ _ (off + 1)), (IH _ _ (0 + 1)).
    destruct (readOperand idx bits rest 0 _) as [[[v o] r] | |]; simpl;
      [| reflexivity ..].
    do 3 f_equal. lia.
Qed.

Lemma parseInstruction_length (byt : byte) (rest : list byte) (off : Z)
    (inst : Instruction) (off' : Z) (rest' : list byte) :
  parseInstruction byt rest off = Ok (inst, off', rest') ->
  (length rest' <= length rest)%nat.
Proof.
  unfold parseInstruction. destruct (negb _).
  - destruct (readOperand [0; 1; 2; 3] _ rest off 0) as [[[v o] r] | |] eqn:E1;
      cbn [obind]; try discriminate.
    destruct (readOperand [0; 1; 2] _ r o 0) as [[[v' o'] r'] | |] eqn:E2;
      cbn [obind]; try discriminate.
    intros [= _ _ <-].
    apply readOperand_length in E1, E2. lia.
  - destruct (len rest <? _); [discriminate |].
    intros [= _ _ <-]. rewrite length_drop. lia.
Qed.

Lemma parseInstruction_shift (byt : byte) (rest : list byte) (off : Z) :
  parseInstruction byt rest off
  = do (inst, o, r) <- parseInstruction byt rest 0; Ok (inst, off + o, r).
Proof.
  unfold parseInstruction. destruct (negb _).
  - rewrite (readOperand_shift _ _ _ off).
    destruct (readOperand [0; 1; 2; 3] _ rest 0 0) as [[[v o] r] | |];
      cbn [obind]; [| reflexivity ..].
    rewrite (readOperand_shift _ _ _ (off + o)), (readOperand_shift _ _ _ o).
    destruct (readOperand [0; 1; 2] _ r 0 0) as [[[v' o'] r'] | |];
      cbn [obind]; [| reflexivity ..].
    do 3 f_equal. lia.
  - destruct (len rest <? _); [reflexivity |]. cbn [obind].
    rewrite Z.add_0_l. reflexivity.
Qed.

(** Enough fuel is as good as any: the loop stops by itself. *)
Lemma parseInstructionsLoop_fuel (bound : nat) :
  forall fuel fuel' rest off insts,
    (fuel <= bound)%nat -> (fuel' <= bound)%nat ->
    (length rest <= fuel)%nat -> (length rest <= fuel')%nat ->
    parseInstructionsLoop fuel rest off insts
    = parseInstructionsLoop fuel' rest off insts.
Proof.
  induction bound as [| bound IH]; intros fuel fuel' rest off insts Hb Hb' Hf Hf'.
  - destruct rest; [| simpl in Hf; lia]. destruct fuel, fuel'; reflexivity.
  - destruct rest as [| byt rest]; [destruct fuel, fuel'; reflexivity |].
    destruct fuel as [| fuel]; [simpl in Hf; lia |].
    destruct fuel' as [| fuel']; [simpl in Hf'; lia |].
    cbn [parseInstructionsLoop].
    destruct (parseInstruction byt rest (off + 1)) as [[[inst o] r] | |] eqn:E;
      cbn [obind]; [| reflexivity ..].
    apply parseInstruction_length in E. simpl in Hf, Hf'.
    apply IH; lia.
Qed.

Lemma parseInstructionsLoop_shift (fuel : nat) :
  forall rest off insts,
    parseInstructionsLoop fuel rest off insts
    = do (insts', o) <- parseInstructionsLoop fuel rest 0 [];
      Ok (insts ++ insts', off + o).
Proof.
  induction fuel as [| fuel IH]; intros rest off insts.
  - destruct rest; simpl; [| reflexivity].
    rewrite app_nil_r, Z.add_0_r. reflexivity.
  - destruct rest as [| byt rest]; simpl.
    { rewrite app_nil_r, Z.add_0_r. reflexivity. }
    rewrite (parseInstruction_shift _ _ (off + 1)),
      (parseInstruction_shift _ _ 1).
    destruct (parseInstruction byt rest 0) as [[[inst o] r] | |];
      cbn [obind]; [| reflexivity ..].
    rewrite (IH r (off + 1 + o)), (IH r (1 + o) [inst]).
    destruct (parseInstructionsLoop fuel r 0 []) as [[insts' o'] | |];
      cbn [obind]; [| reflexivity ..].
    rewrite <- app_assoc. do 2 f_equal. lia.
Qed.

(** The stream, instruction by instruction. *)
Lemma parseInstructions_cons (byt : byte) (rest : list byte) :
  parseInstructions (byt :: rest)
  = do (inst, o, r) <- parseInstruction byt rest 1;
    do (insts, o') <- parseInstructions r;
    Ok (inst :: insts, o + o').
Proof.
  unfold parseInstructions. cbn [length parseInstructionsLoop].
  change (0 + 1) with 1.
  destruct (parseInstruction byt rest 1) as [[[inst o] r] | |] eqn:E;
    cbn [obind]; [| reflexivity ..].
  apply parseInstruction_length in E.
  rewrite (parseInstructionsLoop_fuel (length rest) (length rest) (length r))
    by lia.
  rewrite parseInstructionsLoop_shift. reflexivity.
Qed.

Lemma bit7_clear (byt : byte) :
  Z.testbit (b2z byt) 7 = false -> Z.land (b2z byt) 0x7F = b2z byt.
Proof.
  intros Hbit. pose proof (b2z_range byt) as Hb.
  apply Z.testbit_false in Hbit; [| lia].
  change 0x7F with (Z.ones 7). rewrite Z.land_ones by lia.
  apply Z.mod_small. change (2 ^ 7) with 128 in *.
  assert (b2z byt / 128 < 2) by (apply Z.div_lt_upper_bound; lia).
  assert (0 <= b2z byt / 128) by (apply Z.div_pos; lia).
  assert (E : b2z byt / 128 = 0) by (destruct (Z.eq_dec (b2z byt / 128) 1) as [E1 | E1]; [rewrite E1 in Hbit; discriminate | lia]).
  apply Z.div_small_iff in E; lia.
Qed.

Lemma parseInstruction_insert (byt : byte) (lit rest : list byte) (off : Z) :
  Z.testbit (b2z byt) 7 = false -> len lit = b2z byt ->
  parseInstruction byt (lit ++ rest) off
  = Ok (insertOf lit, off + len lit, rest).
Proof.
  intros Hbit Hlen. unfold parseInstruction.
  change 0x80 with (Z.shiftl 1 7). rewrite land_bit_test, Hbit by lia.
  cbn [negb]. rewrite bit7_clear by exact Hbit. rewrite <- Hlen.
  unfold len at 1. rewrite length_app.
  destruct (Z.ltb_spec (Z.of_nat (length lit + length rest)) (len lit));
    [unfold len in *; lia |].
  unfold len. rewrite Nat2Z.id, take_app_length, drop_app_length.
  reflexivity.
Qed.

(** C4, as the code has it. An opcode byte 0 is not an error: it is an
    insert of no literal byte, which adds nothing to the target, and the
    stream goes on after it. In general an opcode with its top bit clear
    is an insert of as many literal bytes as its low seven bits say, 0 to
    127, and when that many bytes follow it they are appended to the
    target as they are. *)
Theorem opcode_zero_is_empty_insert (rest : list byte) :
  (parseInstructions ("000"%byte :: rest)
   = do (insts, o) <- parseInstructions rest; Ok (insertOf [] :: insts, 1 + o))
  /\ (forall srcContent trgContent insts,
         applyInstructions srcContent trgContent (insertOf [] :: insts)
         = applyInstructions srcContent trgContent insts)
  /\ (forall byt lit,
         Z.testbit (b2z byt) 7 = false -> len lit = b2z byt ->
         (parseInstructions (byt :: lit ++ rest)
          = do (insts, o) <- parseInstructions rest;
            Ok (insertOf lit :: insts, 1 + len lit + o))
         /\ (forall srcContent trgContent insts,
                applyInstructions srcContent trgContent (insertOf lit :: insts)
                = applyInstructions srcContent (trgContent ++ lit) insts)).
Proof.
  assert (Happly : forall lit srcContent trgContent insts,
             applyInstructions srcContent trgContent (insertOf lit :: insts)
             = applyInstructions srcContent (trgContent ++ lit) insts).
  { intros lit srcContent trgContent insts.
    cbn [applyInstructions]. unfold applyInstruction, insertOf.
    cbn [instType instSize instData].
    change (INST_TYPE_ADD =? INST_TYPE_COPY) with false. cbv iota.
    rewrite Z.eqb_refl. reflexivity. }
  assert (Hparse : forall byt lit,
             Z.testbit (b2z byt) 7 = false -> len lit = b2z byt ->
             parseInstructions (byt :: lit ++ rest)
             = do (insts, o) <- parseInstructions rest;
               Ok (insertOf lit :: insts, 1 + len lit + o)).
  { intros byt lit Hbit Hlen.
    rewrite parseInstructions_cons, parseInstruction_insert by assumption.
    reflexivity. }
  split; [| split].
  - apply (Hparse "000"%byte []); reflexivity.
  - intros srcContent trgContent insts.
    rewrite Happly, app_nil_r. reflexivity.
  - intros byt lit Hbit Hlen. split; [apply Hparse; assumption | apply Happly].
Qed.

(** ** Decoding what the format writes *)

Lemma bit7_of_sum (r : Z) :
  0 <= r < 128 -> (Z.land (128 + r) 0x80 =? 0) = false.
Proof.
  intros Hr. pose proof (land_bit_test (128 + r) 7 ltac:(lia)) as Htest.
  change (Z.shiftl 1 7) with 128 in Htest. rewrite Htest.
  assert (Hbit : Z.testbit (128 + r) 7 = true).
  { apply Z.testbit_true; [lia |]. change (2 ^ 7) with 128.
    replace ((128 + r) / 128) with 1; [reflexivity |].
    apply Z.div_unique with (r := r); lia. }
  rewrite Hbit. reflexivity.
Qed.

Lemma bit7_of_small (n : Z) :
  0 <= n < 128 -> (Z.land n 0x80 =? 0) = true.
Proof.
  intros Hn. pose proof (land_bit_test n 7 ltac:(lia)) as Htest.
  change (Z.shiftl 1 7) with 128 in Htest. rewrite Htest.
  assert (Hbit : Z.testbit n 7 = false).
  { apply Z.testbit_false; [lia |]. change (2 ^ 7) with 128.
    rewrite Z.div_small by lia. reflexivity. }
  rewrite Hbit. reflexivity.
Qed.

Lemma land_7F_mod (x : Z) : Z.land x 0x7F = x mod 128.
Proof. change 0x7F with (Z.ones 7). apply Z.land_ones. lia. Qed.

(** The tail of a size, read back at its [k]-th byte. *)
Lemma sizeTail_sizeTailBytes (fuel : nat) :
  forall n k off acc rest,
    0 <= k -> 1 <= n < 128 ^ (Z.of_nat fuel + 1) ->
    0 <= acc < 2 ^ (4 + 7 * k) -> acc + n * 2 ^ (4 + 7 * k) < 2 ^ 63 ->
    sizeTail (sizeTailBytes fuel n ++ rest) (4 + 7 * k) off acc
    = Ok (acc + n * 2 ^ (4 + 7 * k), off + len (sizeTailBytes fuel n), rest).
Proof.
  induction fuel as [| fuel IH]; intros n k off acc rest Hk Hn Hacc Hsum.
  all: assert (Hpos : 0 < 2 ^ (4 + 7 * k)) by (apply Z.pow_pos_nonneg; lia).
  all: assert (Hk8 : k <= 8).
  all: try (destruct (Z.le_gt_cases k 8) as [H8 | H8]; [exact H8 |];
            assert (2 ^ 63 <= 2 ^ (4 + 7 * k)) by (apply Z.pow_le_mono_r; lia);
            nia).
  all: assert (Hlast : forall m, 0 <= m < 128 -> m = n ->
             sizeTail ([z2b m] ++ rest) (4 + 7 * k) off acc
             = Ok (acc + n * 2 ^ (4 + 7 * k), off + len [z2b m], rest)).
  all: try (intros m Hm ->; cbn [app sizeTail];
            destruct (Z.ltb_spec 60 (4 + 7 * k)); [lia |];
            rewrite b2z_z2b, (Z.mod_small n 256) by lia;
            rewrite land_7F_mod, (Z.mod_small n 128) by lia;
            rewrite bit7_of_small by lia;
            unfold shl64; rewrite Z.shiftl_mul_pow2, int64_small by nia;
            rewrite lor_add_disjoint by lia; reflexivity).
  - cbn [sizeTailBytes]. apply Hlast; [| reflexivity].
    change (128 ^ (Z.of_nat 0 + 1)) with 128 in Hn. lia.
  - cbn [sizeTailBytes]. destruct (Z.ltb_spec n 128) as [Hsmall | Hbig].
    { apply Hlast; [lia | reflexivity]. }
    assert (Hr : 0 <= n mod 128 < 128) by (apply Z.mod_pos_bound; lia).
    assert (Hdm : n = 128 * (n / 128) + n mod 128) by (apply Z.div_mod; lia).
    assert (Hq : 1 <= n / 128) by (apply Z.div_le_lower_bound; lia).
    assert (Hpow : 2 ^ (4 + 7 * (k + 1)) = 128 * 2 ^ (4 + 7 * k)).
    { replace (4 + 7 * (k + 1)) with (7 + (4 + 7 * k)) by lia.
      rewrite Z.pow_add_r by lia. reflexivity. }
    cbn [app sizeTail].
    destruct (Z.ltb_spec 60 (4 + 7 * k)); [lia |].
    rewrite b2z_z2b, (Z.mod_small (128 + n mod 128) 256) by lia.
    rewrite land_7F_mod.
    replace ((128 + n mod 128) mod 128) with (n mod 128)
      by (rewrite <- Zplus_mod_idemp_l; rewrite Z.mod_same by lia;
          rewrite Z.add_0_l, Z.mod_mod by lia; reflexivity).
    rewrite bit7_of_sum by lia.
    unfold shl64. rewrite Z.shiftl_mul_pow2, int64_small by nia.
    rewrite lor_add_disjoint by lia.
    replace (4 + 7 * k + 7) with (4 + 7 * (k + 1)) by lia.
    rewrite IH.
    + unfold len. cbn [length]. do 3 f_equal; nia.
    + lia.
    + split; [lia |]. apply Z.div_lt_upper_bound; [lia |].
      replace (Z.of_nat (S fuel) + 1) with (1 + (Z.of_nat fuel + 1)) in Hn
        by lia.
      rewrite Z.pow_add_r in Hn by lia. lia.
    + nia.
    + nia.
Qed.

(** The header of a record, read back: its type, and its size by
    [decodeSize]. *)
Lemma recordHeader_decode (type size : Z) :
  0 <= type < 8 -> 0 <= size < 2 ^ 63 ->
  exists byt tl,
    recordHeader type size = byt :: tl
    /\ Z.land (Z.shiftr (b2z byt) 4) 0x7 = type
    /\ forall rest off,
        decodeSize byt (tl ++ rest) off = Ok (size, off + len tl, rest).
Proof.
  intros Ht Hs. unfold recordHeader.
  assert (Hland7 : forall y, Z.land y 0x7 = y mod 8)
    by (intros y; change 0x7 with (Z.ones 3); apply Z.land_ones; lia).
  assert (HlandF : forall y, Z.land y 0xF = y mod 16)
    by (intros y; change 0xF with (Z.ones 4); apply Z.land_ones; lia).
  destruct (Z.ltb_spec size 16) as [Hsmall | Hbig].
  - exists (z2b (type * 16 + size)), [].
    assert (Hv : b2z (z2b (type * 16 + size)) = type * 16 + size)
      by (rewrite b2z_z2b; apply Z.mod_small; lia).
    split; [reflexivity |]. split.
    + rewrite Hv, Z.shiftr_div_pow2, Hland7 by lia. change (2 ^ 4) with 16.
      Z.div_mod_to_equations. lia.
    + intros rest off. unfold decodeSize. rewrite Hv, HlandF.
      rewrite bit7_of_small by lia. cbn [negb app]. unfold len. cbn [length].
      do 3 f_equal; [Z.div_mod_to_equations |]; lia.
  - set (r := type * 16 + size mod 16).
    assert (Hmod : 0 <= size mod 16 < 16) by (apply Z.mod_pos_bound; lia).
    assert (Hr : 0 <= r < 128) by (unfold r; lia).
    exists (z2b (128 + type * 16 + size mod 16)), (sizeTailBytes 9 (size / 16)).
    assert (Hv : b2z (z2b (128 + type * 16 + size mod 16)) = 128 + r)
      by (rewrite b2z_z2b; unfold r; rewrite Z.mod_small; lia).
    split; [reflexivity |]. split.
    + rewrite Hv, Z.shiftr_div_pow2, Hland7 by lia. change (2 ^ 4) with 16.
      unfold r. Z.div_mod_to_equations. lia.
    + intros rest off. unfold decodeSize. rewrite Hv, HlandF.
      rewrite bit7_of_sum by exact Hr. cbn [negb].
      replace ((128 + r) mod 16) with (size mod 16)
        by (unfold r; Z.div_mod_to_equations; lia).
      change 4 with (4 + 7 * 0).
      rewrite sizeTail_sizeTailBytes.
      * do 3 f_equal. change (2 ^ (4 + 7 * 0)) with 16.
        Z.div_mod_to_equations. lia.
      * lia.
      * split; [apply Z.div_le_lower_bound; lia |].
        apply Z.div_lt_upper_bound; [lia |].
        change (128 ^ (Z.of_nat 9 + 1)) with 1180591620717411303424.
        change (2 ^ 63) with 9223372036854775808 in Hs. lia.
      * change (2 ^ (4 + 7 * 0)) with 16. lia.
      * change (2 ^ (4 + 7 * 0)) with 16. Z.div_mod_to_equations. lia.
Qed.

Section WireFormat.

Context {zl : Zlib} {laws : ZlibLaws zl}.

(** The writer never writes the empty stream. *)
Lemma deflate_nonempty (data rest : list byte) : deflate data ++ rest <> [].
Proof.
  intros Hnil. apply app_eq_nil in Hnil as [Hnil _].
  pose proof (inflate_deflate data (deflate ("000"%byte :: data))) as H1.
  pose proof (inflate_deflate ("000"%byte :: data) []) as H2.
  rewrite Hnil in H1. cbn [app] in H1. rewrite app_nil_r in H2.
  rewrite H1 in H2. injection H2 as Hdata _.
  apply (f_equal length) in Hdata. simpl in Hdata. lia.
Qed.

(** A record of the format, decoded: the cursor is past it, a full object
    is written, a ref-delta listed. *)
Lemma parseRecord_encodeRecord (r : record) (rest : list byte) (off : Z)
    (deltas : list Delta) (st : store) :
  wfRecord r ->
  parseRecord (encodeRecord r ++ rest) off deltas st
  = (writeFull st r,
     Ok (rest, off + len (encodeRecord r), deltas ++ deltasOf [r])).
Proof.
  destruct r as [type payload | base delta]; cbn [wfRecord encodeRecord].
  - intros [Htype Hsize].
    assert (Hrange : 0 <= type < 8 /\ type <> OBJ_REF_DELTA
                     /\ exists name, objTypeNames !! type = Some name).
    { set_unfold in Htype.
      destruct Htype as [-> | [-> | [-> | []]]];
        (split; [cbv; split; congruence |]); (split; [discriminate |]);
        eexists; reflexivity. }
    destruct Hrange as (Hrange & Hne & name & Hname).
    destruct (recordHeader_decode type (len payload) Hrange)
      as (byt & tl & Hhdr & Hty & Hdec); [unfold len in *; lia |].
    rewrite Hhdr, <- app_assoc. cbn [app].
    rewrite (parseRecord_full byt _ off deltas st name (len payload)
               (off + 1 + len tl) (deflate payload ++ rest) payload
               (length (deflate payload))).
    + cbn [writeFull deltasOf omap]. rewrite Hname, drop_app_length.
      cbn [default]. rewrite app_nil_r. do 4 f_equal.
      unfold len. cbn [length]. rewrite length_app. lia.
    + rewrite Hty. exact Hname.
    + rewrite Hty. exact Hne.
    + apply Hdec.
    + apply deflate_nonempty.
    + apply inflate_deflate.
    + reflexivity.
  - intros [Hbase Hsize].
    destruct (recordHeader_decode OBJ_REF_DELTA (len delta))
      as (byt & tl & Hhdr & Hty & Hdec);
      [cbv; split; congruence | unfold len in *; lia |].
    rewrite Hhdr, <- !app_assoc. cbn [app].
    rewrite (parseRecord_delta byt _ off deltas st (len delta)
               (off + 1 + len tl) (base ++ deflate delta ++ rest) delta
               (length (deflate delta))).
    + cbn [writeFull deltasOf omap].
      replace 20%nat with (length base) by exact Hbase.
      rewrite take_app_length, drop_app_length, drop_app_length.
      do 4 f_equal. unfold len. cbn [length].
      rewrite !length_app, Hbase. lia.
    + exact Hty.
    + apply Hdec.
    + unfold len. rewrite length_app. lia.
    + replace 20%nat with (length base) by exact Hbase.
      rewrite drop_app_length. apply deflate_nonempty.
    + replace 20%nat with (length base) by exact Hbase.
      rewrite drop_app_length. apply inflate_deflate.
    + reflexivity.
Qed.

Lemma deltasOf_cons (r : record) (records : list record) :
  deltasOf (r :: records) = deltasOf [r] ++ deltasOf records.
Proof. unfold deltasOf. cbn [omap]. destruct r; reflexivity. Qed.

Lemma parseRecords_encode (records : list record) :
  forall off deltas st,
    Forall wfRecord records ->
    parseRecords (length records) (concat (map encodeRecord records))
      off deltas st
    = (foldl writeFull st records, Ok (deltas ++ deltasOf records)).
Proof.
  induction records as [| r records IH]; intros off deltas st Hwf.
  - simpl. unfold ret. rewrite app_nil_r. reflexivity.
  - apply Forall_cons in Hwf as [Hr Hwf].
    cbn [length map concat parseRecords foldl]. unfold bind.
    rewrite parseRecord_encodeRecord by exact Hr.
    rewrite IH by exact Hwf.
    rewrite <- app_assoc, <- deltasOf_cons. reflexivity.
Qed.

(** A bundle of the format, decoded: every full object is written, in the
    order of the records, and the deltas are returned in that order. The
    version field plays no part. *)
Lemma parsePackfile_encodeBundle (version : Z) (records : list record)
    (st : store) :
  Forall wfRecord records -> len records < 2 ^ 32 ->
  parsePackfile (encodeBundle version records) st
  = (foldl writeFull st records, Ok (deltasOf records)).
Proof.
  intros Hwf Hcount. unfold encodeBundle.
  rewrite parsePackfile_seal by (reflexivity || apply length_be_bytes).
  rewrite bool_decide_eq_true_2 by reflexivity.
  destruct (be_uint_be_bytes4 (len records)
              (concat (map encodeRecord records)))
    as (c0 & c1 & c2 & c3 & -> & Hcnt); [unfold len in *; lia |].
  destruct (Z.ltb_spec (len (c0 :: c1 :: c2 :: c3
                               :: concat (map encodeRecord records))) 4)
    as [Hlt | _]; [unfold len in Hlt; cbn [length] in Hlt; lia |].
  cbn [take drop]. rewrite take_0, Hcnt. unfold len. rewrite Nat2Z.id.
  apply parseRecords_encode. exact Hwf.
Qed.

End WireFormat.

(** ** The delta resolver *)

Section DeltaResolver.

Context {zl : Zlib}.

(** The pass over a list of deltas is the pass over its front, then,
    from the store that leaves, the pass over its back. *)
Lemma processRefDeltaObjs_app (ds1 ds2 : list Delta) (st : store) :
  processRefDeltaObjs (ds1 ++ ds2) st
  = match processRefDeltaObjs ds1 st with
    | (st1, Ok _) => processRefDeltaObjs ds2 st1
    | (st1, Err e) => (st1, Err e)
    | (st1, Fault) => (st1, Fault)
    end.
Proof.
  revert st. induction ds1 as [| d ds1 IH]; intros st; [reflexivity |].
  cbn [app processRefDeltaObjs]. unfold bind.
  destruct (resolveDelta d st) as [st1 [[] | e |]]; [apply IH | reflexivity ..].
Qed.

Lemma resolveDelta_missing_base (d : Delta) (st : store)
    (srcSize n trgSize m : Z) :
  parseVarInt (data d) = Ok (srcSize, n) ->
  parseVarInt (drop (Z.to_nat n) (data d)) = Ok (trgSize, m) ->
  (2 <= String.length (hash d))%nat ->
  st !! objectPath (hash d) = None ->
  resolveDelta d st = (st, Err (EReadFile (objectPath (hash d)))).
Proof.
  intros Hsrc Htrg Hlen Hnone. unfold resolveDelta, bind, lift.
  change (drop (Z.to_nat 0) (data d)) with (data d). rewrite Hsrc.
  cbn [wrap]. change (0 + n) with n. rewrite Htrg. cbn [wrap].
  unfold readObject.
  destruct (String.length (hash d) <? 2)%nat eqn:E;
    [apply Nat.ltb_lt in E; lia |].
  rewrite Hnone. reflexivity.
Qed.

Lemma resolveDelta_present_base (d : Delta) (st : store)
    (srcSize n trgSize m r : Z) (srcContent trgContent : list byte)
    (objType : string) (insts : list Instruction) :
  parseVarInt (data d) = Ok (srcSize, n) ->
  parseVarInt (drop (Z.to_nat n) (data d)) = Ok (trgSize, m) ->
  readObject (hash d) st = (st, Ok (srcContent, objType)) ->
  len srcContent = srcSize ->
  parseInstructions (drop (Z.to_nat (n + m)) (data d)) = Ok (insts, r) ->
  applyInstructions srcContent [] insts = Ok trgContent ->
  len trgContent = trgSize ->
  resolveDelta d st = writeObject trgContent objType st.
Proof.
  intros Hsrc Htrg Hread Hslen Hinsts Happly Htlen.
  unfold resolveDelta, bind, lift.
  change (drop (Z.to_nat 0) (data d)) with (data d). rewrite Hsrc.
  cbn [wrap]. change (0 + n) with n. rewrite Htrg. cbn [wrap].
  rewrite Hread, Hslen, Z.eqb_refl. cbn [negb].
  rewrite Hinsts, Happly, Htlen, Z.eqb_refl. reflexivity.
Qed.

Lemma resolveDelta_resolvesTo (d : Delta) (st : store) (objType : string)
    (trgContent : list byte) :
  resolvesTo st d objType trgContent ->
  resolveDelta d st = writeObject trgContent objType st.
Proof.
  intros (srcSize & n & trgSize & m & r & srcContent & insts
          & Hsrc & Htrg & Hread & Hslen & Hinsts & Happly & Htlen).
  eapply resolveDelta_present_base; eassumption.
Qed.

(** [readObject] looks at one path of the store only. *)
Lemma readObject_lookup (hash : string) (st st' : store) :
  st !! objectPath hash = st' !! objectPath hash ->
  (readObject hash st).2 = (readObject hash st').2.
Proof.
  intros Heq. unfold readObject.
  destruct (String.length hash <? 2)%nat; [reflexivity |].
  cbn [snd]. rewrite Heq. reflexivity.
Qed.

Lemma readObject_store (hash : string) (st : store) :
  (readObject hash st).1 = st.
Proof.
  unfold readObject. destruct (String.length hash <? 2)%nat; reflexivity.
Qed.

Lemma resolvesTo_lookup (d : Delta) (st st' : store) (objType : string)
    (trgContent : list byte) :
  st !! objectPath (hash d) = st' !! objectPath (hash d) ->
  resolvesTo st d objType trgContent -> resolvesTo st' d objType trgContent.
Proof.
  intros Heq (srcSize & n & trgSize & m & r & srcContent & insts
              & Hsrc & Htrg & Hread & Hrest).
  exists srcSize, n, trgSize, m, r, srcContent, insts.
  split; [exact Hsrc |]. split; [exact Htrg |]. split; [| exact Hrest].
  pose proof (readObject_lookup (hash d) st st' Heq) as H2.
  pose proof (readObject_store (hash d) st') as H1.
  rewrite Hread in H2. cbn [snd] in H2.
  destruct (readObject (hash d) st') as [s o]. cbn [fst snd] in *.
  congruence.
Qed.

(** Deltas whose bases are all in the store, none of them overwritten by a
    target, are resolved in whatever order they are listed. *)
Lemma processRefDeltaObjs_bases_present (ds : list Delta) :
  forall st,
    (forall d, d ∈ ds ->
       exists objType trgContent,
         resolvesTo st d objType trgContent
         /\ forall d', d' ∈ ds ->
              objectPath (hexEncode (oid objType trgContent))
              <> objectPath (hash d')) ->
    exists st',
      processRefDeltaObjs ds st = (st', Ok tt)
      /\ (forall path, is_Some (st !! path) -> is_Some (st' !! path))
      /\ (forall d objType trgContent,
            d ∈ ds -> resolvesTo st d objType trgContent ->
            is_Some (st' !! objectPath (hexEncode (oid objType trgContent)))).
Proof.
  induction ds as [| d ds IH]; intros st Hall.
  - exists st. split; [reflexivity |].
    split; [tauto |]. intros d k t Hin. set_solver.
  - destruct (Hall d) as (k & t & Hres & Hpaths); [left |].
    set (st1 := <[objectPath (hexEncode (oid k t)) := deflate (frame k t)]> st).
    assert (Hwrite : resolveDelta d st = (st1, Ok tt))
      by (rewrite (resolveDelta_resolvesTo d st k t Hres); reflexivity).
    assert (Hsame : forall d', d' ∈ d :: ds ->
                      st !! objectPath (hash d') = st1 !! objectPath (hash d')).
    { intros d' Hin. unfold st1. symmetry.
      apply lookup_insert_ne. apply Hpaths, Hin. }
    destruct (IH st1) as (st' & Hrun & Hmono & Htargets).
    { intros d' Hin. destruct (Hall d') as (k' & t' & Hres' & Hpaths');
        [right; exact Hin |].
      exists k', t'. split.
      - apply (resolvesTo_lookup d' st st1); [| exact Hres'].
        apply Hsame. right. exact Hin.
      - intros d'' Hin''. apply Hpaths'. right. exact Hin''. }
    exists st'. split; [| split].
    + cbn [processRefDeltaObjs]. unfold bind. rewrite Hwrite. exact Hrun.
    + intros path Hsome. apply Hmono. unfold st1.
      rewrite lookup_insert. case_decide; [eauto | exact Hsome].
    + intros d' k' t' Hin Hres'.
      apply elem_of_cons in Hin as [-> | Hin].
      * apply Hmono.
        pose proof (resolveDelta_resolvesTo d st k' t' Hres') as Hwrite'.
        rewrite Hwrite in Hwrite'. injection Hwrite' as ->.
        rewrite lookup_insert_eq. eauto.
      * apply (Htargets d'); [exact Hin |].
        apply (resolvesTo_lookup d' st st1); [| exact Hres'].
        apply Hsame. right. exact Hin.
Qed.

Context {laws : ZlibLaws zl}.

(** Decoding a bundle of the format, then resolving: every full object is
    written first, wherever it is in the bundle, then the deltas are
    resolved in the order of the bundle. *)
Lemma unpack_encodeBundle (version : Z) (records : list record) (st : store) :
  Forall wfRecord records -> len records < 2 ^ 32 ->
  unpack (encodeBundle version records) st
  = processRefDeltaObjs (deltasOf records) (foldl writeFull st records).
Proof.
  intros Hwf Hcount. unfold unpack, bind.
  rewrite parsePackfile_encodeBundle by assumption. reflexivity.
Qed.

(** C1, as the code has it. [processRefDeltaObjs] makes one pass over
    the deltas, in the order of the list, and there is no retry queue.
    - When the deltas before [d] are resolved, [d] is resolved against the
      store they left, and the pass goes on from the store [d] leaves or
      ends with the error of [d].
    - A delta whose header parses and whose base is not in the store at its
      turn ends the pass with the error of reading the base, whatever
      deltas follow it.
    - Deltas whose bases are all in the store when the pass starts, none
      at the path of a target, are all resolved, whatever their order, and
      every target is in the store at the end.
    - Decoding a bundle writes all its full objects before the pass
      starts, wherever they are listed; so a bundle whose ref-deltas all
      have their bases among the objects in the store by then, a ref-delta
      listed before its base full object included, is unpacked with all
      its objects. *)
Theorem processRefDeltaObjs_single_pass :
  (forall ds1 ds2 d st st1,
      processRefDeltaObjs ds1 st = (st1, Ok tt) ->
      processRefDeltaObjs (ds1 ++ d :: ds2) st
      = match resolveDelta d st1 with
        | (st2, Ok _) => processRefDeltaObjs ds2 st2
        | (st2, Err e) => (st2, Err e)
        | (st2, Fault) => (st2, Fault)
        end)
  /\ (forall ds1 ds2 d st st1 srcSize n trgSize m,
         processRefDeltaObjs ds1 st = (st1, Ok tt) ->
         parseVarInt (data d) = Ok (srcSize, n) ->
         parseVarInt (drop (Z.to_nat n) (data d)) = Ok (trgSize, m) ->
         (2 <= String.length (hash d))%nat ->
         st1 !! objectPath (hash d) = None ->
         processRefDeltaObjs (ds1 ++ d :: ds2) st
         = (st1, Err (EReadFile (objectPath (hash d)))))
  /\ (forall ds st,
         (forall d, d ∈ ds ->
            exists objType trgContent,
              resolvesTo st d objType trgContent
              /\ forall d', d' ∈ ds ->
                   objectPath (hexEncode (oid objType trgContent))
                   <> objectPath (hash d')) ->
         exists st',
           processRefDeltaObjs ds st = (st', Ok tt)
           /\ forall d objType trgContent,
               d ∈ ds -> resolvesTo st d objType trgContent ->
               is_Some
                 (st' !! objectPath (hexEncode (oid objType trgContent))))
  /\ (forall version records st,
         Forall wfRecord records -> len records < 2 ^ 32 ->
         let decoded := foldl writeFull st records in
         parsePackfile (encodeBundle version records) st
         = (decoded, Ok (deltasOf records))
         /\ ((forall d, d ∈ deltasOf records ->
                exists objType trgContent,
                  resolvesTo decoded d objType trgContent
                  /\ forall d', d' ∈ deltasOf records ->
                       objectPath (hexEncode (oid objType trgContent))
                       <> objectPath (hash d')) ->
             exists st',
               unpack (encodeBundle version records) st = (st', Ok tt)
               /\ (forall path,
                      is_Some (decoded !! path) -> is_Some (st' !! path))
               /\ forall d objType trgContent,
                   d ∈ deltasOf records ->
                   resolvesTo decoded d objType trgContent ->
                   is_Some
                     (st' !! objectPath (hexEncode (oid objType trgContent))))).
Proof.
  assert (Hstep : forall ds1 ds2 d st st1,
             processRefDeltaObjs ds1 st = (st1, Ok tt) ->
             processRefDeltaObjs (ds1 ++ d :: ds2) st
             = match resolveDelta d st1 with
               | (st2, Ok _) => processRefDeltaObjs ds2 st2
               | (st2, Err e) => (st2, Err e)
               | (st2, Fault) => (st2, Fault)
               end).
  { intros ds1 ds2 d st st1 Hfront.
    rewrite processRefDeltaObjs_app, Hfront. reflexivity. }
  split; [exact Hstep |]. split; [| split].
  - intros ds1 ds2 d st st1 srcSize n trgSize m Hfront Hsrc Htrg Hlen Hnone.
    rewrite (Hstep _ _ _ _ _ Hfront),
      (resolveDelta_missing_base d st1 srcSize n trgSize m) by assumption.
    reflexivity.
  - intros ds st Hall.
    destruct (processRefDeltaObjs_bases_present ds st Hall)
      as (st' & Hrun & _ & Htargets).
    exists st'. split; [exact Hrun | exact Htargets].
  - intros version records st Hwf Hcount decoded.
    split; [apply parsePackfile_encodeBundle; assumption |].
    intros Hall. rewrite unpack_encodeBundle by assumption.
    apply processRefDeltaObjs_bases_present. exact Hall.
Qed.

End DeltaResolver.

(** * The rest of the program

    Properties of the decoders on every input and on what the formats
    write, of the store, of the fetch and of [main]. *)

(** ** Varint-B: what the format writes, and what is cut short *)

Lemma parseVarIntLoop_sizeTailBytes (fuel : nat) :
  forall n k off acc rest,
    0 <= k <= 8 -> 0 <= n < 128 ^ (Z.of_nat fuel + 1) ->
    0 <= acc < 2 ^ (7 * k) -> acc + n * 2 ^ (7 * k) < 2 ^ 63 ->
    parseVarIntLoop (sizeTailBytes fuel n ++ rest) (7 * k) off acc
    = Ok (acc + n * 2 ^ (7 * k), off + len (sizeTailBytes fuel n)).
Proof.
  induction fuel as [| fuel IH]; intros n k off acc rest Hk Hn Hacc Hsum.
  all: assert (Hpos : 0 < 2 ^ (7 * k)) by (apply Z.pow_pos_nonneg; lia).
  all: assert (Hlast : forall m, 0 <= m < 128 -> m = n ->
             parseVarIntLoop ([z2b m] ++ rest) (7 * k) off acc
             = Ok (acc + n * 2 ^ (7 * k), off + len [z2b m])).
  all: try (intros m Hm ->; cbn [app parseVarIntLoop];
            destruct (Z.ltb_spec 60 (7 * k)); [lia |];
            rewrite b2z_z2b, (Z.mod_small n 256) by lia;
            rewrite land_7F_mod, (Z.mod_small n 128) by lia;
            rewrite bit7_of_small by lia;
            unfold shl64; rewrite Z.shiftl_mul_pow2, int64_small by nia;
            rewrite lor_add_disjoint by lia; reflexivity).
  - cbn [sizeTailBytes]. apply Hlast; [| reflexivity].
    change (128 ^ (Z.of_nat 0 + 1)) with 128 in Hn. lia.
  - cbn [sizeTailBytes]. destruct (Z.ltb_spec n 128) as [Hsmall | Hbig].
    { apply Hlast; [lia | reflexivity]. }
    assert (Hr : 0 <= n mod 128 < 128) by (apply Z.mod_pos_bound; lia).
    assert (Hdm : n = 128 * (n / 128) + n mod 128) by (apply Z.div_mod; lia).
    assert (Hq : 1 <= n / 128) by (apply Z.div_le_lower_bound; lia).
    assert (Hpow : 2 ^ (7 * (k + 1)) = 128 * 2 ^ (7 * k)).
    { replace (7 * (k + 1)) with (7 + 7 * k) by lia.
      rewrite Z.pow_add_r by lia. reflexivity. }
    assert (Hk7 : k <= 7).
    { destruct (Z.le_gt_cases k 7) as [H7 | H7]; [exact H7 |].
      assert (k = 8) by lia. subst k. change (2 ^ (7 * 8)) with (2 ^ 56) in *.
      change (2 ^ 56) with 72057594037927936 in *.
      change (2 ^ 63) with 9223372036854775808 in *. lia. }
    cbn [app parseVarIntLoop].
    destruct (Z.ltb_spec 60 (7 * k)); [lia |].
    rewrite b2z_z2b, (Z.mod_small (128 + n mod 128) 256) by lia.
    rewrite land_7F_mod.
    replace ((128 + n mod 128) mod 128) with (n mod 128)
      by (rewrite <- Zplus_mod_idemp_l; rewrite Z.mod_same by lia;
          rewrite Z.add_0_l, Z.mod_mod by lia; reflexivity).
    rewrite bit7_of_sum by lia.
    unfold shl64. rewrite Z.shiftl_mul_pow2, int64_small by nia.
    rewrite lor_add_disjoint by lia.
    replace (7 * k + 7) with (7 * (k + 1)) by lia.
    rewrite IH.
    + unfold len. cbn [length]. do 2 f_equal; nia.
    + lia.
    + split; [lia |]. apply Z.div_lt_upper_bound; [lia |].
      replace (Z.of_nat (S fuel) + 1) with (1 + (Z.of_nat fuel + 1)) in Hn
        by lia.
      rewrite Z.pow_add_r in Hn by lia. lia.
    + nia.
    + nia.
Qed.

Lemma length_sizeTailBytes (fuel : nat) :
  forall n, 0 <= n < 128 ^ (Z.of_nat fuel + 1) ->
    (1 <= length (sizeTailBytes fuel n) <= S fuel)%nat
    /\ forall m : nat, n < 128 ^ Z.of_nat m -> (0 < m)%nat ->
         (length (sizeTailBytes fuel n) <= m)%nat.
Proof.
  induction fuel as [| fuel IH]; intros n Hn; cbn [sizeTailBytes].
  - split; [simpl; lia |]. intros m _ Hm. simpl. lia.
  - destruct (Z.ltb_spec n 128) as [Hsmall | Hbig].
    + split; [simpl; lia |]. intros m _ Hm. simpl. lia.
    + assert (Hq : 0 <= n / 128 < 128 ^ (Z.of_nat fuel + 1)).
      { split; [apply Z.div_pos; lia |].
        apply Z.div_lt_upper_bound; [lia |].
        replace (Z.of_nat (S fuel) + 1) with (1 + (Z.of_nat fuel + 1)) in Hn
          by lia.
        rewrite Z.pow_add_r in Hn by lia. lia. }
      destruct (IH _ Hq) as [Hlen Hmin]. split; [simpl; lia |].
      intros m Hm Hpos. destruct m as [| m]; [lia |].
      destruct m as [| m].
      { change (128 ^ Z.of_nat 1) with 128 in Hm. lia. }
      cbn [length]. apply le_n_S. apply Hmin; [| lia].
      apply Z.div_lt_upper_bound; [lia |].
      replace (Z.of_nat (S (S m))) with (1 + Z.of_nat (S m)) in Hm by lia.
      rewrite Z.pow_add_r in Hm by lia. lia.
Qed.

(** The encoding of a number below [2^63], read back; what follows it
    plays no part. *)
Lemma parseVarInt_encode (n : Z) (rest : list byte) :
  0 <= n < 2 ^ 63 ->
  parseVarInt (encodeVarInt n ++ rest) = Ok (n, len (encodeVarInt n)).
Proof.
  intros Hn. unfold parseVarInt, encodeVarInt.
  pose proof (parseVarIntLoop_sizeTailBytes 9 n 0 0 0 rest) as H.
  change (7 * 0) with 0 in H. change (2 ^ 0) with 1 in H.
  rewrite H; [do 2 f_equal; lia | lia | | lia | lia].
  change (128 ^ (Z.of_nat 9 + 1)) with 1180591620717411303424.
  change (2 ^ 63) with 9223372036854775808 in Hn. lia.
Qed.

(** X1. [parseVarInt] reads back every number from 0 to [2^63 - 1] from
    its encoding of seven bits a byte, low bits first, and counts the bytes
    of the encoding, which are 9 at most; the bytes after the encoding do
    not change the result. *)
Theorem parseVarInt_encodeVarInt (n : Z) (rest : list byte) :
  0 <= n < 2 ^ 63 ->
  parseVarInt (encodeVarInt n ++ rest) = Ok (n, len (encodeVarInt n))
  /\ 1 <= len (encodeVarInt n) <= 9.
Proof.
  intros Hn. split; [apply parseVarInt_encode, Hn |].
  unfold encodeVarInt, len.
  destruct (length_sizeTailBytes 9 n) as [Hlen Hmin].
  { change (128 ^ (Z.of_nat 9 + 1)) with 1180591620717411303424.
    change (2 ^ 63) with 9223372036854775808 in Hn. lia. }
  specialize (Hmin 9%nat).
  change (128 ^ Z.of_nat 9) with 9223372036854775808 in Hmin.
  change (2 ^ 63) with 9223372036854775808 in Hn. lia.
Qed.

Lemma parseVarIntLoop_unterminated (rest : list byte) :
  forall k off value,
    0 <= k ->
    Forall (fun b => Z.land (b2z b) 0x80 <> 0) rest ->
    parseVarIntLoop rest (7 * k) off value
    = if len rest <=? Z.max 0 (9 - k) then Err (EVarIntEnd (off + len rest))
      else Err (EVarIntTooLarge (off + Z.max 0 (9 - k))).
Proof.
  induction rest as [| byt rest IH]; intros k off value Hk Hall.
  - cbn [parseVarIntLoop]. unfold len. cbn [length].
    destruct (Z.leb_spec (Z.of_nat 0) (Z.max 0 (9 - k))); [| lia].
    f_equal. f_equal. lia.
  - apply Forall_cons in Hall as [Hbyt Hall].
    cbn [parseVarIntLoop]. unfold len. cbn [length].
    rewrite Nat2Z.inj_succ.
    destruct (Z.ltb_spec 60 (7 * k)) as [Hbig | Hok].
    + destruct (Z.leb_spec (Z.succ (Z.of_nat (length rest))) (Z.max 0 (9 - k)));
        [lia |]. do 2 f_equal. lia.
    + apply Z.eqb_neq in Hbyt. rewrite Hbyt.
      replace (7 * k + 7) with (7 * (k + 1)) by lia.
      rewrite IH by (lia || assumption). unfold len.
      destruct (Z.leb_spec (Z.of_nat (length rest)) (Z.max 0 (9 - (k + 1))));
        destruct (Z.leb_spec (Z.succ (Z.of_nat (length rest))) (Z.max 0 (9 - k)));
        try lia; do 2 f_equal; lia.
Qed.

(** X2. A byte sequence in which every byte has its top bit set holds no
    complete number: [parseVarInt] fails on it, with the unexpected-end
    error at the length of the sequence when it has 9 bytes or less (the
    empty sequence included), and with the too-large error at offset 9
    when it has more. *)
Theorem parseVarInt_unterminated (data : list byte) :
  Forall (fun b => Z.land (b2z b) 0x80 <> 0) data ->
  parseVarInt data
  = if len data <=? 9 then Err (EVarIntEnd (len data))
    else Err (EVarIntTooLarge 9).
Proof.
  intros Hall. unfold parseVarInt.
  pose proof (parseVarIntLoop_unterminated data 0 0 0 ltac:(lia) Hall) as H.
  change (7 * 0) with 0 in H. exact H.
Qed.

(** ** Varint-A: every input, and the sizes the format writes *)

Lemma sizeTail_bounds (rest : list byte) :
  forall k off objSize,
    0 <= k -> (k <= 8 -> 0 <= objSize < 2 ^ (4 + 7 * k)) ->
    match sizeTail rest (4 + 7 * k) off objSize with
    | Ok (size, off', rest') =>
        k <= 8 /\ - 2 ^ 63 <= size < 2 ^ 63
        /\ off + 1 <= off' <= off + (9 - k)
        /\ off' - off <= len rest
        /\ rest' = drop (Z.to_nat (off' - off)) rest
        /\ (k + (off' - off) <= 8 ->
            0 <= size < 2 ^ (4 + 7 * (k + (off' - off))))
    | Err e =>
        e = EUnexpectedEnd (off + len rest)
        \/ e = ESizeTooLarge (off + Z.max 0 (9 - k))
    | Fault => False
    end.
Proof.
  induction rest as [| byt rest IH]; intros k off objSize Hk Hsize.
  - cbn [sizeTail]. left. unfold len. cbn [length]. f_equal. lia.
  - cbn [sizeTail]. destruct (Z.ltb_spec 60 (4 + 7 * k)) as [Hbig | Hok].
    { right. f_equal. lia. }
    assert (Hk8 : k <= 8) by lia. specialize (Hsize Hk8).
    pose proof (land_7F_range byt) as Hx.
    destruct (shl64_multiple (Z.land (b2z byt) 127) (4 + 7 * k)) as [q Hq];
      [lia |].
    pose proof (int64_range (Z.shiftl (Z.land (b2z byt) 127) (4 + 7 * k))) as Hw.
    fold (shl64 (Z.land (b2z byt) 127) (4 + 7 * k)) in Hw.
    rewrite Hq in *. rewrite lor_add_disjoint by lia.
    assert (Hpos : 0 < 2 ^ (4 + 7 * k)) by (apply Z.pow_pos_nonneg; lia).
    assert (E63 : 2 ^ 63 = 2 ^ (63 - (4 + 7 * k)) * 2 ^ (4 + 7 * k))
      by (rewrite <- Z.pow_add_r by lia; f_equal; lia).
    assert (Hpos' : 0 < 2 ^ (63 - (4 + 7 * k))) by (apply Z.pow_pos_nonneg; lia).
    assert (Hpow : 2 ^ (4 + 7 * (k + 1)) = 2 ^ (4 + 7 * k) * 128).
    { replace (4 + 7 * (k + 1)) with (4 + 7 * k + 7) by lia.
      rewrite Z.pow_add_r by lia. reflexivity. }
    assert (Hq63 : q < 2 ^ (63 - (4 + 7 * k))) by nia.
    assert (Hsum : - 2 ^ 63 <= objSize + q * 2 ^ (4 + 7 * k) < 2 ^ 63) by nia.
    unfold len. cbn [length]. rewrite Nat2Z.inj_succ.
    destruct (Z.land (b2z byt) 128 =? 0) eqn:Ebit.
    + split; [exact Hk8 |]. split; [exact Hsum |]. split; [lia |]. split; [lia |].
      split.
      { replace (off + 1 - off) with 1 by lia. reflexivity. }
      intros Hk7. replace (k + (off + 1 - off)) with (k + 1) by lia.
      assert (k <= 7) by lia.
      assert (Hsmall : shl64 (Z.land (b2z byt) 127) (4 + 7 * k)
                       = Z.land (b2z byt) 127 * 2 ^ (4 + 7 * k))
        by (apply shl64_small; lia).
      rewrite Hq in Hsmall. rewrite Hsmall, Hpow. nia.
    + replace (4 + 7 * k + 7) with (4 + 7 * (k + 1)) by lia.
      specialize (IH (k + 1) (off + 1) (objSize + q * 2 ^ (4 + 7 * k))
                    ltac:(lia)).
      destruct (sizeTail rest (4 + 7 * (k + 1)) (off + 1) _)
        as [[[size off'] rest'] | e |].
      * destruct IH as (Hk' & Hrange & Hoff & Hlen & Hrest & Hnn).
        { intros Hk7.
          assert (Hsmall : shl64 (Z.land (b2z byt) 127) (4 + 7 * k)
                           = Z.land (b2z byt) 127 * 2 ^ (4 + 7 * k))
            by (apply shl64_small; lia).
          rewrite Hq in Hsmall. rewrite Hsmall, Hpow. nia. }
        split; [lia |]. split; [exact Hrange |]. split; [lia |].
        unfold len in Hlen. split; [lia |]. split.
        { rewrite Hrest.
          replace (Z.to_nat (off' - off)) with (S (Z.to_nat (off' - (off + 1))))
            by lia. reflexivity. }
        intros Hle. replace (k + (off' - off)) with (k + 1 + (off' - (off + 1)))
          by lia. apply Hnn. lia.
      * destruct IH as [-> | ->].
        { intros Hk7.
          assert (Hsmall : shl64 (Z.land (b2z byt) 127) (4 + 7 * k)
                           = Z.land (b2z byt) 127 * 2 ^ (4 + 7 * k))
            by (apply shl64_small; lia).
          rewrite Hq in Hsmall. rewrite Hsmall, Hpow. nia. }
        -- left. f_equal. unfold len. lia.
        -- right. f_equal. lia.
      * apply IH. intros Hk7.
        assert (Hsmall : shl64 (Z.land (b2z byt) 127) (4 + 7 * k)
                         = Z.land (b2z byt) 127 * 2 ^ (4 + 7 * k))
          by (apply shl64_small; lia).
        rewrite Hq in Hsmall. rewrite Hsmall, Hpow. nia.
Qed.

(** The cursor of the size decoder: it only moves forward, over the bytes
    it has taken, and it never reads past the end. *)
Lemma decodeSize_cursor (byt : byte) (rest : list byte) (off : Z) :
  match decodeSize byt rest off with
  | Ok (size, off', rest') =>
      off <= off' /\ rest' = drop (Z.to_nat (off' - off)) rest
  | Err e => True
  | Fault => False
  end.
Proof.
  unfold decodeSize. pose proof (land_0F_range byt) as Hx.
  destruct (negb (Z.land (b2z byt) 128 =? 0)).
  - pose proof (sizeTail_bounds rest 0 off (Z.land (b2z byt) 15)
                  ltac:(lia)) as H.
    change (4 + 7 * 0) with 4 in H.
    destruct (sizeTail rest 4 off _) as [[[size off'] rest'] | e |].
    + destruct H as (_ & _ & Hoff & _ & Hrest & _);
        [intros _; change (2 ^ 4) with 16; lia |].
      split; [lia | exact Hrest].
    + exact I.
    + apply H. intros _. change (2 ^ 4) with 16. lia.
  - replace (off - off) with 0 by lia. split; [lia | reflexivity].
Qed.

(** X3. The size decoder of [parsePackfile] returns on every first byte
    and every byte sequence after it, without reading past the end. When
    it returns a size, it has taken 9 bytes at most after the first, the
    unread bytes are what follows them, and the size is a 64-bit value,
    not negative when 8 bytes or less were taken after the first (with 9,
    the last shift reaches the sign bit). Otherwise it returns the
    unexpected-end error at the end of the input, or the too-large error
    at the tenth byte after the first. *)
Theorem decodeSize_total (byt : byte) (rest : list byte) (off : Z) :
  match decodeSize byt rest off with
  | Ok (size, off', rest') =>
      - 2 ^ 63 <= size < 2 ^ 63
      /\ off <= off' <= off + 9
      /\ off' - off <= len rest
      /\ rest' = drop (Z.to_nat (off' - off)) rest
      /\ (off' - off <= 8 -> 0 <= size < 2 ^ (4 + 7 * (off' - off)))
  | Err e =>
      e = EUnexpectedEnd (off + len rest) \/ e = ESizeTooLarge (off + 9)
  | Fault => False
  end.
Proof.
  unfold decodeSize. pose proof (land_0F_range byt) as Hx.
  destruct (negb (Z.land (b2z byt) 128 =? 0)).
  - pose proof (sizeTail_bounds rest 0 off (Z.land (b2z byt) 15)
                  ltac:(lia)) as H.
    change (4 + 7 * 0) with 4 in H.
    destruct (sizeTail rest 4 off _) as [[[size off'] rest'] | e |].
    + destruct H as (_ & Hrange & Hoff & Hlen & Hrest & Hnn);
        [intros _; change (2 ^ 4) with 16; lia |].
      repeat split; try lia; try assumption.
      all: replace (0 + (off' - off)) with (off' - off) in Hnn by lia.
      all: apply Hnn; lia.
    + apply H. intros _. change (2 ^ 4) with 16. lia.
    + apply H. intros _. change (2 ^ 4) with 16. lia.
  - replace (off - off) with 0 by lia. change (2 ^ (4 + 7 * 0)) with 16.
    change (2 ^ 63) with 9223372036854775808. unfold len.
    repeat split; try lia. 
Qed.

(** X4. The header of a record, as the format writes it for a type from
    0 to 7 and a size from 0 to [2^63 - 1], has 10 bytes at most; its first
    byte carries the type in bits 4 to 6, and the size decoder of
    [parsePackfile] reads the size back and leaves the cursor after the
    header, whatever follows. *)
Theorem decodeSize_recordHeader (type size : Z) (rest : list byte) (off : Z) :
  0 <= type < 8 -> 0 <= size < 2 ^ 63 ->
  match recordHeader type size ++ rest with
  | byt :: tl =>
      Z.land (Z.shiftr (b2z byt) 4) 0x7 = type
      /\ decodeSize byt tl off
         = Ok (size, off + len (recordHeader type size) - 1, rest)
  | [] => False
  end
  /\ 1 <= len (recordHeader type size) <= 10.
Proof.
  intros Ht Hs.
  destruct (recordHeader_decode type size Ht Hs) as (byt & tl & Hhdr & Hty & Hdec).
  split.
  - rewrite Hhdr. cbn [app]. split; [exact Hty |].
    rewrite Hdec. unfold len. cbn [length]. do 3 f_equal. lia.
  - unfold recordHeader, len. destruct (size <? 16); [simpl; lia |].
    cbn [length].
    destruct (length_sizeTailBytes 9 (size / 16)) as [Hlen Hmin].
    { change (128 ^ (Z.of_nat 9 + 1)) with 1180591620717411303424.
      change (2 ^ 63) with 9223372036854775808 in Hs.
      Z.div_mod_to_equations. lia. }
    specialize (Hmin 9%nat).
    change (128 ^ Z.of_nat 9) with 9223372036854775808 in Hmin.
    change (2 ^ 63) with 9223372036854775808 in Hs.
    assert (size / 16 < 9223372036854775808)
      by (Z.div_mod_to_equations; lia).
    lia.
Qed.

(** X5. [verifyChecksum] accepts exactly the byte sequences that are
    some content followed by the SHA-1 of that content. *)
Theorem verifyChecksum_sealed (pack : list byte) :
  verifyChecksum pack = true <-> exists content, pack = seal content.
Proof.
  split.
  - intros H. apply verifyChecksum_iff in H as [Hlen Hsum].
    exists (take (length pack - 20) pack). unfold seal.
    rewrite Hsum, take_drop. reflexivity.
  - intros [content ->]. apply verifyChecksum_seal.
Qed.

Lemma z2b_b2z (b : byte) : z2b (b2z b) = b.
Proof.
  unfold z2b, b2z. pose proof (Byte.to_N_bounded b) as Hb.
  rewrite Z.mod_small by lia. rewrite N2Z.id, Byte.of_to_N. reflexivity.
Qed.

Lemma z2b_mod (a b : Z) : a mod 256 = b mod 256 -> z2b a = z2b b.
Proof. intros H. unfold z2b. rewrite H. reflexivity. Qed.

Lemma be_bytes4_be_uint (c0 c1 c2 c3 : byte) :
  be_bytes 4 (be_uint [c0; c1; c2; c3]) = [c0; c1; c2; c3]
  /\ 0 <= be_uint [c0; c1; c2; c3] < 2 ^ 32.
Proof.
  pose proof (b2z_range c0). pose proof (b2z_range c1).
  pose proof (b2z_range c2). pose proof (b2z_range c3).
  unfold be_uint. cbn [fold_left]. split; [| change (2 ^ 32) with 4294967296; lia].
  unfold be_bytes. cbn [seq rev app map].
  rewrite !Z.shiftr_div_pow2 by lia.
  change (2 ^ (8 * Z.of_nat 3)) with 16777216.
  change (2 ^ (8 * Z.of_nat 2)) with 65536.
  change (2 ^ (8 * Z.of_nat 1)) with 256.
  change (2 ^ (8 * Z.of_nat 0)) with 1.
  set (v := (((0 * 256 + b2z c0) * 256 + b2z c1) * 256 + b2z c2) * 256 + b2z c3).
  transitivity [z2b (b2z c0); z2b (b2z c1); z2b (b2z c2); z2b (b2z c3)];
    [| rewrite !z2b_b2z; reflexivity].
  subst v.
  do 3 (f_equal; [apply z2b_mod; Z.div_mod_to_equations; lia |]).
  f_equal. apply z2b_mod. Z.div_mod_to_equations. lia.
Qed.

(** X6. [getObjectsCount] returns a count exactly for the packs of 12
    bytes or more that start with PACK; the count is the big-endian value
    of the bytes 8 to 11, a number below [2^32], and the bytes 4 to 7 (the
    version) play no part. *)
Theorem getObjectsCount_iff (pack : list byte) (n : Z) :
  getObjectsCount pack = Ok n <->
  12 <= len pack /\ take 4 pack = str2bytes "PACK"
  /\ 0 <= n < 2 ^ 32 /\ take 4 (drop 8 pack) = be_bytes 4 n.
Proof.
  unfold getObjectsCount.
  destruct (Z.ltb_spec (len pack) 12) as [Hshort | Hlong].
  { split; [discriminate | lia]. }
  assert (Hfour : exists c0 c1 c2 c3, take 4 (drop 8 pack) = [c0; c1; c2; c3]).
  { unfold len in Hlong.
    destruct pack as [| ? [| ? [| ? [| ? [| ? [| ? [| ? [| ? [| c0 [| c1 [| c2 [| c3 ?]]]]]]]]]]]];
      cbn [length] in Hlong; try lia.
    exists c0, c1, c2, c3. reflexivity. }
  destruct Hfour as (c0 & c1 & c2 & c3 & E). rewrite E.
  destruct (be_bytes4_be_uint c0 c1 c2 c3) as [Hbytes Hrange].
  case_bool_decide as Hmagic; cbn [negb].
  - split.
    + intros [= <-]. rewrite Hbytes. auto.
    + intros (_ & _ & Hn & Hbe). f_equal. rewrite Hbe.
      destruct (be_uint_be_bytes4 n [] Hn) as (d0 & d1 & d2 & d3 & Hd & Hv).
      rewrite app_nil_r in Hd. rewrite Hd. exact Hv.
  - split; [discriminate | tauto].
Qed.

(** ** The loop over the records *)

Section RecordLoop.

Context {zl : Zlib}.

Lemma addsObjects_refl (st : store) : addsObjects st st.
Proof. intros path. left. reflexivity. Qed.

Lemma addsObjects_trans (st1 st2 st3 : store) :
  addsObjects st1 st2 -> addsObjects st2 st3 -> addsObjects st1 st3.
Proof.
  intros H12 H23 path.
  destruct (H23 path) as [E | H]; [rewrite E; apply H12 | right; exact H].
Qed.

Lemma addsObjects_writeObject (content : list byte) (objType : string)
    (st : store) :
  addsObjects st (writeObject content objType st).1.
Proof.
  intros path. unfold writeObject. cbn [fst].
  destruct (decide (path = objectPath (hexEncode (oid objType content))))
    as [-> | Hne].
  - right. exists (deflate (frame objType content)).
    split; [apply lookup_insert_eq |]. exists objType, content. auto.
  - left. apply lookup_insert_ne. exact (not_eq_sym Hne).
Qed.

Lemma readObject_fault (hash : string) (st : store) :
  (readObject hash st).2 = Fault -> (String.length hash < 2)%nat.
Proof.
  unfold readObject.
  destruct (Nat.ltb_spec (String.length hash) 2) as [Hlt | Hge];
    [intros _; exact Hlt |].
  cbn [snd]. unfold decompressBytes.
  repeat (case_match; cbn [wrap obind]; try discriminate).
Qed.

(** What a turn of the record loop does. *)
Lemma parseRecord_outcome (rest : list byte) (off : Z) (deltas : list Delta)
    (st : store) :
  match parseRecord rest off deltas st with
  | (st', Ok (rest', off', deltas')) =>
      off < off' /\ (length rest' < length rest)%nat
      /\ ((deltas' = deltas
           /\ exists raw name,
               name ∈ ["commit"; "tree"; "blob"]%string
               /\ st' = (writeObject raw name st).1)
          \/ (st' = st
              /\ exists base raw,
                  length base = 20%nat
                  /\ deltas' = deltas ++ [{| hash := hexEncode base;
                                            data := raw |}]))
  | (st', Err e) => st' = st
  | (st', Fault) => False
  end.
Proof.
  unfold parseRecord. destruct rest as [| byt rest]; [reflexivity |].
  set (objType := Z.land (Z.shiftr (b2z byt) 4) 0x7).
  destruct (objTypeNames !! objType) as [name |] eqn:Hname; [| reflexivity].
  unfold bind, lift, ret.
  pose proof (decodeSize_cursor byt rest (off + 1)) as Hsize.
  destruct (decodeSize byt rest (off + 1)) as [[[objSize off1] rest1] | e |];
    [| reflexivity | exact Hsize].
  destruct Hsize as (Hoff & Hrest).
  assert (Hlen1 : (length rest1 <= length rest)%nat)
    by (rewrite Hrest, length_drop; lia).
  destruct (Z.eqb_spec objType OBJ_REF_DELTA) as [Href | Hfull].
  - destruct (Z.ltb_spec (len rest1) 20) as [Hshort | Hlong]; [reflexivity |].
    case_bool_decide; [reflexivity |].
    destruct (inflate (drop 20 rest1)) as [| | raw consumed];
      [reflexivity | reflexivity |].
    destruct (len raw =? objSize); cbn [negb]; [| reflexivity].
    split; [lia |]. split; [rewrite !length_drop; cbn [length]; lia |].
    right. split; [reflexivity |]. exists (take 20 rest1), raw.
    split; [| reflexivity]. rewrite length_take. unfold len in Hlong. lia.
  - case_bool_decide; [reflexivity |].
    destruct (inflate rest1) as [| | raw consumed];
      [reflexivity | reflexivity |].
    destruct (len raw =? objSize); cbn [negb]; [| reflexivity].
    cbn [fst snd]. split; [lia |].
    split; [rewrite length_drop; cbn [length]; lia |].
    left. split; [reflexivity |]. exists raw, name. split; [| reflexivity].
    apply elem_of_list_to_map_2 in Hname. clearbody objType.
    set_unfold in Hname. set_unfold.
    destruct Hname as [[= ? ?] | [[= ? ?] | [[= ? ?] | [[= ? ?] | []]]]];
      subst; auto; contradiction Hfull; reflexivity.
Qed.

Lemma parseRecords_outcome (n : nat) :
  forall rest off deltas st,
    match parseRecords n rest off deltas st with
    | (st', Ok deltas') =>
        addsObjects st st'
        /\ exists new,
            deltas' = deltas ++ new /\ (length new <= n)%nat
            /\ Forall (fun d => String.length (hash d) = 40%nat) new
    | (st', Err e) => addsObjects st st'
    | (st', Fault) => False
    end.
Proof.
  induction n as [| n IH]; intros rest off deltas st.
  - cbn [parseRecords]. unfold ret. split; [apply addsObjects_refl |].
    exists []. rewrite app_nil_r. split; [reflexivity |].
    split; [simpl; lia | constructor].
  - cbn [parseRecords]. unfold bind.
    pose proof (parseRecord_outcome rest off deltas st) as H1.
    destruct (parseRecord rest off deltas st)
      as [st1 [[[rest1 off1] deltas1] | e |]];
      [| subst st1; apply addsObjects_refl | exact H1].
    destruct H1 as (_ & _ & H1).
    specialize (IH rest1 off1 deltas1 st1).
    assert (Hadd : addsObjects st st1).
    { destruct H1 as [(_ & raw & name & _ & ->) | (-> & _)];
        [apply addsObjects_writeObject | apply addsObjects_refl]. }
    destruct (parseRecords n rest1 off1 deltas1 st1) as [st' [deltas' | e |]];
      [| eapply addsObjects_trans; eassumption | exact IH].
    destruct IH as (Hadd' & new & -> & Hlen & Hall).
    split; [eapply addsObjects_trans; eassumption |].
    destruct H1 as [(-> & _) | (_ & base & raw & Hbase & ->)].
    + exists new. split; [reflexivity |]. split; [lia | exact Hall].
    + exists ({| hash := hexEncode base; data := raw |} :: new).
      split; [rewrite <- app_assoc; reflexivity |].
      split; [simpl; lia |]. constructor; [| exact Hall].
      cbn [hash]. rewrite length_hexEncode, Hbase. reflexivity.
Qed.

(** X7. [parsePackfile] reads out of range in one case only: on a pack
    whose checksum holds and which starts with PACK but is shorter than 32
    bytes, where the slice [pack[12 : len(pack)-20]] has its end before
    its start; nothing is written then. The loop over the records never
    reads out of range. *)
Theorem parsePackfile_fault_iff (pack : list byte) (st st' : store) :
  parsePackfile pack st = (st', Fault) <->
  st' = st /\ verifyChecksum pack = true
  /\ take 4 pack = str2bytes "PACK" /\ (length pack < 32)%nat.
Proof.
  unfold parsePackfile.
  destruct (verifyChecksum pack) eqn:Hsum; cbn [negb].
  2:{ split; [discriminate | intros (_ & ? & _); discriminate]. }
  apply verifyChecksum_iff in Hsum as [Hlen _].
  unfold bind, lift, getObjectsCount.
  destruct (Z.ltb_spec (len pack) 12) as [Hshort | _];
    [unfold len in Hshort; lia |].
  case_bool_decide as Hmagic; cbn [negb].
  2:{ split; [discriminate | tauto]. }
  destruct (Z.ltb_spec (len pack - 20) 12) as [Hsmall | Hbig];
    unfold len in *.
  - split; [intros [= <-]; repeat split; (reflexivity || assumption || lia) |].
    intros (-> & _). reflexivity.
  - split; [| lia].
    intros H.
    pose proof (parseRecords_outcome
                  (Z.to_nat (be_uint (take 4 (drop 8 pack))))
                  (drop 12 (take (length pack - 20) pack)) 0 [] st) as Hout.
    rewrite H in Hout. destruct Hout.
Qed.

Lemma be_uint_nonneg (bs : list byte) : 0 <= be_uint bs.
Proof.
  unfold be_uint.
  assert (H : forall acc, 0 <= acc ->
            0 <= fold_left (fun acc b => acc * 256 + b2z b) bs acc).
  { induction bs as [| b bs IH]; intros a Ha; cbn [fold_left]; [exact Ha |].
    apply IH. pose proof (b2z_range b). lia. }
  apply H. lia.
Qed.

(** X8. The deltas [parsePackfile] returns are no more than the count
    of the header, and each is named by 40 hex digits: [readObject] never
    slices such a name out of range. *)
Theorem parsePackfile_deltas (pack : list byte) (st st' : store)
    (deltas : list Delta) :
  parsePackfile pack st = (st', Ok deltas) ->
  len deltas <= be_uint (take 4 (drop 8 pack))
  /\ Forall (fun d =>
               String.length (hash d) = 40%nat
               /\ forall st0, (readObject (hash d) st0).2 <> Fault) deltas.
Proof.
  unfold parsePackfile.
  destruct (verifyChecksum pack); cbn [negb]; [| discriminate].
  unfold bind, lift, getObjectsCount.
  destruct (len pack <? 12); [discriminate |].
  destruct (negb _); [discriminate |].
  destruct (len pack - 20 <? 12); [discriminate |].
  intros H.
  pose proof (parseRecords_outcome
                (Z.to_nat (be_uint (take 4 (drop 8 pack))))
                (drop 12 (take (length pack - 20) pack)) 0 [] st) as Hout.
  rewrite H in Hout. destruct Hout as (_ & new & -> & Hlen & Hall).
  cbn [app]. split.
  { pose proof (be_uint_nonneg (take 4 (drop 8 pack))). unfold len. lia. }
  eapply Forall_impl; [exact Hall |]. intros d Hd. cbn beta in Hd.
  split; [exact Hd |]. intros st0 Hfault.
  apply readObject_fault in Hfault. lia.
Qed.

End RecordLoop.

Section WireFormatEdges.

Context {zl : Zlib} {laws : ZlibLaws zl}.

Lemma parseRecords_app (records : list record) :
  forall m junk off deltas st,
    Forall wfRecord records ->
    parseRecords (length records + m) (concat (map encodeRecord records) ++ junk)
      off deltas st
    = parseRecords m junk (off + len (concat (map encodeRecord records)))
        (deltas ++ deltasOf records) (foldl writeFull st records).
Proof.
  induction records as [| r records IH]; intros m junk off deltas st Hwf.
  - cbn [length map concat app foldl Nat.add]. unfold len. cbn [length].
    rewrite Z.add_0_r, app_nil_r. reflexivity.
  - apply Forall_cons in Hwf as [Hr Hwf].
    cbn [length map concat parseRecords foldl Nat.add]. unfold bind.
    rewrite <- app_assoc.
    rewrite parseRecord_encodeRecord by exact Hr.
    rewrite IH by exact Hwf.
    rewrite <- app_assoc, <- deltasOf_cons.
    replace (off + len (encodeRecord r)
             + len (concat (map encodeRecord records)))
      with (off + len (encodeRecord r ++ concat (map encodeRecord records)))
      by (unfold len; rewrite length_app; lia).
    reflexivity.
Qed.

(** X9. Bytes between the last record and the checksum are not looked
    at: a pack that declares as many records as it holds decodes alike
    whatever follows the records, further records included. *)
Theorem parsePackfile_trailing_bytes (version : Z) (records : list record)
    (junk : list byte) (st : store) :
  Forall wfRecord records -> len records < 2 ^ 32 ->
  parsePackfile
    (seal (str2bytes "PACK" ++ be_bytes 4 version ++ be_bytes 4 (len records)
             ++ concat (map encodeRecord records) ++ junk)) st
  = (foldl writeFull st records, Ok (deltasOf records)).
Proof.
  intros Hwf Hcount.
  rewrite parsePackfile_seal by (reflexivity || apply length_be_bytes).
  rewrite bool_decide_eq_true_2 by reflexivity.
  destruct (be_uint_be_bytes4 (len records)
              (concat (map encodeRecord records) ++ junk))
    as (c0 & c1 & c2 & c3 & -> & Hcnt); [unfold len in *; lia |].
  destruct (Z.ltb_spec (len (c0 :: c1 :: c2 :: c3
                               :: concat (map encodeRecord records) ++ junk)) 4)
    as [Hlt | _]; [unfold len in Hlt; cbn [length] in Hlt; lia |].
  cbn [take drop]. rewrite take_0, Hcnt. unfold len. rewrite Nat2Z.id.
  pose proof (parseRecords_app records 0 junk 0 [] st Hwf) as H.
  rewrite Nat.add_0_r in H. rewrite drop_0, H. reflexivity.
Qed.

(** X10. A pack that declares more records than it holds fails with the
    unexpected-end error at the offset where the records end; the full
    objects of the records it holds have been written by then and stay in
    the store. *)
Theorem parsePackfile_count_beyond_records (version count : Z)
    (records : list record) (st : store) :
  Forall wfRecord records -> len records < count < 2 ^ 32 ->
  parsePackfile
    (seal (str2bytes "PACK" ++ be_bytes 4 version ++ be_bytes 4 count
             ++ concat (map encodeRecord records))) st
  = (foldl writeFull st records,
     Err (EUnexpectedEnd (len (concat (map encodeRecord records))))).
Proof.
  intros Hwf Hcount.
  rewrite parsePackfile_seal by (reflexivity || apply length_be_bytes).
  rewrite bool_decide_eq_true_2 by reflexivity.
  destruct (be_uint_be_bytes4 count (concat (map encodeRecord records)))
    as (c0 & c1 & c2 & c3 & -> & Hcnt); [unfold len in *; lia |].
  destruct (Z.ltb_spec (len (c0 :: c1 :: c2 :: c3
                               :: concat (map encodeRecord records))) 4)
    as [Hlt | _]; [unfold len in Hlt; cbn [length] in Hlt; lia |].
  cbn [take drop]. rewrite take_0, Hcnt.
  replace (Z.to_nat count)
    with (length records + S (Z.to_nat (count - len records - 1)))%nat
    by (unfold len in *; lia).
  rewrite drop_0.
  rewrite <- (app_nil_r (concat (map encodeRecord records))) at 1.
  rewrite parseRecords_app by exact Hwf. reflexivity.
Qed.

(** X11. A record whose header declares a size other than the length of
    what its stream holds is rejected with the size-mismatch error, which
    carries both numbers; nothing is written and no delta is listed for
    it. *)
Theorem parseRecord_size_mismatch (size : Z) (r : record) (rest : list byte)
    (off : Z) (deltas : list Delta) (st : store) :
  match r with
  | Full type _ => type ∈ [OBJ_COMMIT; OBJ_TREE; OBJ_BLOB]
  | RefDelta base _ => length base = 20%nat
  end ->
  0 <= size < 2 ^ 63 -> size <> len (carried r) ->
  parseRecord (encodeRecordAs size r ++ rest) off deltas st
  = (st, Err (EObjSizeMismatch size (len (carried r)))).
Proof.
  intros Hr Hsize Hne.
  assert (Hneq : (len (carried r) =? size) = false) by (apply Z.eqb_neq; lia).
  destruct r as [type payload | base delta]; cbn [encodeRecordAs carried] in *.
  - assert (Hrange : 0 <= type < 8 /\ type <> OBJ_REF_DELTA
                     /\ exists name, objTypeNames !! type = Some name).
    { set_unfold in Hr.
      destruct Hr as [-> | [-> | [-> | []]]];
        (split; [cbv; split; congruence |]); (split; [discriminate |]);
        eexists; reflexivity. }
    destruct Hrange as (Hrange & Hty7 & name & Hname).
    destruct (recordHeader_decode type size Hrange Hsize)
      as (byt & tl & Hhdr & Hty & Hdec).
    rewrite Hhdr, <- app_assoc. cbn [app]. unfold parseRecord.
    rewrite Hty, Hname. unfold bind, lift. rewrite Hdec.
    apply Z.eqb_neq in Hty7. rewrite Hty7.
    rewrite bool_decide_eq_false_2 by apply deflate_nonempty.
    rewrite inflate_deflate, Hneq. reflexivity.
  - destruct (recordHeader_decode OBJ_REF_DELTA size)
      as (byt & tl & Hhdr & Hty & Hdec); [cbv; split; congruence | lia |].
    rewrite Hhdr, <- !app_assoc. cbn [app]. unfold parseRecord.
    rewrite Hty.
    change (objTypeNames !! OBJ_REF_DELTA) with (Some "ref_delta"%string).
    unfold bind, lift. rewrite Hdec.
    change (OBJ_REF_DELTA =? OBJ_REF_DELTA) with true. cbv iota.
    destruct (Z.ltb_spec (len (base ++ deflate delta ++ rest)) 20) as [Hlt | _].
    { unfold len in Hlt. rewrite length_app in Hlt. lia. }
    replace 20%nat with (length base) by exact Hr.
    rewrite drop_app_length.
    rewrite bool_decide_eq_false_2 by apply deflate_nonempty.
    rewrite inflate_deflate, Hneq. reflexivity.
Qed.

End WireFormatEdges.

Section StoreInvariant.

Context {zl : Zlib}.

Lemma resolveDelta_adds (d : Delta) (st : store) :
  addsObjects st (resolveDelta d st).1.
Proof.
  unfold resolveDelta, bind, lift.
  destruct (wrap EDeltaSrcSize _) as [[srcSize n] | e |];
    [| apply addsObjects_refl ..].
  destruct (wrap EDeltaTrgSize _) as [[trgSize m] | e |];
    [| apply addsObjects_refl ..].
  pose proof (readObject_store (hash d) st) as Hst.
  destruct (readObject (hash d) st) as [st1 [[srcContent objType] | e |]];
    cbn [fst] in Hst; subst st1; [| apply addsObjects_refl ..].
  destruct (negb _); [apply addsObjects_refl |].
  destruct (parseInstructions _) as [[insts r] | e |];
    [| apply addsObjects_refl ..].
  destruct (applyInstructions _ _ _) as [trgContent | e |];
    [| apply addsObjects_refl ..].
  destruct (negb _); [apply addsObjects_refl |].
  apply addsObjects_writeObject.
Qed.

Lemma processRefDeltaObjs_adds (ds : list Delta) :
  forall st, addsObjects st (processRefDeltaObjs ds st).1.
Proof.
  induction ds as [| d ds IH]; intros st; [apply addsObjects_refl |].
  cbn [processRefDeltaObjs]. unfold bind.
  pose proof (resolveDelta_adds d st) as H1.
  destruct (resolveDelta d st) as [st1 [[] | e |]]; cbn [fst] in *;
    [| exact H1 ..].
  eapply addsObjects_trans; [exact H1 | apply IH].
Qed.

Lemma parsePackfile_adds (pack : list byte) (st : store) :
  addsObjects st (parsePackfile pack st).1.
Proof.
  unfold parsePackfile. destruct (negb _); [apply addsObjects_refl |].
  unfold bind, lift.
  destruct (getObjectsCount pack) as [objsCount | e |];
    [| apply addsObjects_refl ..].
  destruct (_ <? 12); [apply addsObjects_refl |].
  pose proof (parseRecords_outcome (Z.to_nat objsCount)
                (drop 12 (take (length pack - 20) pack)) 0 [] st) as H.
  destruct (parseRecords _ _ _ _ _) as [st' [deltas | e |]]; cbn [fst];
    [apply H | exact H | destruct H].
Qed.

(** X12. Decoding and resolving only ever put object files into the
    store, whatever the pack or the deltas and whether they succeed or
    fail: a path either holds what it held before, or holds the compressed
    serialization that its name is the SHA-1 of. So no file is removed,
    and a store in which every file is such an object file stays so. *)
Theorem unpack_adds_objects (pack : list byte) (ds : list Delta) (st : store) :
  addsObjects st (parsePackfile pack st).1
  /\ addsObjects st (processRefDeltaObjs ds st).1
  /\ addsObjects st (unpack pack st).1
  /\ forall st', addsObjects st st' ->
       (forall path, is_Some (st !! path) -> is_Some (st' !! path))
       /\ ((forall path file, st !! path = Some file -> objectFile path file) ->
           forall path file, st' !! path = Some file -> objectFile path file).
Proof.
  split; [apply parsePackfile_adds |].
  split; [apply processRefDeltaObjs_adds |]. split.
  - unfold unpack, bind. pose proof (parsePackfile_adds pack st) as H1.
    destruct (parsePackfile pack st) as [st1 [deltas | e |]]; cbn [fst] in *;
      [| exact H1 ..].
    eapply addsObjects_trans; [exact H1 | apply processRefDeltaObjs_adds].
  - intros st' Hadd. split.
    + intros path Hsome. destruct (Hadd path) as [-> | (file & -> & _)]; eauto.
    + intros Hinv path file Hfile.
      destruct (Hadd path) as [E | (file' & E & Hobj)].
      * apply Hinv. rewrite <- E. exact Hfile.
      * rewrite E in Hfile. injection Hfile as <-. exact Hobj.
Qed.

End StoreInvariant.

(** ** Object files *)

Lemma substring_all (s : string) : substring 0 (String.length s) s = s.
Proof. induction s as [| c s IH]; simpl; [reflexivity | rewrite IH; reflexivity]. Qed.

Lemma objectPath_cons (a b : ascii) (t : string) :
  objectPath (String a (String b t))
  = (".git/objects/" ++ String a (String b (String "/" t)))%string.
Proof.
  unfold objectPath, pathJoin, shard, tail. cbn [String.length].
  replace (S (S (String.length t)) - 2)%nat with (String.length t) by lia.
  cbn [substring]. rewrite substring_all.
  destruct t; reflexivity.
Qed.

Lemma objectPath_inj (h1 h2 : string) :
  (2 <= String.length h1)%nat -> (2 <= String.length h2)%nat ->
  objectPath h1 = objectPath h2 -> h1 = h2.
Proof.
  intros H1 H2.
  destruct h1 as [| a1 [| b1 t1]]; cbn [String.length] in H1; try lia.
  destruct h2 as [| a2 [| b2 t2]]; cbn [String.length] in H2; try lia.
  rewrite !objectPath_cons. simpl. intros [= -> -> ->]. reflexivity.
Qed.

Lemma hexVal_hexDigit (n : Z) : 0 <= n < 16 -> hexVal (hexDigit n) = n.
Proof.
  intros Hn. rewrite <- (Z2Nat.id n) by lia.
  assert (Hk : (Z.to_nat n < 16)%nat) by lia.
  set (k := Z.to_nat n) in *. clearbody k.
  do 16 (destruct k as [| k]; [reflexivity |]). lia.
Qed.

Lemma hexEncode_inj (bs1 : list byte) :
  forall bs2, hexEncode bs1 = hexEncode bs2 -> bs1 = bs2.
Proof.
  induction bs1 as [| b1 bs1 IH]; intros [| b2 bs2]; cbn [hexEncode];
    try discriminate; [reflexivity |].
  intros [= Hhi Hlo Htl]. f_equal; [| apply IH, Htl].
  pose proof (b2z_range b1) as R1. pose proof (b2z_range b2) as R2.
  assert (Hparts : forall b, 0 <= b2z b < 256 ->
            0 <= Z.shiftr (b2z b) 4 < 16 /\ 0 <= Z.land (b2z b) 15 < 16
            /\ b2z b = 16 * Z.shiftr (b2z b) 4 + Z.land (b2z b) 15).
  { intros b Hb. rewrite Z.shiftr_div_pow2 by lia.
    change 15 with (Z.ones 4). rewrite Z.land_ones by lia.
    change (2 ^ 4) with 16. Z.div_mod_to_equations. lia. }
  destruct (Hparts b1 R1) as (Hh1 & Hl1 & E1).
  destruct (Hparts b2 R2) as (Hh2 & Hl2 & E2).
  apply (f_equal hexVal) in Hhi, Hlo.
  rewrite !hexVal_hexDigit in Hhi, Hlo by assumption.
  rewrite <- (z2b_b2z b1), <- (z2b_b2z b2). f_equal. lia.
Qed.

Section ObjectFiles.

Context {zl : Zlib}.




End ObjectFiles.

(** ** Deltas as the format writes them *)

Lemma assemble_selected_bytes (z : Z) (idx : list Z) :
  assemble (selected (nonzero z) idx)
    (map (byteAt z) (selected (nonzero z) idx))
  = assemble idx (map (byteAt z) idx).
Proof.
  induction idx as [| i idx IH]; [reflexivity |].
  rewrite selected_cons. cbn [map assemble].
  destruct (nonzero z i) eqn:E.
  - cbn [map assemble]. rewrite IH. reflexivity.
  - rewrite IH. unfold nonzero in E. apply negb_false_iff, Z.eqb_eq in E.
    rewrite E. lia.
Qed.

Lemma assemble_bytes4 (z : Z) :
  0 <= z < 2 ^ 32 ->
  assemble [0; 1; 2; 3] (map (byteAt z) [0; 1; 2; 3]) = z.
Proof.
  intros Hz. cbn [map assemble]. unfold byteAt. rewrite !b2z_z2b.
  rewrite !Z.shiftr_div_pow2 by lia.
  change (2 ^ (8 * 0)) with 1. change (2 ^ (8 * 1)) with 256.
  change (2 ^ (8 * 2)) with 65536. change (2 ^ (8 * 3)) with 16777216.
  change (2 ^ 32) with 4294967296 in Hz.
  Z.div_mod_to_equations. lia.
Qed.

Lemma assemble_bytes3 (z : Z) :
  0 <= z < 2 ^ 24 ->
  assemble [0; 1; 2] (map (byteAt z) [0; 1; 2]) = z.
Proof.
  intros Hz. cbn [map assemble]. unfold byteAt. rewrite !b2z_z2b.
  rewrite !Z.shiftr_div_pow2 by lia.
  change (2 ^ (8 * 0)) with 1. change (2 ^ (8 * 1)) with 256.
  change (2 ^ (8 * 2)) with 65536.
  change (2 ^ 24) with 16777216 in Hz.
  Z.div_mod_to_equations. lia.
Qed.

(** The opcode of a copy: bit 7, and one bit for each byte nonzero. *)
Lemma copyOpcode_bits (offset size : Z) :
  let byt := z2b (copyOpcode offset size) in
  (Z.land (b2z byt) 0x80 =? 0) = false
  /\ (forall i, i ∈ [0; 1; 2; 3] ->
        Z.testbit (Z.land (b2z byt) 0xF) i = nonzero offset i)
  /\ (forall j, j ∈ [0; 1; 2] ->
        Z.testbit (Z.land (Z.shiftr (b2z byt) 4) 0x7) j = nonzero size j).
Proof.
  unfold copyOpcode, presenceBits. cbn [fold_right].
  destruct (nonzero offset 0) eqn:E0, (nonzero offset 1) eqn:E1,
    (nonzero offset 2) eqn:E2, (nonzero offset 3) eqn:E3,
    (nonzero size 0) eqn:S0, (nonzero size 1) eqn:S1, (nonzero size 2) eqn:S2;
    (split; [reflexivity |]);
    (split; intros i Hi; set_unfold in Hi;
       [destruct Hi as [-> | [-> | [-> | [-> | []]]]];
          [rewrite E0 | rewrite E1 | rewrite E2 | rewrite E3]
       | destruct Hi as [-> | [-> | [-> | []]]];
          [rewrite S0 | rewrite S1 | rewrite S2]];
       reflexivity).
Qed.

Lemma parseInstruction_copy (offset size : Z) (rest : list byte) (off : Z) :
  0 <= offset < 2 ^ 32 -> 1 <= size < 2 ^ 24 ->
  match encodeOp (OpCopy offset size) ++ rest with
  | byt :: tl =>
      parseInstruction byt tl off
      = Ok (instructionOf (OpCopy offset size),
            off + len (encodeOp (OpCopy offset size)) - 1, rest)
  | [] => False
  end.
Proof.
  intros Hoffset Hsize. cbn [encodeOp app].
  destruct (copyOpcode_bits offset size) as (Hbit7 & Hoff & Hsz).
  cbv zeta in Hbit7, Hoff, Hsz.
  unfold parseInstruction. rewrite Hbit7. cbn [negb].
  rewrite <- app_assoc.
  rewrite (readOperand_assemble _ 0 (nonzero offset));
    [| lia | simpl; lia | simpl; lia | exact Hoff | apply length_map].
  cbn [obind].
  rewrite (readOperand_assemble _ 0 (nonzero size));
    [| lia | simpl; lia | simpl; lia | exact Hsz | apply length_map].
  cbn [obind].
  rewrite !assemble_selected_bytes, assemble_bytes4, assemble_bytes3 by lia.
  rewrite !Z.add_0_l.
  destruct (Z.eqb_spec size 0) as [E | _]; [lia |].
  cbn [instructionOf]. do 3 f_equal.
  unfold len. cbn [length]. rewrite length_app. lia.
Qed.

Lemma parseInstruction_encodeOp (o : op) (rest : list byte) (off : Z) :
  wfOp o ->
  match encodeOp o ++ rest with
  | byt :: tl =>
      parseInstruction byt tl off
      = Ok (instructionOf o, off + len (encodeOp o) - 1, rest)
  | [] => False
  end.
Proof.
  destruct o as [offset size | lit]; cbn [wfOp].
  - intros [Hoffset Hsize]. apply parseInstruction_copy; assumption.
  - intros Hlit. cbn [encodeOp app instructionOf].
    assert (Hnn : 0 <= len lit) by (unfold len; lia).
    assert (Hv : b2z (z2b (len lit)) = len lit)
      by (rewrite b2z_z2b; apply Z.mod_small; lia).
    rewrite parseInstruction_insert.
    + do 3 f_equal. unfold len. cbn [length]. lia.
    + rewrite Hv. apply Z.testbit_false; [lia |].
      rewrite Z.div_small by (change (2 ^ 7) with 128; lia). reflexivity.
    + symmetry. exact Hv.
Qed.

Lemma parseInstructions_concat (ops : list op) :
  Forall wfOp ops ->
  parseInstructions (concat (map encodeOp ops))
  = Ok (map instructionOf ops, len (concat (map encodeOp ops))).
Proof.
  induction ops as [| o ops IH]; intros Hwf; [reflexivity |].
  apply Forall_cons in Hwf as [Ho Hwf]. cbn [map concat].
  pose proof (parseInstruction_encodeOp o (concat (map encodeOp ops)) 1 Ho)
    as Hone.
  destruct (encodeOp o ++ concat (map encodeOp ops)) as [| byt tl] eqn:E;
    [destruct Hone |].
  rewrite parseInstructions_cons, Hone. cbn [obind].
  rewrite IH by exact Hwf. cbn [obind]. do 2 f_equal.
  apply (f_equal length) in E. rewrite length_app in E. cbn [length] in E.
  unfold len. cbn [length]. lia.
Qed.

Lemma applyInstructions_instructionOf (src : list byte) (ops : list op) :
  forall trg,
    Forall wfOp ops ->
    applyInstructions src trg (map instructionOf ops)
    = match patch src ops with
      | Some out => Ok (trg ++ out)
      | None => Err ECopyRange
      end.
Proof.
  induction ops as [| o ops IH]; intros trg Hwf.
  - cbn. rewrite app_nil_r. reflexivity.
  - apply Forall_cons in Hwf as [Ho Hwf].
    cbn [map applyInstructions patch].
    destruct o as [offset size | lit]; cbn [wfOp instructionOf opBytes] in *.
    + destruct Ho as [Hoffset Hsize]. unfold applyInstruction.
      cbn [instType instSize instOffset].
      change (INST_TYPE_COPY =? INST_TYPE_COPY) with true. cbv iota.
      change (2 ^ 32) with 4294967296 in Hoffset.
      change (2 ^ 24) with 16777216 in Hsize.
      unfold add64.
      rewrite int64_small by (change (2 ^ 63) with 9223372036854775808; lia).
      destruct (Z.leb_spec (offset + size) (len src)) as [Hle | Hgt].
      * destruct (Z.ltb_spec (len src) (offset + size)); [lia |].
        destruct (Z.ltb_spec offset 0); [lia |].
        destruct (Z.ltb_spec (offset + size) offset); [lia |].
        cbn [orb obind]. rewrite IH by exact Hwf.
        rewrite take_drop_slice by lia.
        destruct (patch src ops); cbn [fmap option_fmap option_map];
          [rewrite app_assoc |]; reflexivity.
      * destruct (Z.ltb_spec (len src) (offset + size)); [| lia].
        reflexivity.
    + unfold applyInstruction, insertOf.
      cbn [instType instSize instData].
      change (INST_TYPE_ADD =? INST_TYPE_COPY) with false. cbv iota.
      rewrite Z.eqb_refl. cbn [negb obind]. rewrite IH by exact Hwf.
      destruct (patch src ops); cbn [fmap option_fmap option_map];
        [rewrite app_assoc |]; reflexivity.
Qed.

(** X15. A stream of instructions as the format writes them (a copy with
    the bytes of its offset and size that are not zero, an insert with
    its length and its bytes) is decoded by [parseInstructions] into those
    instructions, with the cursor at the end of the stream; and applying
    them to a base gives what the instructions say: the stretches of the
    base and the literal bytes one after the other, or the copy-range
    error when a copy reaches beyond the base. *)
Theorem delta_ops_round_trip (ops : list op) :
  Forall wfOp ops ->
  parseInstructions (concat (map encodeOp ops))
  = Ok (map instructionOf ops, len (concat (map encodeOp ops)))
  /\ forall src trg,
      applyInstructions src trg (map instructionOf ops)
      = match patch src ops with
        | Some out => Ok (trg ++ out)
        | None => Err ECopyRange
        end.
Proof.
  intros Hwf. split; [apply parseInstructions_concat, Hwf |].
  intros src trg. apply applyInstructions_instructionOf, Hwf.
Qed.

Section EncodedDelta.

Context {zl : Zlib}.

(** X16. Resolving a delta as the format writes it, on a base the store
    holds: the declared source size is compared with the base, the
    instructions are applied, the declared target size is compared with
    the result, and the target is written under the kind of the base; each
    failure is returned with the store as it was. *)
Theorem resolveDelta_encodeDelta (base : string) (srcSize trgSize : Z)
    (ops : list op) (st : store) (src : list byte) (kind : string) :
  readObject base st = (st, Ok (src, kind)) ->
  0 <= srcSize < 2 ^ 63 -> 0 <= trgSize < 2 ^ 63 -> Forall wfOp ops ->
  resolveDelta {| hash := base; data := encodeDelta srcSize trgSize ops |} st
  = if negb (len src =? srcSize) then
      (st, Err (ESrcSizeMismatch srcSize (len src)))
    else
      match patch src ops with
      | None => (st, Err ECopyRange)
      | Some trg =>
          if negb (len trg =? trgSize) then
            (st, Err (ETrgSizeMismatch trgSize (len trg)))
          else writeObject trg kind st
      end.
Proof.
  intros Hread Hsrc Htrg Hwf. unfold resolveDelta, bind, lift.
  cbn [hash data]. unfold encodeDelta.
  change (drop (Z.to_nat 0) ?l) with l.
  rewrite (parseVarInt_encode srcSize
             (encodeVarInt trgSize ++ concat (map encodeOp ops)) Hsrc).
  cbn [wrap]. rewrite Z.add_0_l. unfold len at 1. rewrite Nat2Z.id.
  rewrite drop_app_length.
  rewrite (parseVarInt_encode trgSize (concat (map encodeOp ops)) Htrg).
  cbn [wrap]. rewrite Hread.
  destruct (negb (len src =? srcSize)); [reflexivity |].
  replace (Z.to_nat (len (encodeVarInt srcSize) + len (encodeVarInt trgSize)))
    with (length (encodeVarInt srcSize) + length (encodeVarInt trgSize))%nat
    by (unfold len; lia).
  rewrite <- drop_drop, !drop_app_length.
  rewrite parseInstructions_concat by exact Hwf.
  rewrite applyInstructions_instructionOf by exact Hwf.
  destruct (patch src ops) as [trg |]; [| reflexivity].
  cbn [app]. destruct (negb (len trg =? trgSize)); reflexivity.
Qed.

End EncodedDelta.

(** ** What the instruction decoder returns *)










Section ResolverOutcome.

Context {zl : Zlib}.



End ResolverOutcome.

(** ** The fetch *)

Lemma Split_nonempty (s : list byte) (sep : byte) : Split s sep <> [].
Proof.
  destruct s as [| c s]; cbn [Split]; [discriminate |].
  destruct (decide (c = sep)); [discriminate |].
  destruct (Split s sep); discriminate.
Qed.

Lemma Split_no_sep (s : list byte) (sep : byte) :
  sep ∉ s -> Split s sep = [s].
Proof.
  induction s as [| c s IH]; intros Hnot; [reflexivity |].
  apply not_elem_of_cons in Hnot as [Hne Hnot]. cbn [Split].
  rewrite decide_False by congruence. rewrite IH by exact Hnot. reflexivity.
Qed.

Lemma Split_app_sep (a b : list byte) (sep : byte) :
  sep ∉ a -> Split (a ++ sep :: b) sep = a :: Split b sep.
Proof.
  induction a as [| c a IH]; intros Hnot; cbn [app Split].
  - rewrite decide_True by reflexivity. reflexivity.
  - apply not_elem_of_cons in Hnot as [Hne Hnot].
    rewrite decide_False by congruence. rewrite IH by exact Hnot. reflexivity.
Qed.

Lemma Split_joinWith (sep : byte) (parts : list (list byte)) :
  parts <> [] -> Forall (fun p => sep ∉ p) parts ->
  Split (joinWith sep parts) sep = parts.
Proof.
  induction parts as [| p parts IH]; intros Hne Hall; [congruence |].
  apply Forall_cons in Hall as [Hp Hall].
  destruct parts as [| q parts]; cbn [joinWith].
  - apply Split_no_sep, Hp.
  - rewrite Split_app_sep by exact Hp. f_equal. apply IH; [discriminate | exact Hall].
Qed.

Lemma joinWith_cons (sep : byte) (p : list byte) (parts : list (list byte)) :
  parts <> [] -> joinWith sep (p :: parts) = p ++ sep :: joinWith sep parts.
Proof. destruct parts; [congruence | reflexivity]. Qed.

Lemma joinWith_Split (s : list byte) (sep : byte) :
  joinWith sep (Split s sep) = s.
Proof.
  induction s as [| c s IH]; [reflexivity |]. cbn [Split].
  pose proof (Split_nonempty s sep) as Hnil.
  destruct (decide (c = sep)) as [-> | Hne].
  - rewrite joinWith_cons by exact Hnil. rewrite IH. reflexivity.
  - destruct (Split s sep) as [| w ws]; [congruence |].
    rewrite <- IH. destruct ws; reflexivity.
Qed.

Lemma Split_pieces (s : list byte) (sep : byte) :
  Forall (fun p => sep ∉ p) (Split s sep).
Proof.
  induction s as [| c s IH]; cbn [Split].
  - constructor; [apply not_elem_of_nil | constructor].
  - destruct (decide (c = sep)) as [-> | Hne].
    + constructor; [apply not_elem_of_nil | exact IH].
    + destruct (Split s sep) as [| w ws].
      * constructor; [| constructor].
        apply not_elem_of_cons. split; [congruence | apply not_elem_of_nil].
      * apply Forall_cons in IH as [Hw Hws]. constructor; [| exact Hws].
        apply not_elem_of_cons. split; [congruence | exact Hw].
Qed.

Lemma joinWith_elem (sep : byte) (parts : list (list byte)) (p : list byte) :
  p ∈ parts -> exists a b, joinWith sep parts = a ++ p ++ b.
Proof.
  induction parts as [| q parts IH]; intros Hin; [set_solver |].
  apply elem_of_cons in Hin as [-> | Hin].
  - destruct parts as [| r parts].
    + exists [], []. cbn [joinWith app]. rewrite app_nil_r. reflexivity.
    + exists [], (sep :: joinWith sep (r :: parts)). reflexivity.
  - destruct (IH Hin) as (a & b & E).
    assert (Hne : parts <> []) by (intros ->; set_solver).
    rewrite joinWith_cons by exact Hne. rewrite E.
    exists (q ++ sep :: a), b. rewrite <- app_assoc. reflexivity.
Qed.

(** Every piece of a split is a stretch of the string, without the
    separator. *)
Lemma Split_elem (s : list byte) (sep : byte) (p : list byte) :
  p ∈ Split s sep -> (sep ∉ p) /\ exists a b, s = a ++ p ++ b.
Proof.
  intros Hin. split.
  - pose proof (Split_pieces s sep) as Hall.
    rewrite Forall_forall in Hall. apply Hall, Hin.
  - destruct (joinWith_elem sep _ p Hin) as (a & b & E).
    rewrite joinWith_Split in E. eauto.
Qed.

Lemma HasPrefix_iff (s prefix : list byte) :
  HasPrefix s prefix = true <-> exists b, s = prefix ++ b.
Proof.
  revert s. induction prefix as [| p prefix IH]; intros s; cbn [HasPrefix].
  - split; [intros _; exists s; reflexivity | reflexivity].
  - destruct s as [| c s].
    + split; [discriminate | intros [b E]; discriminate].
    + rewrite andb_true_iff, bool_decide_eq_true, IH. split.
      * intros [-> [b ->]]. exists b. reflexivity.
      * intros [b [= -> ->]]. split; [reflexivity | exists b; reflexivity].
Qed.

Lemma Contains_iff (s substr : list byte) :
  Contains s substr = true <-> exists a b, s = a ++ substr ++ b.
Proof.
  induction s as [| c s IH]; cbn [Contains].
  - rewrite orb_false_r, HasPrefix_iff. split.
    + intros [b E]. exists [], b. exact E.
    + intros (a & b & E). symmetry in E.
      apply app_eq_nil in E as [-> E]. exists b. rewrite E. reflexivity.
  - rewrite orb_true_iff, HasPrefix_iff, IH. split.
    + intros [[b E] | (a & b & E)].
      * exists [], b. exact E.
      * exists (c :: a), b. rewrite E. reflexivity.
    + intros (a & b & E). destruct a as [| a0 a].
      * left. exists b. exact E.
      * right. injection E as _ E. exists a, b. exact E.
Qed.

Lemma Contains_piece (s p substr : list byte) (sep : byte) :
  p ∈ Split s sep -> Contains s substr = false -> Contains p substr = false.
Proof.
  intros Hin Hs. apply Split_elem in Hin as (_ & a & b & ->).
  apply not_true_iff_false. intros Hp.
  apply Contains_iff in Hp as (a' & b' & ->).
  apply not_true_iff_false in Hs. apply Hs. apply Contains_iff.
  exists (a ++ a'), (b' ++ b). rewrite <- !app_assoc. reflexivity.
Qed.

Lemma HasSuffix_app (a suffix : list byte) : HasSuffix (a ++ suffix) suffix = true.
Proof.
  unfold HasSuffix. rewrite length_app. apply andb_true_iff. split.
  - apply Nat.leb_le. lia.
  - apply bool_decide_eq_true.
    replace (length a + length suffix - length suffix)%nat with (length a) by lia.
    apply drop_app_length.
Qed.

Lemma HasSuffix_iff (s suffix : list byte) :
  HasSuffix s suffix = true <-> exists a, s = a ++ suffix.
Proof.
  split; [| intros [a ->]; apply HasSuffix_app].
  unfold HasSuffix. rewrite andb_true_iff, bool_decide_eq_true.
  intros [_ E]. exists (take (length s - length suffix) s).
  pose proof (take_drop (length s - length suffix) s) as Hs.
  rewrite E in Hs. symmetry. exact Hs.
Qed.

(** *** Fields *)

Lemma DecodeRune_plain (c : byte) (s : list byte) :
  plainByte c -> DecodeRune (c :: s) = (b2z c, 1%nat) /\ IsSpace (b2z c) = false.
Proof.
  intros [Hlo Hhi]. split.
  - unfold DecodeRune. cbn [take map].
    destruct (Z.ltb_spec (b2z c) 128); [reflexivity | lia].
  - unfold IsSpace. destruct (Z.leb_spec (b2z c) 255); [| lia].
    apply bool_decide_eq_false. set_unfold. lia.
Qed.

Lemma FieldsFrom_plain (w : list byte) :
  forall s keep cur,
    Forall plainByte w ->
    exists keep', FieldsFrom (w ++ s) 0 keep cur = FieldsFrom s 0 keep' (cur ++ w).
Proof.
  induction w as [| c w IH]; intros s keep cur Hall.
  - exists keep. rewrite app_nil_r. reflexivity.
  - apply Forall_cons in Hall as [Hc Hall]. cbn [app FieldsFrom].
    destruct (DecodeRune_plain c (w ++ s) Hc) as [-> ->].
    cbn [Nat.sub]. destruct (IH s true (cur ++ [c]) Hall) as [keep' E].
    exists keep'. rewrite E, <- app_assoc. reflexivity.
Qed.

Lemma Fields_first (w rest : list byte) :
  w <> [] -> Forall plainByte w ->
  exists fields, Fields (w ++ " "%byte :: rest) = w :: fields.
Proof.
  intros Hne Hall. unfold Fields.
  destruct (FieldsFrom_plain w (" "%byte :: rest) false [] Hall) as [keep' ->].
  cbn [app FieldsFrom].
  change (DecodeRune (" "%byte :: rest)) with (32, 1%nat).
  change (IsSpace 32) with true. cbv iota.
  rewrite bool_decide_eq_false_2 by exact Hne.
  eexists. reflexivity.
Qed.

Lemma branchOfWord_other (d w : list byte) :
  Contains w (str2bytes "HEAD:refs/heads") = false -> branchOfWord d w = d.
Proof. intros H. unfold branchOfWord. rewrite H. reflexivity. Qed.

Lemma foldl_branchOfWord_other (words : list (list byte)) :
  forall d,
    Forall (fun w => Contains w (str2bytes "HEAD:refs/heads") = false) words ->
    foldl branchOfWord d words = d.
Proof.
  induction words as [| w words IH]; intros d Hall; [reflexivity |].
  apply Forall_cons in Hall as [Hw Hall]. cbn [foldl].
  rewrite branchOfWord_other by exact Hw. apply IH, Hall.
Qed.

Lemma branchOfWord_symref (d pre branch : list byte) :
  "/"%byte ∉ pre -> "/"%byte ∉ branch ->
  branchOfWord d (pre ++ str2bytes "HEAD:refs/heads" ++ "/"%byte :: branch)
  = branch.
Proof.
  intros Hpre Hbranch. unfold branchOfWord.
  assert (Hc : Contains (pre ++ str2bytes "HEAD:refs/heads"
                           ++ "/"%byte :: branch)
                 (str2bytes "HEAD:refs/heads") = true).
  { apply Contains_iff. exists pre, ("/"%byte :: branch). reflexivity. }
  rewrite Hc.
  change (str2bytes "HEAD:refs/heads")
    with (str2bytes "HEAD:refs" ++ "/"%byte :: str2bytes "heads").
  rewrite <- !app_assoc. cbn [app].
  rewrite app_assoc.
  rewrite Split_app_sep.
  2:{ rewrite not_elem_of_app. split; [exact Hpre |].
      apply (bool_decide_unpack _). reflexivity. }
  rewrite (Split_app_sep (str2bytes "heads")).
  2:{ apply (bool_decide_unpack _). reflexivity. }
  rewrite Split_no_sep by exact Hbranch. reflexivity.
Qed.

(** What the loop over the words of a line leaves in [defaultBranch]. *)
Lemma foldl_branchOfWord (words : list (list byte)) :
  forall d,
    foldl branchOfWord d words = d
    \/ exists w, w ∈ words
         /\ Contains w (str2bytes "HEAD:refs/heads") = true
         /\ Split w "/"%byte !! 2%nat = Some (foldl branchOfWord d words).
Proof.
  induction words as [| w words IH]; intros d; [left; reflexivity |].
  cbn [foldl]. destruct (IH (branchOfWord d w)) as [E | (w' & Hin & Hc & Hp)].
  - rewrite E. unfold branchOfWord.
    destruct (Contains w _) eqn:Hc; [| left; reflexivity].
    destruct (Split w "/"%byte) as [| p0 [| p1 [| p2 rest]]] eqn:Hs;
      try (left; reflexivity).
    right. exists w. split; [left |]. split; [exact Hc |].
    rewrite Hs. reflexivity.
  - right. exists w'. split; [right; exact Hin | auto].
Qed.

Lemma scanLines_found (lines : list (list byte)) :
  forall d mainHash defaultBranch,
    scanLines d lines = Got (mainHash, defaultBranch) ->
    exists branch refLine field0 fields,
      defaultBranch = bytes2str branch /\ branch <> []
      /\ (d <> [] -> branch = d)
      /\ (d = [] ->
          exists capLine word,
            capLine ∈ lines /\ word ∈ Split capLine " "%byte
            /\ Contains word (str2bytes "HEAD:refs/heads") = true
            /\ Split word "/"%byte !! 2%nat = Some branch)
      /\ refLine ∈ lines
      /\ HasSuffix refLine (str2bytes "refs/heads/" ++ branch) = true
      /\ Fields refLine = field0 :: fields
      /\ 4 < len field0
      /\ mainHash = bytes2str (drop 4 field0).
Proof.
  induction lines as [| line lines IH]; intros d mainHash defaultBranch;
    cbn [scanLines]; [discriminate |].
  assert (Hnext : forall d',
             d' <> [] -> 
             scanLines d' lines = Got (mainHash, defaultBranch) ->
             exists branch refLine field0 fields,
               defaultBranch = bytes2str branch /\ branch <> []
               /\ branch = d'
               /\ refLine ∈ line :: lines
               /\ HasSuffix refLine (str2bytes "refs/heads/" ++ branch) = true
               /\ Fields refLine = field0 :: fields
               /\ 4 < len field0
               /\ mainHash = bytes2str (drop 4 field0)).
  { intros d' Hd' H. apply IH in H
      as (branch & refLine & field0 & fields & Hb & Hne & Hd & _ & Hin & Hrest).
    exists branch, refLine, field0, fields.
    split; [exact Hb |]. split; [exact Hne |]. split; [apply Hd, Hd' |].
    split; [right; exact Hin | exact Hrest]. }
  case_bool_decide as Hd.
  - subst d. intros H.
    destruct (decide (foldl branchOfWord [] (Split line " "%byte) = []))
      as [E | Hne].
    + rewrite E in H. apply IH in H
        as (branch & refLine & field0 & fields & Hb & Hnil & _ & Hcap & Hin
            & Hrest).
      destruct (Hcap eq_refl) as (capLine & word & Hcin & Hw).
      exists branch, refLine, field0, fields.
      split; [exact Hb |]. split; [exact Hnil |]. split; [congruence |].
      split; [| split; [right; exact Hin | exact Hrest]].
      intros _. exists capLine, word. split; [right; exact Hcin | exact Hw].
    + destruct (Hnext _ Hne H)
        as (branch & refLine & field0 & fields & Hb & Hnil & Hbd & Hrest).
      exists branch, refLine, field0, fields.
      split; [exact Hb |]. split; [exact Hnil |]. split; [congruence |].
      split; [| exact Hrest].
      intros _. exists line.
      destruct (foldl_branchOfWord (Split line " "%byte) [])
        as [E | (w & Hin & Hc & Hp)]; [congruence |].
      exists w. split; [left |]. split; [exact Hin |]. split; [exact Hc |].
      rewrite Hbd. exact Hp.
  - assert (Hhere : forall field0 fields,
               HasSuffix line (str2bytes "refs/heads/" ++ d) = true ->
               Fields line = field0 :: fields -> 4 < len field0 ->
               Got (bytes2str (drop 4 field0), bytes2str d)
               = Got (mainHash, defaultBranch) ->
               exists branch refLine field0 fields,
                 defaultBranch = bytes2str branch /\ branch <> []
                 /\ (d <> [] -> branch = d)
                 /\ (d = [] ->
                     exists capLine word,
                       capLine ∈ line :: lines /\ word ∈ Split capLine " "%byte
                       /\ Contains word (str2bytes "HEAD:refs/heads") = true
                       /\ Split word "/"%byte !! 2%nat = Some branch)
                 /\ refLine ∈ line :: lines
                 /\ HasSuffix refLine (str2bytes "refs/heads/" ++ branch) = true
                 /\ Fields refLine = field0 :: fields
                 /\ 4 < len field0
                 /\ mainHash = bytes2str (drop 4 field0)).
    { intros field0 fields Hsuf Hf Hlen [= <- <-].
      exists d, line, field0, fields.
      split; [reflexivity |]. split; [exact Hd |]. split; [reflexivity |].
      split; [congruence |]. split; [left |]. auto. }
    assert (Hskip : scanLines d lines = Got (mainHash, defaultBranch) ->
               exists branch refLine field0 fields,
                 defaultBranch = bytes2str branch /\ branch <> []
                 /\ (d <> [] -> branch = d)
                 /\ (d = [] ->
                     exists capLine word,
                       capLine ∈ line :: lines /\ word ∈ Split capLine " "%byte
                       /\ Contains word (str2bytes "HEAD:refs/heads") = true
                       /\ Split word "/"%byte !! 2%nat = Some branch)
                 /\ refLine ∈ line :: lines
                 /\ HasSuffix refLine (str2bytes "refs/heads/" ++ branch) = true
                 /\ Fields refLine = field0 :: fields
                 /\ 4 < len field0
                 /\ mainHash = bytes2str (drop 4 field0)).
    { intros H. destruct (Hnext d Hd H)
        as (branch & refLine & field0 & fields & Hb & Hnil & Hbd & Hrest).
      exists branch, refLine, field0, fields.
      split; [exact Hb |]. split; [exact Hnil |]. split; [congruence |].
      split; [congruence | exact Hrest]. }
    destruct (HasSuffix line _) eqn:Hsuf; [| exact Hskip].
    destruct (Fields line) as [| field0 fields] eqn:Hf; [exact Hskip |].
    destruct (Z.ltb_spec 4 (len field0)); [| exact Hskip].
    apply (Hhere field0 fields); auto.
Qed.

Lemma scanLines_advertisement (before mid after : list (list byte))
    (capLine refLine : list byte) (wordsBefore wordsAfter : list (list byte))
    (pre pkt oid branch : list byte) :
  Forall (fun l => Contains l (str2bytes "HEAD:refs/heads") = false) before ->
  capLine = joinWith " "%byte
              (wordsBefore
                 ++ (pre ++ str2bytes "HEAD:refs/heads" ++ "/"%byte :: branch)
                 :: wordsAfter) ->
  Forall (fun w => " "%byte ∉ w)
    (wordsBefore
       ++ (pre ++ str2bytes "HEAD:refs/heads" ++ "/"%byte :: branch)
       :: wordsAfter) ->
  "/"%byte ∉ pre -> "/"%byte ∉ branch -> branch <> [] ->
  Forall (fun w => Contains w (str2bytes "HEAD:refs/heads") = false)
    wordsAfter ->
  Forall (fun l => HasSuffix l (str2bytes "refs/heads/" ++ branch) = false)
    mid ->
  refLine = pkt ++ oid ++ " "%byte :: str2bytes "refs/heads/" ++ branch ->
  length pkt = 4%nat -> oid <> [] -> Forall plainByte (pkt ++ oid) ->
  scanLines [] (before ++ capLine :: mid ++ refLine :: after)
  = Got (bytes2str oid, bytes2str branch).
Proof.
  intros Hbefore -> Hwords Hpre Hbranch Hne Hafter Hmid -> Hpkt Hoid Hplain.
  induction before as [| l before IH].
  - cbn [app scanLines]. rewrite bool_decide_eq_true_2 by reflexivity.
    rewrite Split_joinWith by (exact Hwords || (destruct wordsBefore; discriminate)).
    rewrite foldl_app. cbn [foldl].
    rewrite branchOfWord_symref by assumption.
    rewrite foldl_branchOfWord_other by exact Hafter.
    clear Hwords Hafter Hbefore.
    induction mid as [| l mid IHmid].
    + cbn [app scanLines]. rewrite bool_decide_eq_false_2 by exact Hne.
      replace (pkt ++ oid ++ " "%byte :: str2bytes "refs/heads/" ++ branch)
        with ((pkt ++ oid ++ [" "%byte]) ++ str2bytes "refs/heads/" ++ branch)
        by (rewrite <- !app_assoc; reflexivity).
      rewrite HasSuffix_app.
      replace ((pkt ++ oid ++ [" "%byte]) ++ str2bytes "refs/heads/" ++ branch)
        with ((pkt ++ oid) ++ " "%byte :: str2bytes "refs/heads/" ++ branch)
        by (rewrite <- !app_assoc; reflexivity).
      destruct (Fields_first (pkt ++ oid)
                  (str2bytes "refs/heads/" ++ branch)) as [fields ->];
        [destruct pkt; discriminate | exact Hplain |].
      assert (Hlen : 4 < len (pkt ++ oid)).
      { unfold len. rewrite length_app, Hpkt.
        destruct oid; [congruence | cbn [length]; lia]. }
      destruct (Z.ltb_spec 4 (len (pkt ++ oid))); [| lia].
      replace 4%nat with (length pkt) by exact Hpkt.
      rewrite drop_app_length. reflexivity.
    + apply Forall_cons in Hmid as [Hl Hmid]. cbn [app scanLines].
      rewrite bool_decide_eq_false_2 by exact Hne. rewrite Hl.
      apply IHmid, Hmid.
  - apply Forall_cons in Hbefore as [Hl Hbefore]. cbn [app scanLines].
    rewrite bool_decide_eq_true_2 by reflexivity.
    rewrite foldl_branchOfWord_other; [apply IH, Hbefore |].
    rewrite Forall_forall. intros w Hw.
    eapply Contains_piece; eassumption.
Qed.

Lemma stretch_not_elem (c : byte) (s a p b : list byte) :
  s = a ++ p ++ b -> c ∉ s -> c ∉ p.
Proof. intros -> H. rewrite !not_elem_of_app in H. tauto. Qed.

Section Fetch.

Context {http : Http}.

(** X19. What [getMainHash] has found when it returns a hash and a
    branch: the response had a status below 400; the branch is the third
    piece, split at slashes, of a word of some line that contains
    HEAD:refs/heads, so it is not empty and holds no slash, space or line
    feed; and the hash is the first field of a line that ends in
    refs/heads/ and the branch, without its first four bytes, and is not
    empty. *)
Theorem getMainHash_found (repoURL mainHash defaultBranch : string) :
  getMainHash repoURL = Got (mainHash, defaultBranch) ->
  exists StatusCode body capLine word refLine pkt,
    httpGet (repoURL ++ "/info/refs?service=git-upload-pack")
    = Reply StatusCode (Some body)
    /\ StatusCode < 400
    /\ capLine ∈ Split body "010"%byte
    /\ word ∈ Split capLine " "%byte
    /\ Contains word (str2bytes "HEAD:refs/heads") = true
    /\ Split word "/"%byte !! 2%nat = Some (str2bytes defaultBranch)
    /\ refLine ∈ Split body "010"%byte
    /\ HasSuffix refLine (str2bytes "refs/heads/" ++ str2bytes defaultBranch)
       = true
    /\ head (Fields refLine) = Some (pkt ++ str2bytes mainHash)
    /\ length pkt = 4%nat
    /\ mainHash <> ""%string /\ defaultBranch <> ""%string
    /\ Forall (fun c => c ∉ ["/"; " "; "010"]%byte) (str2bytes defaultBranch).
Proof.
  unfold getMainHash.
  destruct (httpGet _) as [| | StatusCode [body |]] eqn:Hget; try discriminate.
  - destruct (Z.leb_spec 400 StatusCode) as [| Hstatus]; [discriminate |].
    intros Hscan. apply scanLines_found in Hscan
      as (branch & refLine & field0 & fields & -> & Hne & _ & Hcap & Hin
          & Hsuf & Hfields & Hlen & ->).
    destruct (Hcap eq_refl) as (capLine & word & Hcin & Hwin & Hc & Hp).
    exists StatusCode, body, capLine, word, refLine, (take 4 field0).
    rewrite !str2bytes_bytes2str, take_drop, Hfields.
    repeat (split; [first [reflexivity | assumption | lia] |]).
    split; [rewrite length_take; unfold len in Hlen; lia |].
    split.
    { intros E. apply (f_equal str2bytes) in E.
      rewrite str2bytes_bytes2str in E. apply (f_equal length) in E.
      rewrite length_drop in E. unfold len in Hlen. cbn in E. lia. }
    split.
    { intros E. apply (f_equal str2bytes) in E.
      rewrite str2bytes_bytes2str in E. exact (Hne E). }
    apply list_elem_of_lookup_2 in Hp.
    apply Split_elem in Hp as (Hslash & a1 & b1 & Eword).
    apply Split_elem in Hwin as (Hspace & a2 & b2 & Ecap).
    apply Split_elem in Hcin as (Hnl & _).
    pose proof (stretch_not_elem _ _ _ _ _ Eword Hspace) as Hspace'.
    pose proof (stretch_not_elem _ _ _ _ _ Ecap Hnl) as Hnl'.
    pose proof (stretch_not_elem _ _ _ _ _ Eword Hnl') as Hnl''.
    rewrite Forall_forall. intros c Hc' Hbad. set_unfold in Hbad.
    destruct Hbad as [-> | [-> | [-> | []]]]; contradiction.
  - destruct (400 <=? StatusCode); discriminate.
Qed.

(** X20. [getMainHash] on an advertisement as a server sends it: lines
    that do not mention HEAD:refs/heads; then a line one word of which is
    some text without slash followed by HEAD:refs/heads/ and the branch,
    the words after it not mentioning HEAD:refs/heads; then lines of other
    references; then the line of four length characters, the OID, a space
    and refs/heads/ followed by the branch. It returns that OID and that
    branch, whatever lines follow. *)
Theorem getMainHash_advertisement (repoURL : string) (StatusCode : Z)
    (before mid after : list (list byte)) (capLine refLine : list byte)
    (wordsBefore wordsAfter : list (list byte))
    (pre pkt oid branch : list byte) :
  let lines := before ++ capLine :: mid ++ refLine :: after in
  let symref := pre ++ str2bytes "HEAD:refs/heads" ++ "/"%byte :: branch in
  httpGet (repoURL ++ "/info/refs?service=git-upload-pack")
  = Reply StatusCode (Some (joinWith "010"%byte lines)) ->
  StatusCode < 400 ->
  Forall (fun l => "010"%byte ∉ l) lines ->
  Forall (fun l => Contains l (str2bytes "HEAD:refs/heads") = false) before ->
  capLine = joinWith " "%byte (wordsBefore ++ symref :: wordsAfter) ->
  Forall (fun w => " "%byte ∉ w) (wordsBefore ++ symref :: wordsAfter) ->
  "/"%byte ∉ pre -> "/"%byte ∉ branch -> branch <> [] ->
  Forall (fun w => Contains w (str2bytes "HEAD:refs/heads") = false)
    wordsAfter ->
  Forall (fun l => HasSuffix l (str2bytes "refs/heads/" ++ branch) = false)
    mid ->
  refLine = pkt ++ oid ++ " "%byte :: str2bytes "refs/heads/" ++ branch ->
  length pkt = 4%nat -> oid <> [] -> Forall plainByte (pkt ++ oid) ->
  getMainHash repoURL = Got (bytes2str oid, bytes2str branch).
Proof.
  intros lines symref Hget Hstatus Hlines Hbefore Hcap Hwords Hpre Hbranch Hne
    Hafter Hmid Href Hpkt Hoid Hplain.
  unfold getMainHash. rewrite Hget.
  destruct (Z.leb_spec 400 StatusCode); [lia |].
  rewrite Split_joinWith;
    [| unfold lines; destruct before; discriminate | exact Hlines].
  eapply scanLines_advertisement; eassumption.
Qed.

Lemma length_str2bytes (s : string) : length (str2bytes s) = String.length s.
Proof.
  unfold str2bytes, list_byte_of_string.
  induction s as [| c s IH]; simpl; [reflexivity | rewrite IH; reflexivity].
Qed.

(** X21. The request of [getPackfile] is three pkt-lines: the want line,
    the flush 0000 and the line 0009done of 9 bytes. The want line
    declares the length 0x32, which is its length exactly when the hash
    has 40 characters. *)
Theorem reqBody_pkt_lines (mainHash : string) :
  exists want,
    reqBody mainHash
    = want ++ str2bytes "0000" ++ str2bytes "0009done" ++ ["010"%byte]
    /\ take 4 want = str2bytes "0032"
    /\ (len want = 0x32 <-> String.length mainHash = 40%nat)
    /\ len (str2bytes "0009done" ++ ["010"%byte]) = 0x9.
Proof.
  exists (str2bytes ("0032want " ++ mainHash ++ nl)).
  split; [| split; [| split]].
  - unfold reqBody. rewrite !str2bytes_app. reflexivity.
  - reflexivity.
  - unfold len. rewrite !str2bytes_app, !length_app, !length_str2bytes.
    cbn [String.length nl]. lia.
  - reflexivity.
Qed.

(** X22. [getPackfile] returns a pack exactly when the response body is
    four bytes, the three bytes NAK, one more byte and the pack: the four
    bytes of the length, the byte after NAK and the status code of the
    response are not looked at. *)
Theorem getPackfile_reply (repoURL mainHash : string) (pack : list byte) :
  getPackfile repoURL mainHash = Got pack <->
  exists StatusCode pre byt,
    httpPost (repoURL ++ "/git-upload-pack")
      "application/x-git-upload-pack-request" (reqBody mainHash)
    = Reply StatusCode (Some (pre ++ str2bytes "NAK" ++ byt :: pack))
    /\ length pre = 4%nat.
Proof.
  unfold getPackfile. split.
  - destruct (httpPost _ _ _) as [| | StatusCode [body |]];
      try discriminate.
    destruct (Z.ltb_spec (len body) 8) as [| Hlen]; [discriminate |].
    case_bool_decide as Hnak; cbn [negb]; [| discriminate].
    intros [= <-].
    destruct body as [| p0 [| p1 [| p2 [| p3 [| n0 [| n1 [| n2 [| byt rest]]]]]]]];
      unfold len in Hlen; cbn [length] in Hlen; try lia.
    exists StatusCode, [p0; p1; p2; p3], byt.
    cbn [drop take] in Hnak.
    injection Hnak as -> -> ->. split; reflexivity.
  - intros (StatusCode & pre & byt & -> & Hpre).
    destruct pre as [| p0 [| p1 [| p2 [| p3 [|]]]]]; try discriminate.
    change (str2bytes "NAK" ++ byt :: pack)
      with ("N"%byte :: "A"%byte :: "K"%byte :: byt :: pack).
    cbn [app]. unfold len. cbn [length].
    destruct (Z.ltb_spec (Z.of_nat (S (S (S (S (S (S (S (S (length pack)))))))))) 8);
      [lia |].
    reflexivity.
Qed.

End Fetch.

(** ** The repository and [main] *)

Section Frame.

Context {zl : Zlib}.

Variables (p : string) (v : list byte).
Hypothesis Hp : forall hash, objectPath hash <> p.









End Frame.



Section Clone.

Context {zl : Zlib}.





Context {http : Http}.


End Clone.

(** ** Reading back a decoded bundle, and the two revisions *)

Section Readable.

Context {zl : Zlib}.

Lemma writeFull_keeps (st : store) (r : record) (t : Z) (payload : list byte) :
  let k := default ""%string (objTypeNames !! t) in
  (forall t2 p2, r = Full t2 p2 ->
     let k2 := default ""%string (objTypeNames !! t2) in
     oid k payload = oid k2 p2 -> frame k payload = frame k2 p2) ->
  st !! objectPath (hexEncode (oid k payload)) = Some (deflate (frame k payload)) ->
  writeFull st r !! objectPath (hexEncode (oid k payload))
  = Some (deflate (frame k payload)).
Proof.
  intros k Hcoll Hst. destruct r as [t2 p2 |]; [| exact Hst].
  specialize (Hcoll t2 p2 eq_refl). cbn zeta in Hcoll.
  unfold writeFull, writeObject. cbn [fst].
  set (k2 := default ""%string (objTypeNames !! t2)) in *.
  fold (frame k2 p2). unfold compressBytes. fold (oid k2 p2).
  fold (objectPath (hexEncode (oid k2 p2))).
  destruct (decide (oid k payload = oid k2 p2)) as [E | Hne].
  - rewrite (Hcoll E), E. apply lookup_insert_eq.
  - rewrite lookup_insert_ne; [exact Hst |].
    intros E. apply Hne. symmetry.
    apply objectPath_inj in E;
      [apply hexEncode_inj; congruence | |];
      rewrite length_hexEncode; unfold oid; rewrite length_sha1; lia.
Qed.

Lemma foldl_writeFull_keeps (records : list record) (t : Z)
    (payload : list byte) :
  forall st,
    let k := default ""%string (objTypeNames !! t) in
    (forall t2 p2, Full t2 p2 ∈ records ->
       let k2 := default ""%string (objTypeNames !! t2) in
       oid k payload = oid k2 p2 -> frame k payload = frame k2 p2) ->
    st !! objectPath (hexEncode (oid k payload))
    = Some (deflate (frame k payload)) ->
    foldl writeFull st records !! objectPath (hexEncode (oid k payload))
    = Some (deflate (frame k payload)).
Proof.
  induction records as [| r records IH]; intros st k Hcoll Hst; [exact Hst |].
  cbn [foldl]. apply IH.
  - intros t2 p2 Hin. apply Hcoll. right. exact Hin.
  - apply writeFull_keeps; [| exact Hst].
    intros t2 p2 ->. apply Hcoll. left.
Qed.

Lemma foldl_writeFull_lookup (records : list record) (t : Z)
    (payload : list byte) :
  forall st,
    collisionFree records -> Full t payload ∈ records ->
    let k := default ""%string (objTypeNames !! t) in
    foldl writeFull st records !! objectPath (hexEncode (oid k payload))
    = Some (deflate (frame k payload)).
Proof.
  induction records as [| r records IH]; intros st Hfree Hin k; [set_solver |].
  cbn [foldl]. apply elem_of_cons in Hin as [<- | Hin].
  - apply foldl_writeFull_keeps.
    + intros t2 p2 Hin2. apply Hfree; [left | right; exact Hin2].
    + unfold writeFull, writeObject. cbn [fst]. apply lookup_insert_eq.
  - apply IH; [| exact Hin].
    intros t1 p1 t2 p2 H1 H2. apply Hfree; right; assumption.
Qed.

(** A delta of the format resolves against the base it was made for. *)
Lemma resolvesTo_encodeDelta (base : string) (ops : list op) (st : store)
    (src trg : list byte) (kind : string) :
  readObject base st = (st, Ok (src, kind)) ->
  len src < 2 ^ 63 -> len trg < 2 ^ 63 -> Forall wfOp ops ->
  patch src ops = Some trg ->
  resolvesTo st {| hash := base; data := encodeDelta (len src) (len trg) ops |}
    kind trg.
Proof.
  intros Hread Hsrc Htrg Hwf Hpatch.
  assert (Hs : 0 <= len src < 2 ^ 63) by (unfold len in *; lia).
  assert (Ht : 0 <= len trg < 2 ^ 63) by (unfold len in *; lia).
  exists (len src), (len (encodeVarInt (len src))), (len trg),
    (len (encodeVarInt (len trg))), (len (concat (map encodeOp ops))), src,
    (map instructionOf ops).
  cbn [hash data]. unfold encodeDelta.
  split; [apply parseVarInt_encode, Hs |].
  replace (Z.to_nat (len (encodeVarInt (len src))))
    with (length (encodeVarInt (len src))) by (unfold len; lia).
  rewrite drop_app_length.
  split; [apply parseVarInt_encode, Ht |].
  split; [exact Hread |]. split; [reflexivity |].
  replace (Z.to_nat (len (encodeVarInt (len src))
                     + len (encodeVarInt (len trg))))
    with (length (encodeVarInt (len src))
          + length (encodeVarInt (len trg)))%nat
    by (unfold len; lia).
  rewrite <- drop_drop, !drop_app_length.
  split; [apply parseInstructions_concat, Hwf |].
  rewrite applyInstructions_instructionOf by exact Hwf.
  rewrite Hpatch. split; reflexivity.
Qed.

Context {laws : ZlibLaws zl}.

(** An object file of the store is read back. *)
Lemma readObject_written (kind : string) (payload : list byte) (st : store) :
  kindName kind -> len payload < 2 ^ 63 ->
  st !! objectPath (hexEncode (oid kind payload))
  = Some (deflate (frame kind payload)) ->
  readObject (hexEncode (oid kind payload)) st = (st, Ok (payload, kind)).
Proof.
  intros [Hk0 Hksp] Hsize Hfile.
  rewrite <- (bytes2str_str2bytes kind) at 2.
  apply (readObject_parts (hexEncode (oid kind payload)) st
           (deflate (frame kind payload)) (str2bytes kind)
           (str2bytes (decimal (length payload))) payload).
  - rewrite length_hexEncode. unfold oid. rewrite length_sha1. lia.
  - exact Hfile.
  - rewrite decompressBytes_deflate, frame_eq. reflexivity.
  - exact Hk0.
  - exact Hksp.
  - apply decimal_no_NUL.
  - rewrite bytes2str_str2bytes. apply Atoi_decimal. exact Hsize.
Qed.

(** X26. Every full object of a decoded bundle can be read back: after
    [parsePackfile] on a bundle of the format whose objects do not
    collide under SHA-1, [readObject] at the OID of any of its full
    objects gives the payload and the kind of that object. *)
Theorem parsePackfile_objects_readable (version : Z) (records : list record)
    (st : store) (type : Z) (payload : list byte) :
  Forall wfRecord records -> len records < 2 ^ 32 ->
  collisionFree records -> Full type payload ∈ records ->
  let name := default ""%string (objTypeNames !! type) in
  let st' := (parsePackfile (encodeBundle version records) st).1 in
  readObject (hexEncode (oid name payload)) st' = (st', Ok (payload, name)).
Proof.
  intros Hwf Hcount Hfree Hin name st'.
  assert (Hst : st' = foldl writeFull st records).
  { unfold st'. rewrite parsePackfile_encodeBundle by assumption. reflexivity. }
  rewrite Forall_forall in Hwf. destruct (Hwf _ Hin) as [Htype Hsize].
  assert (Hname : objTypeNames !! type = Some name).
  { unfold name. set_unfold in Htype.
    destruct Htype as [-> | [-> | [-> | []]]]; reflexivity. }
  pose proof (kindName_objTypeNames _ _ Hname) as Hkind.
  assert (Hfile : st' !! objectPath (hexEncode (oid name payload))
                  = Some (deflate (frame name payload))).
  { rewrite Hst. apply foldl_writeFull_lookup; assumption. }
  clearbody name st'. apply readObject_written; assumption.
Qed.

(** X27. A bundle of a full object and a ref-delta on it, the delta as
    the format writes it and listed before or after the object, unpacks:
    the store is the one with the object and then the target written,
    and the target is read back under its OID with the kind of the
    base. *)
Theorem unpack_delta_bundle (version type : Z) (base trg : list byte)
    (ops : list op) (deltaFirst : bool) (st : store) :
  type ∈ [OBJ_COMMIT; OBJ_TREE; OBJ_BLOB] ->
  len base < 2 ^ 63 -> len trg < 2 ^ 63 ->
  Forall wfOp ops -> patch base ops = Some trg ->
  len (encodeDelta (len base) (len trg) ops) < 2 ^ 63 ->
  let name := default ""%string (objTypeNames !! type) in
  let delta :=
    RefDelta (oid name base) (encodeDelta (len base) (len trg) ops) in
  let records :=
    if deltaFirst then [delta; Full type base] else [Full type base; delta] in
  let st' := (writeObject trg name (writeObject base name st).1).1 in
  unpack (encodeBundle version records) st = (st', Ok tt)
  /\ readObject (hexEncode (oid name trg)) st' = (st', Ok (trg, name)).
Proof.
  intros Htype Hbase Htrg Hwf Hpatch Hdelta name delta records st'.
  assert (Hname : objTypeNames !! type = Some name).
  { unfold name. set_unfold in Htype.
    destruct Htype as [-> | [-> | [-> | []]]]; reflexivity. }
  pose proof (kindName_objTypeNames _ _ Hname) as Hkind.
  assert (Hwfr : Forall wfRecord records).
  { assert (Hd : wfRecord delta)
      by (split; [unfold oid; apply length_sha1 | exact Hdelta]).
    assert (Hf : wfRecord (Full type base)) by (split; assumption).
    unfold records.
    destruct deltaFirst; (constructor; [assumption |]);
      (constructor; [assumption | constructor]). }
  assert (Hfold : foldl writeFull st records = (writeObject base name st).1).
  { unfold records. destruct deltaFirst; cbn [foldl writeFull];
      rewrite Hname; reflexivity. }
  assert (Hdeltas : deltasOf records
                    = [ {| hash := hexEncode (oid name base);
                           data := encodeDelta (len base) (len trg) ops |} ]).
  { unfold records. destruct deltaFirst; reflexivity. }
  clearbody name.
  set (st1 := (writeObject base name st).1) in *.
  assert (Hread : readObject (hexEncode (oid name base)) st1
                  = (st1, Ok (base, name))).
  { apply readObject_written; [exact Hkind | exact Hbase |].
    unfold st1, writeObject. cbn [fst]. apply lookup_insert_eq. }
  split.
  - rewrite unpack_encodeBundle
      by (exact Hwfr || (unfold records; destruct deltaFirst; reflexivity)).
    rewrite Hfold, Hdeltas. cbn [processRefDeltaObjs]. unfold bind.
    rewrite (resolveDelta_resolvesTo _ st1 name trg)
      by (apply resolvesTo_encodeDelta; assumption).
    reflexivity.
  - apply readObject_written; [exact Hkind | exact Htrg |].
    unfold st', writeObject. cbn [fst]. apply lookup_insert_eq.
Qed.


End Readable.

Section Revisions.

Context {zl : Zlib}.

Hypothesis inflate_empty :
  forall out consumed, inflate [] <> ZDone out consumed.

Lemma decodeSize_add_eq (byt : byte) (rest : list byte) (off : Z) :
  decodeSize_add byt rest off = decodeSize byt rest off.
Proof.
  unfold decodeSize_add, decodeSize.
  destruct (negb (Z.land (b2z byt) 128 =? 0)); [| reflexivity].
  apply sizeTail_add_eq; [lia |]. intros _.
  pose proof (land_0F_range byt). change (2 ^ 4) with 16. lia.
Qed.

Lemma Earlier_parseRecord (rest : list byte) (off : Z) (deltas : list Delta)
    (st : store) (rest' : list byte) (off' : Z) :
  Earlier.parseRecord rest off = Ok (rest', off') <->
  exists st' deltas',
    parseRecord rest off deltas st = (st', Ok (rest', off', deltas')).
Proof.
  unfold Earlier.parseRecord, parseRecord.
  destruct rest as [| byt rest].
  { split; [discriminate | intros (? & ? & [=])]. }
  destruct (objTypeNames !! _) as [name |];
    [| split; [discriminate | intros (? & ? & [=])]].
  rewrite decodeSize_add_eq. unfold bind, lift, ret.
  destruct (decodeSize _ _ _) as [[[objSize off1] rest1] | e |]; cbn [obind];
    [| split; [discriminate | intros (? & ? & [=])] ..].
  destruct (_ =? OBJ_REF_DELTA).
  - destruct (Z.ltb_spec (len rest1) 20); cbn [obind];
      [split; [discriminate | intros (? & ? & [=])] |].
    case_bool_decide as Hnil.
    + rewrite Hnil.
      destruct (inflate []) as [| | raw consumed] eqn:E;
        try (split; [discriminate | intros (? & ? & [=])]).
      exfalso. exact (inflate_empty _ _ eq_refl).
    + destruct (inflate (drop 20 rest1)) as [| | raw consumed];
        try (split; [discriminate | intros (? & ? & [=])]).
      destruct (negb _);
        [split; [discriminate | intros (? & ? & [=])] |].
      split.
      * intros [= <- <-]. eauto.
      * intros (? & ? & [= _ <- <- _]). reflexivity.
  - cbn [obind]. case_bool_decide as Hnil.
    + rewrite Hnil.
      destruct (inflate []) as [| | raw consumed] eqn:E;
        try (split; [discriminate | intros (? & ? & [=])]).
      exfalso. exact (inflate_empty _ _ eq_refl).
    + destruct (inflate rest1) as [| | raw consumed];
        try (split; [discriminate | intros (? & ? & [=])]).
      destruct (negb _);
        [split; [discriminate | intros (? & ? & [=])] |].
      split.
      * intros [= <- <-]. eauto.
      * intros (? & ? & [= _ <- <- _]). reflexivity.
Qed.

Lemma Earlier_parseRecords (n : nat) :
  forall rest off deltas st,
    Earlier.parseRecords n rest off = Ok tt <->
    exists st' deltas', parseRecords n rest off deltas st = (st', Ok deltas').
Proof.
  induction n as [| n IH]; intros rest off deltas st;
    cbn [Earlier.parseRecords parseRecords].
  - split; [intros _; unfold ret; eauto | reflexivity].
  - unfold bind. split.
    + destruct (Earlier.parseRecord rest off) as [[rest1 off1] | e |] eqn:E;
        cbn [obind]; try discriminate.
      apply (Earlier_parseRecord _ _ deltas st) in E as (st1 & deltas1 & ->).
      intros H. apply (IH _ _ deltas1 st1) in H. exact H.
    + destruct (parseRecord rest off deltas st)
        as [st1 [[[rest1 off1] deltas1] | e |]] eqn:E;
        [| intros (? & ? & [=]) ..].
      assert (E' : Earlier.parseRecord rest off = Ok (rest1, off1))
        by (apply (Earlier_parseRecord _ _ deltas st); eauto).
      rewrite E'. cbn [obind]. intros H. apply (IH _ _ deltas1 st1). exact H.
Qed.

(** X28. The two revisions of [parsePackfile] accept the same packs:
    the earlier one, which only checks the records, returns without error
    exactly on the packs that the final one decodes, given that the zlib
    reader finds no stream in no bytes. *)
Theorem revisions_accept_alike (pack : list byte) (st : store) :
  Earlier.parsePackfile pack = Ok tt <->
  exists st' deltas, parsePackfile pack st = (st', Ok deltas).
Proof.
  unfold Earlier.parsePackfile, parsePackfile.
  destruct (negb _); [split; [discriminate | intros (? & ? & [=])] |].
  unfold bind, lift.
  destruct (getObjectsCount pack) as [objsCount | e |]; cbn [obind];
    [| split; [discriminate | intros (? & ? & [=])] ..].
  destruct (_ <? 12); [split; [discriminate | intros (? & ? & [=])] |].
  apply Earlier_parseRecords.
Qed.

End Revisions.

(** ** The stored-block zlib is a zlib *)

Module StoredLaws.

Import Stored.

Lemma le16_value (n : Z) (tail : list byte) :
  0 <= n < 65536 ->
  exists l0 l1, le16 n ++ tail = l0 :: l1 :: tail
                /\ b2z l0 + 256 * b2z l1 = n.
Proof.
  intros Hn. exists (z2b n), (z2b (Z.shiftr n 8)). split; [reflexivity |].
  rewrite !b2z_z2b, Z.shiftr_div_pow2 by lia. change (2 ^ 8) with 256.
  Z.div_mod_to_equations. lia.
Qed.

Lemma adler32_range (data : list byte) : 0 <= adler32 data < 2 ^ 32.
Proof.
  unfold adler32.
  assert (H : forall a b,
             0 <= a < 65521 -> 0 <= b < 65521 ->
             let '(a', b') :=
               fold_left
                 (fun '(a, b) x =>
                    let a' := (a + b2z x) mod 65521 in
                    (a', (b + a') mod 65521)) data (a, b) in
             0 <= a' < 65521 /\ 0 <= b' < 65521).
  { induction data as [| x data IH]; intros a b Ha Hb; cbn [fold_left];
      [split; assumption |].
    apply IH; apply Z.mod_pos_bound; lia. }
  specialize (H 1 0 ltac:(lia) ltac:(lia)).
  destruct (fold_left _ data (1, 0)) as [a b].
  change (2 ^ 32) with 4294967296. lia.
Qed.

Lemma length_block (final : bool) (chunk : list byte) :
  length (block final chunk) = (5 + length chunk)%nat.
Proof. reflexivity. Qed.

(** Reading one block back. *)
Lemma readBlocks_block (fuel : nat) (final : bool) (chunk tail out : list byte)
    (consumed : nat) :
  len chunk <= 65535 ->
  readBlocks (S fuel) (block final chunk ++ tail) out consumed
  = if final then Some (out ++ chunk, (consumed + 5 + length chunk)%nat, tail)
    else readBlocks fuel tail (out ++ chunk) (consumed + 5 + length chunk)%nat.
Proof.
  intros Hlen. assert (Hnn : 0 <= len chunk) by (unfold len; lia).
  unfold block. rewrite <- !app_assoc.
  destruct (le16_value (65535 - len chunk) (chunk ++ tail))
    as (n0 & n1 & -> & Hnn'); [lia |].
  destruct (le16_value (len chunk) (n0 :: n1 :: chunk ++ tail))
    as (l0 & l1 & -> & Hl); [lia |].
  cbn [app readBlocks]. rewrite Hl, Hnn'.
  assert (Hhd : Z.land (Z.shiftr (b2z (if final then "001"%byte else "000"%byte)) 1) 3 = 0)
    by (destruct final; reflexivity).
  rewrite Hhd. cbn [Z.eqb negb]. rewrite Z.eqb_refl. cbn [negb].
  destruct (Z.ltb_spec (len (chunk ++ tail)) (len chunk)) as [Hlt | _].
  { unfold len in Hlt. rewrite length_app in Hlt. lia. }
  unfold len. rewrite Nat2Z.id, take_app_length, drop_app_length.
  destruct final; reflexivity.
Qed.

Lemma readBlocks_blocks (fuel : nat) :
  forall fuel' data tail out consumed,
    (length data <= fuel)%nat -> (fuel < fuel')%nat ->
    readBlocks fuel' (blocks fuel data ++ tail) out consumed
    = Some (out ++ data, (consumed + length (blocks fuel data))%nat, tail).
Proof.
  induction fuel as [| fuel IH]; intros fuel' data tail out consumed Hd Hf;
    (destruct fuel' as [| fuel']; [lia |]).
  - destruct data; [| simpl in Hd; lia]. cbn [blocks].
    rewrite readBlocks_block by (unfold len; simpl; lia).
    rewrite length_block. do 3 f_equal; lia.
  - cbn [blocks]. destruct (Z.leb_spec (len data) 65535) as [Hle | Hgt].
    + rewrite readBlocks_block by exact Hle.
      rewrite length_block. do 3 f_equal; lia.
    + assert (Htake : length (take maxStored data) = maxStored).
      { rewrite length_take. unfold len, maxStored in *. lia. }
      rewrite <- app_assoc, readBlocks_block
        by (unfold len; rewrite Htake; unfold maxStored; lia).
      rewrite IH.
      * rewrite <- app_assoc, take_drop, length_app, length_block.
        do 3 f_equal; lia.
      * rewrite length_drop. unfold len, maxStored in *. lia.
      * lia.
Qed.

Lemma length_blocks_ge (fuel : nat) (data : list byte) :
  (length data < length (blocks fuel data))%nat.
Proof.
  revert data. induction fuel as [| fuel IH]; intros data; cbn [blocks].
  - rewrite length_block. lia.
  - destruct (len data <=? 65535).
    + rewrite length_block. lia.
    + rewrite length_app, length_block.
      specialize (IH (drop maxStored data)).
      rewrite <- (take_drop maxStored data) at 1. rewrite length_app. lia.
Qed.

Lemma read_write (data rest : list byte) :
  read (write data ++ rest) = ZDone data (length (write data)).
Proof.
  unfold write. rewrite <- !app_assoc. cbn [app read].
  change (negb (Z.land (b2z "120") 15 =? 8)
          || (112 <? Z.land (b2z "120") 240)
          || negb ((b2z "120" * 256 + b2z "001") mod 31 =? 0)
          || negb (Z.land (b2z "001") 32 =? 0)) with false.
  cbv iota.
  rewrite readBlocks_blocks;
    [| lia | rewrite length_app;
             pose proof (length_blocks_ge (length data) data); lia].
  destruct (be_uint_be_bytes4 (adler32 data) rest (adler32_range data))
    as (c0 & c1 & c2 & c3 & -> & ->).
  rewrite Z.eqb_refl. cbn [app length].
  rewrite length_app, length_be_bytes. f_equal; lia.
Qed.

#[global] Instance laws : ZlibLaws zlib.
Proof. constructor. exact read_write. Qed.

End StoredLaws.

(** * The program at concrete packs

    Runs of the embedding with the stored-block zlib, on the bundles of
    [Bundles]. *)

Module Runs.

Import Bundles.

#[local] Existing Instance Stored.zlib.

(** An equation between closed terms, checked by evaluating both sides. *)
Ltac run := lazymatch goal with |- ?a = ?b => vm_cast_no_check (@eq_refl _ b) end.

(** [crypto/sha1], [hex.EncodeToString] and the stored-block zlib on known
    values: the digests are those of FIPS 180, the stream is the one zlib
    writes at level 0. *)
Example sha1_empty :
  hexEncode (sha1 []) = "da39a3ee5e6b4b0d3255bfef95601890afd80709"%string.
Proof. run. Qed.

Example sha1_abc :
  hexEncode (sha1 (str2bytes "abc"))
  = "a9993e364706816aba3e25717850c26c9cd0d89d"%string.
Proof. run. Qed.

Example sha1_two_blocks :
  hexEncode
    (sha1 (str2bytes
             "abcdbcdecdefdefgefghfghighijhijkijkljklmklmnlmnomnopnopq"))
  = "84983e441c3bd26ebaae4aa1f95129e5e54670f1"%string.
Proof. run. Qed.

Example stored_hi :
  hexEncode (Stored.write hi) = "7801010200fdff6869013b00d2"%string.
Proof. run. Qed.

(** The bytes of the bundles. *)
Example dependent_bytes :
  hexEncode dependent
  = ("5041434b0000000200000003"
     ++ "76ce013625030ba8dba906f756967f9e9ca394464a"
     ++ "7801010600f9ff06079006012102c200c6"
     ++ "76b6fc4c620b67d95f953a5c1c1230aaab5db5a1b0"
     ++ "7801010600f9ff05069005010a029d00ac"
     ++ "357801010500faff68656c6c6f062c0215"
     ++ "f98821798249301c6b03e456b8e1726920dd2807")%string.
Proof. run. Qed.

Example version3_bytes :
  hexEncode version3
  = ("5041434b0000000300000001"
     ++ "327801010200fdff6869013b00d2"
     ++ "e91ca72128a44853edf84d97f12d2f06f11d7afe")%string.
Proof. run. Qed.

Example tagged_bytes :
  hexEncode tagged
  = ("5041434b0000000200000001"
     ++ "427801010200fdff6869013b00d2"
     ++ "e94d0bc54eccca196b55095a38a191c3216abe7c")%string.
Proof. run. Qed.

(** A delta on an object of the store, resolved by hand. *)
Example deltaNl_resolvesTo :
  resolvesTo (storeOf [("blob"%string, hello)])
    (deltaOn (oid "blob" hello) deltaNl) "blob" helloNl.
Proof.
  exists 5, 1, 6, 1, 4, hello,
    [ {| instType := INST_TYPE_COPY; instSize := 5; instOffset := 0;
         instData := [] |};
      insertOf ["010"%byte] ].
  repeat split; run.
Qed.

(** The scenario of a delta listed before its full base object: the full
    objects are all written while the bundle is decoded, so the delta
    finds its base. *)
Example delta_before_full_base :
  unpack (encodeBundle 2 [ RefDelta (oid "blob" hello) deltaNl;
                           Full OBJ_BLOB hello ]) ∅
  = (storeOf [("blob"%string, helloNl); ("blob"%string, hello)], Ok tt).
Proof. run. Qed.

Example ordered_bundle_unpacks :
  unpack ordered ∅
  = (storeOf [("blob"%string, helloNlBang); ("blob"%string, helloNl);
              ("blob"%string, hello)], Ok tt).
Proof. run. Qed.

(** Streams cut short. An insert of five bytes with one byte left, and a
    copy whose offset byte is missing: [parseInstructions] reads past the
    end of the stream, which is no error value. *)
Example truncated_insert_faults :
  parseInstructions ["005"; "A"]%byte = Fault.
Proof. reflexivity. Qed.

Example truncated_copy_faults :
  parseInstructions ["145"]%byte = Fault.
Proof. reflexivity. Qed.

(** A sealed pack of the magic and a version only: the slice
    [pack[12 : len(pack)-20]] is out of bounds. *)
Example headerless_pack_faults :
  parsePackfile (seal (str2bytes "PACK" ++ be_bytes 4 2)) ∅ = (∅, Fault).
Proof. run. Qed.

(** Against C1. The bundle [dependent] is self-contained: the base of
    its first delta is the target of its second, whose base is its full
    object, and resolving the two deltas in the other order gives the
    three objects. Yet over the list that [parsePackfile] returns,
    [processRefDeltaObjs] fails at the first delta, and only the full
    object is in the store. *)
Lemma dependent_bundle_not_resolved :
  let st := storeOf [("blob"%string, hello)] in
  let deltas := [ deltaOn (oid "blob" helloNl) deltaBang;
                  deltaOn (oid "blob" hello) deltaNl ] in
  parsePackfile dependent ∅ = (st, Ok deltas)
  /\ processRefDeltaObjs deltas st
     = (st, Err (EReadFile
                   ".git/objects/ce/013625030ba8dba906f756967f9e9ca394464a"))
  /\ processRefDeltaObjs (rev deltas) st
     = (storeOf [("blob"%string, helloNlBang); ("blob"%string, helloNl);
                 ("blob"%string, hello)], Ok tt).
Proof. repeat split; run. Qed.

(** Against C2. A bundle of version 2 with one record of type 4 (tag) is
    rejected with the bad-object-type error; nothing is written. *)
Lemma tag_record_rejected :
  parsePackfile tagged ∅ = (∅, Err (EBadObjectType OBJ_TAG)).
Proof. run. Qed.

(** Against C3. A bundle whose version field is 3 decodes, and its blob
    is written. *)
Lemma version_3_accepted :
  take 4 (drop 4 version3) = be_bytes 4 3
  /\ parsePackfile version3 ∅ = (storeOf [("blob"%string, hi)], Ok []).
Proof. split; run. Qed.

(** Against C4. A delta whose instruction stream holds an opcode byte 0,
    between a copy and an insert, resolves: the target is written. *)
Lemma opcode_zero_resolves :
  processRefDeltaObjs [deltaOn (oid "blob" hello) deltaZero]
    (storeOf [("blob"%string, hello)])
  = (storeOf [("blob"%string, helloNl); ("blob"%string, hello)], Ok tt).
Proof. run. Qed.

(** Against C8. An object file whose header names the kind foo, which is
    none of commit, tree, blob and tag, is read back, under that kind. *)
Lemma unknown_kind_read :
  ("foo"%string ∉ ["commit"; "tree"; "blob"; "tag"]%string)
  /\ readObject (hexEncode (oid "foo" abc)) fooStore
     = (fooStore, Ok (abc, "foo"%string)).
Proof.
  split; [| run].
  intros H. set_unfold in H. intuition discriminate.
Qed.

(** *** The theorems at these inputs *)

Lemma single_pass_at_dependent :
  processRefDeltaObjs
    ([] ++ deltaOn (oid "blob" helloNl) deltaBang
        :: [deltaOn (oid "blob" hello) deltaNl])
    (storeOf [("blob"%string, hello)])
  = (storeOf [("blob"%string, hello)],
     Err (EReadFile
            ".git/objects/ce/013625030ba8dba906f756967f9e9ca394464a"))
  /\ exists st',
      unpack (encodeBundle 2 [ RefDelta (oid "blob" hello) deltaNl;
                               Full OBJ_BLOB hello ]) ∅
      = (st', Ok tt)
      /\ is_Some (st' !! objectPath (hexEncode (oid "blob" helloNl))).
Proof.
  split.
  - assert (E : ".git/objects/ce/013625030ba8dba906f756967f9e9ca394464a"%string
                = objectPath (hash (deltaOn (oid "blob" helloNl) deltaBang)))
      by run.
    rewrite E.
    refine (proj1 (proj2 processRefDeltaObjs_single_pass) []
              [deltaOn (oid "blob" hello) deltaNl]
              (deltaOn (oid "blob" helloNl) deltaBang)
              (storeOf [("blob"%string, hello)])
              (storeOf [("blob"%string, hello)])
              6 1 7 1 _ _ _ _ _).
    + run.
    + run.
    + run.
    + apply Nat.leb_le. run.
    + run.
  - set (records := [ RefDelta (oid "blob" hello) deltaNl;
                      Full OBJ_BLOB hello ]).
    assert (Hwf : Forall wfRecord records).
    { constructor; [split; [apply length_sha1 | reflexivity] |].
      constructor; [split; [right; right; left | reflexivity] |].
      constructor. }
    assert (Hres : resolvesTo (foldl writeFull ∅ records)
                     (deltaOn (oid "blob" hello) deltaNl) "blob" helloNl).
    { exists 5, 1, 6, 1, 4, hello,
        [ {| instType := INST_TYPE_COPY; instSize := 5; instOffset := 0;
             instData := [] |};
          insertOf ["010"%byte] ].
      repeat split; run. }
    destruct (proj2 (proj2 (proj2 processRefDeltaObjs_single_pass))
                2 records ∅ Hwf eq_refl) as [_ Hunpack].
    change (deltasOf records)
      with [deltaOn (oid "blob" hello) deltaNl] in Hunpack.
    destruct Hunpack as (st' & Hrun & _ & Htargets).
    + intros d Hin. apply list_elem_of_singleton in Hin as ->.
      exists "blob"%string, helloNl. split; [exact Hres |].
      intros d' Hin'. apply list_elem_of_singleton in Hin' as ->.
      refine (proj1 (bool_decide_eq_false _) _). run.
    + exists st'. split; [exact Hrun |].
      apply (Htargets (deltaOn (oid "blob" hello) deltaNl));
        [left | exact Hres].
Defined.

Lemma object_type_at_tag :
  parseRecord ("B"%byte :: Stored.write hi) 0 [] ∅
  = (∅, Err (EBadObjectType OBJ_TAG)).
Proof.
  refine (proj1 (proj2 (parseRecord_object_type "B"%byte _ 0 [] ∅)) _).
  right. left.
Defined.

Lemma preconditions_at_versions :
  parsePackfile
    (seal (str2bytes "PACK" ++ be_bytes 4 2
             ++ be_bytes 4 1 ++ encodeRecord (Full OBJ_BLOB hi))) ∅
  = parsePackfile
      (seal (str2bytes "PACK" ++ be_bytes 4 3
               ++ be_bytes 4 1 ++ encodeRecord (Full OBJ_BLOB hi))) ∅.
Proof.
  apply (proj2 (proj2 (proj2 (parsePackfile_preconditions ∅)))); reflexivity.
Defined.

Lemma insert_at_line_feed :
  parseInstructions ("001"%byte :: ["010"%byte] ++ [])
  = do (insts, o) <- parseInstructions [];
    Ok (insertOf ["010"%byte] :: insts, 1 + len ["010"%byte] + o).
Proof.
  apply (proj2 (proj2 (opcode_zero_is_empty_insert [])) "001"%byte);
    reflexivity.
Defined.


Lemma checksum_gate_at_broken :
  parsePackfile broken ∅ = (∅, Err EChecksum).
Proof.
  apply (proj2 (verifyChecksum_gate broken ∅)). run.
Defined.

Lemma write_read_at_hello :
  exists st, readObject (hexEncode (oid "blob" hello)) st
             = (st, Ok (hello, "blob"%string)).
Proof.
  eexists.
  refine (proj1 (proj2 (proj2
            (writeObject_readObject "blob" hello ∅ _ _)))).
  - split; refine (proj1 (bool_decide_eq_true _) _); run.
  - reflexivity.
Defined.

Lemma accepts_at_foo :
  readObject (hexEncode (oid "foo" abc)) fooStore
  = (fooStore, Ok (abc, "foo"%string)).
Proof.
  refine (proj2 (proj2 (readObject_accepts (hexEncode (oid "foo" abc))
                          fooStore abc "foo" _)) _).
  - apply Nat.leb_le. run.
  - exists (Stored.write (str2bytes "foo 3" ++ ["000"%byte] ++ abc)),
      (str2bytes "3").
    split; [run |]. split; [run |].
    repeat split; apply (bool_decide_unpack _); reflexivity.
Defined.

End Runs.

(** * More runs: the fetch, and the properties above at concrete inputs *)

Module Checks.

Import Bundles Servers.

#[local] Existing Instance Stored.zlib.
#[local] Existing Instance origin.

(** An equation between closed terms, checked by evaluating both sides. *)
Ltac evaluate :=
  lazymatch goal with |- ?a = ?b => vm_cast_no_check (@eq_refl _ b) end.

(** Bounds between numerals. *)
Ltac bounds :=
  repeat split;
  first [ reflexivity | discriminate
        | let H := fresh in intros H; discriminate H ].

(** The encoder of deltas writes the delta that git writes. *)
Example encodeDelta_deltaNl : encodeDelta 5 6 opsNl = deltaNl.
Proof. evaluate. Qed.

(** [strings.Fields] on white space of one, two and three bytes, and on
    bytes that are no UTF-8. *)
Example Fields_unicode :
  Fields ([" "; "a"; "194"; "160"; "b"; "226"; "128"; "137"; "009"; "c";
           "226"; "128"; "d"; "194"]%byte)
  = [ ["a"]; ["b"]; ["c"; "226"; "128"; "d"; "194"] ]%byte.
Proof. evaluate. Qed.

Example Split_empty_pieces :
  Split (str2bytes "/a//b/") "/"%byte
  = [ []; str2bytes "a"; []; str2bytes "b"; [] ].
Proof. evaluate. Qed.

(** The clone of the server's repository, from an empty directory. *)
Example getMainHash_origin :
  getMainHash url = Got (bytes2str tip, "main"%string).
Proof. evaluate. Qed.

Example main_origin :
  main url ∅
  = ((initRepo (bytes2str tip) "main"
        (storeOf [("blob"%string, helloNlBang); ("blob"%string, helloNl);
                  ("blob"%string, hello)])).1, Exit0).
Proof. evaluate. Qed.

(** A URL the server does not know: nothing is written. *)
Example main_unknown_url :
  main "https://example.org/other.git" ∅
  = (∅, ExitFetch
          (FStatus 404
             "https://example.org/other.git/info/refs?service=git-upload-pack")).
Proof. evaluate. Qed.

(** *** The theorems at these inputs *)

Lemma varint_at_300 :
  parseVarInt (encodeVarInt 300 ++ []) = Ok (300, len (encodeVarInt 300)).
Proof.
  apply (parseVarInt_encodeVarInt 300 []). bounds.
Defined.

Lemma unterminated_at_two_bytes :
  parseVarInt ["128"; "255"]%byte
  = if len ["128"; "255"]%byte <=? 9
    then Err (EVarIntEnd (len ["128"; "255"]%byte))
    else Err (EVarIntTooLarge 9).
Proof.
  apply parseVarInt_unterminated.
  repeat constructor; intros H; vm_compute in H; discriminate H.
Defined.

Lemma header_at_blob_300 :
  recordHeader OBJ_BLOB 300 = ["188"; "018"]%byte
  /\ decodeSize "188"%byte ["018"%byte] 0 = Ok (300, 1, []).
Proof.
  split; [reflexivity |].
  apply (decodeSize_recordHeader OBJ_BLOB 300 [] 0); bounds.
Defined.

Lemma trailing_at_hi :
  parsePackfile
    (seal (str2bytes "PACK" ++ be_bytes 4 2
             ++ be_bytes 4 (len [Full OBJ_BLOB hi])
             ++ concat (map encodeRecord [Full OBJ_BLOB hi])
             ++ str2bytes "junk")) ∅
  = (foldl writeFull ∅ [Full OBJ_BLOB hi], Ok (deltasOf [Full OBJ_BLOB hi])).
Proof.
  apply (parsePackfile_trailing_bytes 2 [Full OBJ_BLOB hi]);
    [| reflexivity].
  constructor; [split; [right; right; left | reflexivity] | constructor].
Defined.

Lemma count_at_two :
  parsePackfile
    (seal (str2bytes "PACK" ++ be_bytes 4 2 ++ be_bytes 4 2
             ++ concat (map encodeRecord [Full OBJ_BLOB hi]))) ∅
  = (foldl writeFull ∅ [Full OBJ_BLOB hi],
     Err (EUnexpectedEnd (len (concat (map encodeRecord [Full OBJ_BLOB hi]))))).
Proof.
  apply (parsePackfile_count_beyond_records 2 2 [Full OBJ_BLOB hi]);
    [| bounds].
  constructor; [split; [right; right; left | reflexivity] | constructor].
Defined.

Lemma mismatch_at_hi :
  parseRecord (encodeRecordAs 5 (Full OBJ_BLOB hi) ++ []) 0 [] ∅
  = (∅, Err (EObjSizeMismatch 5 (len (carried (Full OBJ_BLOB hi))))).
Proof.
  apply (parseRecord_size_mismatch 5 (Full OBJ_BLOB hi)).
  - right; right; left.
  - bounds.
  - discriminate.
Defined.

Lemma deltas_at_dependent :
  len [ deltaOn (oid "blob" helloNl) deltaBang;
        deltaOn (oid "blob" hello) deltaNl ]
  <= be_uint (take 4 (drop 8 dependent)).
Proof.
  apply (parsePackfile_deltas dependent ∅ (storeOf [("blob"%string, hello)])).
  evaluate.
Defined.




Lemma ops_at_copy_insert :
  parseInstructions (concat (map encodeOp opsNl))
  = Ok (map instructionOf opsNl, len (concat (map encodeOp opsNl))).
Proof.
  apply delta_ops_round_trip.
  constructor; [bounds |]. constructor; [bounds | constructor].
Defined.

Lemma encoded_delta_at_hello :
  resolveDelta {| hash := hexEncode (oid "blob" hello);
                  data := encodeDelta 5 6 opsNl |}
    (storeOf [("blob"%string, hello)])
  = writeObject helloNl "blob" (storeOf [("blob"%string, hello)]).
Proof.
  rewrite (resolveDelta_encodeDelta (hexEncode (oid "blob" hello)) 5 6 opsNl
             (storeOf [("blob"%string, hello)]) hello "blob").
  - reflexivity.
  - evaluate.
  - bounds.
  - bounds.
  - constructor; [bounds |]. constructor; [bounds | constructor].
Defined.

Lemma found_at_origin :
  exists StatusCode body capLine word refLine pkt,
    httpGet (url ++ "/info/refs?service=git-upload-pack")
    = Reply StatusCode (Some body)
    /\ StatusCode < 400
    /\ capLine ∈ Split body "010"%byte
    /\ word ∈ Split capLine " "%byte
    /\ Contains word (str2bytes "HEAD:refs/heads") = true
    /\ Split word "/"%byte !! 2%nat = Some (str2bytes "main")
    /\ refLine ∈ Split body "010"%byte
    /\ HasSuffix refLine (str2bytes "refs/heads/" ++ str2bytes "main") = true
    /\ head (Fields refLine) = Some (pkt ++ str2bytes (bytes2str tip))
    /\ length pkt = 4%nat
    /\ bytes2str tip <> ""%string /\ "main"%string <> ""%string
    /\ Forall (fun c => c ∉ ["/"; " "; "010"]%byte) (str2bytes "main").
Proof.
  apply (getMainHash_found url (bytes2str tip) "main"). evaluate.
Defined.

Lemma advertisement_at_origin :
  getMainHash url = Got (bytes2str tip, bytes2str (str2bytes "main")).
Proof.
  apply (getMainHash_advertisement url 200 [service] [devLine]
           [str2bytes "0000"] (joinWith " "%byte capWords) mainLine
           [ str2bytes "00000153" ++ tip;
             str2bytes "HEAD" ++ ["000"%byte] ++ str2bytes "multi_ack";
             str2bytes "side-band-64k" ]
           [str2bytes "agent=git/2.43.0"]
           (str2bytes "symref=") (str2bytes "003f") tip (str2bytes "main")).
  - reflexivity.
  - reflexivity.
  - repeat constructor; apply (bool_decide_unpack _); reflexivity.
  - repeat constructor.
  - reflexivity.
  - repeat constructor; apply (bool_decide_unpack _); reflexivity.
  - apply (bool_decide_unpack _). reflexivity.
  - apply (bool_decide_unpack _). reflexivity.
  - discriminate.
  - repeat constructor.
  - repeat constructor.
  - reflexivity.
  - reflexivity.
  - discriminate.
  - repeat constructor; bounds.
Defined.



Lemma readable_at_ordered :
  let st' := (parsePackfile ordered ∅).1 in
  readObject (hexEncode (oid "blob" hello)) st'
  = (st', Ok (hello, "blob"%string)).
Proof.
  apply (parsePackfile_objects_readable 2
           [ Full OBJ_BLOB hello;
             RefDelta (oid "blob" hello) deltaNl;
             RefDelta (oid "blob" helloNl) deltaBang ] ∅ OBJ_BLOB hello).
  - constructor; [split; [right; right; left | reflexivity] |].
    constructor; [split; [apply length_sha1 | reflexivity] |].
    constructor; [split; [apply length_sha1 | reflexivity] | constructor].
  - reflexivity.
  - intros t1 p1 t2 p2 H1 H2. set_unfold in H1. set_unfold in H2.
    destruct H1 as [[= -> ->] | [[=] | [[=] | []]]].
    destruct H2 as [[= -> ->] | [[=] | [[=] | []]]].
    reflexivity.
  - left.
Defined.

Lemma delta_bundle_at_hello :
  unpack
    (encodeBundle 2
       [ RefDelta (oid "blob" hello)
           (encodeDelta (len hello) (len helloNl) opsNl);
         Full OBJ_BLOB hello ]) ∅
  = ((writeObject helloNl "blob" (writeObject hello "blob" ∅).1).1, Ok tt).
Proof.
  refine (proj1 (unpack_delta_bundle 2 OBJ_BLOB hello helloNl opsNl true ∅
                   _ _ _ _ _ _)).
  - right; right; left.
  - reflexivity.
  - reflexivity.
  - constructor; [bounds |]. constructor; [bounds | constructor].
  - reflexivity.
  - reflexivity.
Defined.

Lemma revisions_at_ordered : Earlier.parsePackfile ordered = Ok tt.
Proof.
  assert (Hempty : forall out consumed, inflate [] <> ZDone out consumed)
    by (intros out consumed; cbn; discriminate).
  apply (revisions_accept_alike Hempty ordered ∅).
  exists (storeOf [("blob"%string, hello)]),
    [ deltaOn (oid "blob" hello) deltaNl;
      deltaOn (oid "blob" helloNl) deltaBang ].
  evaluate.
Defined.

End Checks.
